(** * info_dict: a dictionary populated from tagged methods

    A shallow embedding of [info_dict/helpers.py] and
    [info_dict/info_dict.py] (Python 2), and the properties of the
    registration, evaluation, caching and freezing machinery.

    Python objects live in a heap and are passed by reference; code that
    can raise returns a [result]; code that touches objects runs in the
    state-and-exception monad [M].  A raised exception keeps the changes
    made to the heap before it, as in Python.

    What the embedding fixes:
    - a class has one base, and its dictionary lists the attributes the
      library looks at; the attributes Python itself gives [dict] and
      [object] ([keys], [update], [__class__] and the like) are not
      listed, so nothing is stated here about reading those names;
    - every object of the model takes instance attributes, as the
      instances of [InfoDict] and [InstanceInfoStore] do; a plain [dict],
      which has no [__dict__], is never assigned to;
    - a tagged method and a predicate read the entries of the instance
      they are given, may raise, and change nothing; each call of a tagged
      method is logged in the world;
    - a dict held in an attribute of an object, as the cache store is, is
      kept by value in that attribute: the library makes it with a dict
      display and hands it to nobody else;
    - a registry is a list of pairs in iteration order, and the properties
      of [evaluate] are proved for every order. *)

From stdpp Require Import gmap strings list fin_maps.

Local Open Scope Z_scope.
Local Open Scope string_scope.
Local Open Scope list_scope.

(** ** Python values *)

(** Hashable objects used as dictionary keys: [None], strings, integers
    and function objects (the per-instance cache is keyed by function). *)
Inductive key :=
| KNone
| KStr (s : string)
| KInt (n : Z)
| KFunc (id : Z).

#[global] Instance key_eq_dec : EqDecision key.
Proof. solve_decision. Defined.

#[global] Instance key_countable : Countable key.
Proof.
  refine (inj_countable'
            (λ k, match k with
                  | KNone => inl ()
                  | KStr s => inr (inl s)
                  | KInt n => inr (inr (inl n))
                  | KFunc i => inr (inr (inr i))
                  end)
            (λ x, match x with
                  | inl _ => KNone
                  | inr (inl s) => KStr s
                  | inr (inr (inl n)) => KInt n
                  | inr (inr (inr i)) => KFunc i
                  end) _).
  by intros [| | |].
Defined.

Definition is_str (k : key) : bool :=
  match k with KStr _ => true | _ => false end.

(** The fragment of Python values the tagged methods produce. *)
#[warnings="-register-all"]
Inductive value :=
| VNone
| VBool (b : bool)
| VInt (n : Z)
| VStr (s : string)
| VDict (d : gmap key value).

(** [bool(v)] *)
Definition truthy (v : value) : bool :=
  match v with
  | VNone => false
  | VBool b => b
  | VInt n => negb (Z.eqb n 0)
  | VStr s => negb (String.eqb s EmptyString)
  | VDict d => negb (bool_decide (d = ∅))
  end.

Inductive exn :=
| InfoStoreItemPredicateFailure
| InfoStoreItemIgnoreError
| ValueError
| TypeError
| KeyError
| AttributeError
| RuntimeError
| NotImplementedError
| SystemError          (* a reference to an object that does not exist *)
| UserError (msg : string).

#[global] Instance exn_eq_dec : EqDecision exn.
Proof. solve_decision. Defined.

Inductive result (A : Type) :=
| Ok (a : A)
| Raise (e : exn).
Arguments Ok {A} a.
Arguments Raise {A} e.

(** ** Tagged functions and the options attached to them *)

(** [ConcatOptions]: two containers of keys. *)
Record ConcatOptions := {
  exclude : list key;
  include : list key
}.

(** [ConcatOptions()] *)
Definition ConcatOptions___init__ (exclude include : list key) : ConcatOptions :=
  {| exclude := exclude; include := include |}.

(** What a caller may pass as [concat=]. *)
Inductive concat_arg :=
| ConcatNone
| ConcatBool (b : bool)
| ConcatOpts (o : ConcatOptions)
| ConcatOther (v : value).

(** [bool(concat)]; a [ConcatOptions] object defines neither [__len__] nor
    [__nonzero__], so it is true. *)
Definition concat_truthy (c : concat_arg) : bool :=
  match c with
  | ConcatNone => false
  | ConcatBool b => b
  | ConcatOpts _ => true
  | ConcatOther v => truthy v
  end.

(** What a predicate sees of the item it is asked about. *)
Record item_view := {
  view_func : Z;
  view_concat : bool
}.

(** The instance as a tagged method or a predicate reads it: the contents
    of the dictionary it is. *)
Abbreviation context := (gmap key value).

Record InfoDictAttributeInfo := {
  _key : key;
  _cache : bool;
  _predicate : option (item_view → context → result value);
  _concat : concat_arg;
  _marksafe : bool
}.

(** A function object: its identity, its body, and the attribute
    [info_attribute_options] when the decorator has set it. *)
Record func := {
  f_id : Z;
  f_call : context → result value;
  info_attribute_options : option InfoDictAttributeInfo
}.

(** [hash(func)]: function objects hash by identity. *)
Definition hash (f : func) : Z := f_id f.

(** [InfoDictAttributeInfo.__init__] *)
Definition InfoDictAttributeInfo___init__
    (key : key) (cache : bool)
    (predicate : option (item_view → context → result value))
    (concat : concat_arg) (marksafe : bool) : result InfoDictAttributeInfo :=
  if bool_decide (key = KNone) && negb (concat_truthy concat)
  then Raise ValueError
  else Ok {| _key := key;
             _cache := cache;
             _predicate := predicate;
             _concat := match concat with
                        | ConcatBool true => ConcatOpts (ConcatOptions___init__ [] [])
                        | c => c
                        end;
             _marksafe := marksafe |}.

(** [InfoDict.attribute(...)(func)] *)
Definition InfoDict_attribute
    (key : key) (cache : bool)
    (predicate : option (item_view → context → result value))
    (concat : concat_arg) (marksafe : bool) (f : func) : result func :=
  match InfoDictAttributeInfo___init__ key cache predicate concat marksafe with
  | Ok o => Ok {| f_id := f_id f; f_call := f_call f;
                  info_attribute_options := Some o |}
  | Raise e => Raise e
  end.

(** The two item classes deriving from [InfoStoreObjectBase]. *)
Inductive item :=
| InfoStoreItem (_func : func)
| ConcatInfoStoreItem (_func : func) (_include _exclude : gset key).

Definition item_func (it : item) : func :=
  match it with
  | InfoStoreItem f => f
  | ConcatInfoStoreItem f _ _ => f
  end.

(** [item.concat] *)
Definition item_concat (it : item) : bool :=
  match it with
  | InfoStoreItem _ => false
  | ConcatInfoStoreItem _ _ _ => true
  end.

(** [InfoDictAttributeInfo.get_instance], for the options of [f]. *)
Definition InfoDictAttributeInfo_get_instance
    (f : func) (o : InfoDictAttributeInfo) : result item :=
  if concat_truthy (_concat o) then
    match _concat o with
    | ConcatOpts c =>
        Ok (ConcatInfoStoreItem f (list_to_set (include c)) (list_to_set (exclude c)))
    | _ => Raise TypeError
    end
  else Ok (InfoStoreItem f).

(** A Python dict whose iteration order matters is a list of pairs with
    distinct keys; the order of the list is the order of iteration, which
    Python 2 leaves unspecified. *)
Abbreviation registry := (list (key * item)).

(** ** Classes, objects and the heap *)

Abbreviation loc := positive.

(** The methods of the library that the model runs when a lookup finds
    them in a class. *)
Inductive method :=
| FrozenMeta_setattr_m           (* [FrozenMeta.setattr] *)
| ConcatableDict___add___m       (* [ConcatableDict.__add__] *)
| ConcatableDict___radd___m      (* [ConcatableDict.__radd__] *)
| InstanceInfoStore_evaluate_m   (* [InstanceInfoStore.evaluate] *)
| InfoDict___getattr___m.        (* [InfoDict.__getattr__] *)

(** What a class dictionary can hold. *)
Inductive cattr :=
| CMethod (m : method)           (* a method of the library *)
| CBool (b : bool)               (* a class-level flag, as [_frozen = False] *)
| CProperty                      (* a property without a setter *)
| CFunction (f : func)           (* a function defined in the class body *)
| COther                         (* another method or a staticmethod *)
| CInfoStore (reg : registry).   (* the [InfoStore] descriptor *)

(** A class: its name, its base ([None] for a built-in base such as
    [object] or [dict]) and its dictionary. *)
#[warnings="-register-all"]
Inductive pyclass :=
| PyClass (name : string) (base : option pyclass) (dct : gmap string cattr).

Definition class_name (c : pyclass) : string :=
  match c with PyClass n _ _ => n end.
Definition class_base (c : pyclass) : option pyclass :=
  match c with PyClass _ b _ => b end.
Definition class_dict (c : pyclass) : gmap string cattr :=
  match c with PyClass _ _ d => d end.

(** Lookup of [name] along the method resolution order of [c]. *)
Fixpoint class_lookup (c : pyclass) (name : string) : option cattr :=
  match c with
  | PyClass _ base dct =>
      match dct !! name with
      | Some a => Some a
      | None => match base with
                | Some b => class_lookup b name
                | None => None
                end
      end
  end.

(** What an instance [__dict__] can hold. *)
Inductive attr :=
| AVal (v : value)
| ARef (l : loc)
| ARegistry (reg : registry).

Record obj := {
  o_class : pyclass;
  o_dict : gmap string attr;     (* [__dict__] *)
  o_items : gmap key value       (* the entries, for a dict subclass *)
}.

(** The heap, and the log of the calls made to wrapped functions
    (function identity, instance), most recent first. *)
Record world := {
  heap : gmap loc obj;
  calls : list (Z * loc)
}.

(** ** The monad of Python code *)

Definition M (A : Type) : Type := world → result A * world.

Definition ret {A} (a : A) : M A := λ w, (Ok a, w).
Definition raise {A} (e : exn) : M A := λ w, (Raise e, w).
Definition bind {A B} (m : M A) (k : A → M B) : M B :=
  λ w, match m w with
       | (Ok a, w') => k a w'
       | (Raise e, w') => (Raise e, w')
       end.
Definition lift {A} (r : result A) : M A := λ w, (r, w).

Declare Scope py_scope.
Delimit Scope py_scope with py.
Notation "x <- m ;; k" := (bind m (λ x, k))
  (at level 100, m at next level, right associativity) : py_scope.
Notation "m ;; k" := (bind m (λ _, k))
  (at level 100, right associativity) : py_scope.
Local Open Scope py_scope.

(** [try: m  except es: h] *)
Definition try_except {A} (m : M A) (catches : exn → bool) (h : M A) : M A :=
  λ w, match m w with
       | (Ok a, w') => (Ok a, w')
       | (Raise e, w') => if catches e then h w' else (Raise e, w')
       end.

Definition get_obj (l : loc) : M obj :=
  λ w, match heap w !! l with
       | Some o => (Ok o, w)
       | None => (Raise SystemError, w)
       end.

Definition put_obj (l : loc) (o : obj) : M unit :=
  λ w, (Ok tt, {| heap := <[l := o]> (heap w); calls := calls w |}).

(** A new object of class [c], as [object.__new__] or [dict.__new__]. *)
Definition alloc (c : pyclass) : M loc :=
  λ w, let l := fresh (dom (heap w)) in
       (Ok l, {| heap := <[l := {| o_class := c; o_dict := ∅; o_items := ∅ |}]> (heap w);
                 calls := calls w |}).

(** [func(instance)]: the call is logged, then the body runs on the
    instance. *)
Definition call_func (f : func) (instance : loc) : M value :=
  o <- get_obj instance ;;
  λ w, (f_call f (o_items o),
        {| heap := heap w; calls := (f_id f, instance) :: calls w |}).

(** ** Attribute access *)

(** What an attribute read finds: an entry of the instance [__dict__] or
    an attribute of the class. *)
Inductive found :=
| FAttr (a : attr)
| FClass (c : cattr).

(** Normal attribute lookup: a property of the class first, then the
    instance [__dict__], then the other class attributes. *)
Definition normal_lookup (o : obj) (name : string) : option found :=
  match class_lookup (o_class o) name with
  | Some CProperty => Some (FClass CProperty)
  | c => match o_dict o !! name with
         | Some a => Some (FAttr a)
         | None => FClass <$> c
         end
  end.

(** [self[item]] *)
Definition dict___getitem__ (self : loc) (item : key) : M value :=
  o <- get_obj self ;;
  match o_items o !! item with
  | Some v => ret v
  | None => raise KeyError
  end.

(** [InfoDict.__getattr__] *)
Definition InfoDict___getattr__ (self : loc) (item : string) : M value :=
  try_except (dict___getitem__ self (KStr item))
             (λ e, bool_decide (e = KeyError))
             (raise AttributeError).

(** [self.name]: normal lookup, then the [__getattr__] of the class when
    it is the one of [InfoDict].  What is found on the class is returned
    as it is; [InfoDict_info_store] below applies [InfoStore.__get__]. *)
Definition getattr (self : loc) (name : string) : M found :=
  o <- get_obj self ;;
  match normal_lookup o name with
  | Some x => ret x
  | None =>
      match class_lookup (o_class o) "__getattr__" with
      | Some (CMethod InfoDict___getattr___m) =>
          v <- InfoDict___getattr__ self name ;;
          ret (FAttr (AVal v))
      | _ => raise AttributeError
      end
  end.

(** [getattr(self, name, default)] *)
Definition getattr_default (self : loc) (name : string) (default : found) : M found :=
  try_except (getattr self name)
             (λ e, bool_decide (e = AttributeError))
             (ret default).

(** [bool(x)] for what an attribute read found; objects without
    [__len__] or [__nonzero__] are true. *)
Definition found_truthy (x : found) : bool :=
  match x with
  | FAttr (AVal v) => truthy v
  | FAttr (ARef _) => true
  | FAttr (ARegistry reg) => negb (bool_decide (reg = []))
  | FClass (CBool b) => b
  | FClass _ => true
  end.

(** [object.__setattr__(self, name, value)] *)
Definition object___setattr__ (self : loc) (name : string) (value : attr) : M unit :=
  o <- get_obj self ;;
  match class_lookup (o_class o) name with
  | Some CProperty => raise AttributeError
  | _ => put_obj self {| o_class := o_class o;
                         o_dict := <[name := value]> (o_dict o);
                         o_items := o_items o |}
  end.

(** ** helpers.py: [FrozenMeta] *)

(** [type.__new__(mcs, name, bases, dct)] *)
Definition type___new__ (name : string) (base : option pyclass)
    (dct : gmap string cattr) : pyclass :=
  PyClass name base dct.

(** [cls.name = value] on a class object. *)
Definition class_setattr (cls : pyclass) (name : string) (value : cattr) : pyclass :=
  PyClass (class_name cls) (class_base cls) (<[name := value]> (class_dict cls)).

(** [FrozenMeta.__new__] *)
Definition FrozenMeta___new__ (name : string) (base : option pyclass)
    (dct : gmap string cattr) : pyclass :=
  type___new__ name base (<["__setattr__" := CMethod FrozenMeta_setattr_m]> dct).

(** [FrozenMeta.__init__] *)
Definition FrozenMeta___init__ (cls : pyclass) : pyclass :=
  class_setattr cls "_frozen" (CBool false).

(** The class statement with metaclass [FrozenMeta]. *)
Definition FrozenMeta_class (name : string) (base : option pyclass)
    (dct : gmap string cattr) : pyclass :=
  FrozenMeta___init__ (FrozenMeta___new__ name base dct).

(** The interpreter's recursion limit; Python 2 raises [RuntimeError]
    when it is exceeded. *)
Definition recursion_limit : nat := 1000.

(** [FrozenMeta.setattr], [depth] frames below the recursion limit.
    [super(self.__class__, self).__setattr__] is looked up from the base of
    the class of [self], whatever class the running method belongs to. *)
Fixpoint FrozenMeta_setattr (depth : nat) (self : loc) (key : string)
    (value : attr) : M unit :=
  match depth with
  | O => raise RuntimeError
  | S depth' =>
      frozen <- getattr_default self "_frozen" (FAttr (AVal (VBool false))) ;;
      if found_truthy frozen then raise RuntimeError
      else
        o <- get_obj self ;;
        match class_base (o_class o) ≫= λ b, class_lookup b "__setattr__" with
        | Some (CMethod FrozenMeta_setattr_m) => FrozenMeta_setattr depth' self key value
        | _ => object___setattr__ self key value
        end
  end.

(** The statement [self.name = value]. *)
Definition setattr_stmt (self : loc) (name : string) (value : attr) : M unit :=
  o <- get_obj self ;;
  match class_lookup (o_class o) "__setattr__" with
  | Some (CMethod FrozenMeta_setattr_m) =>
      FrozenMeta_setattr recursion_limit self name value
  | _ => object___setattr__ self name value
  end.

(** [type.__call__(cls, ...)]: a new object, then [__init__] on it. *)
Definition type___call__ (cls : pyclass) (init : loc → M unit) : M loc :=
  instance <- alloc cls ;;
  init instance ;;
  ret instance.

(** [FrozenMeta.__call__] *)
Definition FrozenMeta___call__ (cls : pyclass) (init : loc → M unit) : M loc :=
  instance <- type___call__ cls init ;;
  setattr_stmt instance "_frozen" (AVal (VBool true)) ;;
  ret instance.

(** ** helpers.py: [ConcatableDict] *)

(** [set(v)]: the keys of a dict, the characters of a string. *)
Definition chars (s : string) : list key :=
  (λ c, KStr (String c EmptyString)) <$> String.list_ascii_of_string s.

Definition set_of (v : value) : result (gset key) :=
  match v with
  | VDict d => Ok (dom d)
  | VStr s => Ok (list_to_set (chars s))
  | _ => Raise TypeError
  end.

(** [d.update(other)] on the entries [d]: a dict is merged, its values
    winning; an empty string is an empty sequence of pairs; the
    characters of a string are not pairs. *)
Definition update_items (d : gmap key value) (other : value) : result (gmap key value) :=
  match other with
  | VDict e => Ok (e ∪ d)
  | VStr s => if String.eqb s EmptyString then Ok d else Raise ValueError
  | _ => Raise TypeError
  end.

(** [self.update(other)] *)
Definition dict_update (self : loc) (other : value) : M unit :=
  o <- get_obj self ;;
  d <- lift (update_items (o_items o) other) ;;
  put_obj self {| o_class := o_class o; o_dict := o_dict o; o_items := d |}.

(** [dict.__init__(self, *args, **kwargs)] *)
Definition dict___init__ (self : loc) (args : list value)
    (kwargs : gmap string value) : M unit :=
  match args with
  | [] => dict_update self (VDict (kmap KStr kwargs))
  | [a] => dict_update self a ;; dict_update self (VDict (kmap KStr kwargs))
  | _ => raise TypeError
  end.

Definition dict_class : pyclass := PyClass "dict" None ∅.

Definition ConcatableDict : pyclass :=
  type___new__ "ConcatableDict" (Some dict_class)
    (<["join_dicts" := COther]>
     (<["__add__" := CMethod ConcatableDict___add___m]>
      (<["__radd__" := CMethod ConcatableDict___radd___m]>
       (<["copy" := COther]> ∅)))).

(** The dict object at [l], read as a mapping. *)
Definition as_mapping (l : loc) : M value :=
  o <- get_obj l ;;
  ret (VDict (o_items o)).

(** [ConcatableDict(d)] *)
Definition ConcatableDict_new (d : value) : M loc :=
  type___call__ ConcatableDict (λ self, dict___init__ self [d] ∅).

(** [ConcatableDict.join_dicts] *)
Definition ConcatableDict_join_dicts (dicta dictb : loc) : M loc :=
  a <- as_mapping dicta ;;
  new_dict <- ConcatableDict_new a ;;
  b <- as_mapping dictb ;;
  dict_update new_dict b ;;
  ret new_dict.

(** [ConcatableDict.__add__] *)
Definition ConcatableDict___add__ (self other : loc) : M loc :=
  ConcatableDict_join_dicts self other.

(** [ConcatableDict.__radd__] *)
Definition ConcatableDict___radd__ (self other : loc) : M loc :=
  ConcatableDict_join_dicts other self.

(** [ConcatableDict.copy] *)
Definition ConcatableDict_copy (self : loc) : M loc :=
  a <- as_mapping self ;;
  ConcatableDict_new a.

(** The expression [left + right]: [__add__] of the left operand when its
    class has one, else [__radd__] of the right operand. *)
Definition py_add (left right : loc) : M loc :=
  lo <- get_obj left ;;
  ro <- get_obj right ;;
  match class_lookup (o_class lo) "__add__" with
  | Some (CMethod ConcatableDict___add___m) => ConcatableDict___add__ left right
  | _ =>
      match class_lookup (o_class ro) "__radd__" with
      | Some (CMethod ConcatableDict___radd___m) => ConcatableDict___radd__ right left
      | _ => raise TypeError
      end
  end.

(** ** info_dict.py *)

Definition INFO_ITEM_CACHE_ATTRIBUTE_NAME : string := "_info_item_cache".

Section InfoDict.

(** [django.utils.safestring.mark_safe], the external capability that
    marks a value as safe for unescaped output. *)
Variable mark_safe : value → value.

(** *** [InfoStoreObjectBase] and the two item classes *)

(** [self.func.info_attribute_options.x], for a property [x] of the
    options; the attribute is missing on a function that was not
    decorated. *)
Definition item_option {A} (x : InfoDictAttributeInfo → A) (self : item) : result A :=
  match info_attribute_options (item_func self) with
  | Some o => Ok (x o)
  | None => Raise AttributeError
  end.

(** [self.cache] *)
Definition item_cache : item → result bool := item_option _cache.

(** [self.predicate] *)
Definition item_predicate
    : item → result (option (item_view → context → result value)) :=
  item_option _predicate.

(** [self.marksafe] *)
Definition item_marksafe : item → result bool := item_option _marksafe.

(** [self.key]: the declared key, or [hash(self.func)] for a concat
    item. *)
Definition item_key (self : item) : result key :=
  match self with
  | InfoStoreItem _ => item_option _key self
  | ConcatInfoStoreItem f _ _ => Ok (KInt (hash f))
  end.

Definition view_of (self : item) : item_view :=
  {| view_func := f_id (item_func self); view_concat := item_concat self |}.

(** [predicate(self, instance)] *)
Definition call_predicate (p : item_view → context → result value)
    (self : item) (instance : loc) : M value :=
  o <- get_obj instance ;;
  lift (p (view_of self) (o_items o)).

(** [ConcatInfoStoreItem.isexcluded] *)
Definition isexcluded (_include _exclude : gset key) (key : key) : bool :=
  negb (bool_decide (key ∈ _include)) && bool_decide (key ∈ _exclude).

(** [ConcatInfoStoreItem.isincluded] *)
Definition isincluded (_include _exclude : gset key) (key : key) : bool :=
  negb (isexcluded _include _exclude key).

(** [dict((key, items[key]) for key in items if self.isincluded(key))]:
    the included entries of a dict; for a string, [items[key]] fails on
    the first character that is included. *)
Definition included_items (_include _exclude : gset key) (items : value)
    : result value :=
  match items with
  | VDict d =>
      Ok (VDict (filter (λ kv, isincluded _include _exclude kv.1 = true) d))
  | VStr s =>
      if forallb (isexcluded _include _exclude) (chars s)
      then Ok (VDict ∅) else Raise TypeError
  | _ => Raise TypeError
  end.

(** [InfoStoreItem.processvalue] and [ConcatInfoStoreItem.processvalue] *)
Definition processvalue (self : item) (instance : loc) : M value :=
  match self with
  | InfoStoreItem f => call_func f instance
  | ConcatInfoStoreItem f _include _exclude =>
      items <- call_func f instance ;;
      lift (included_items _include _exclude items)
  end.

(** [InfoStoreObjectBase._get_and_process_value] *)
Definition _get_and_process_value (self : item) (instance : loc) : M value :=
  value <- processvalue self instance ;;
  marksafe <- lift (item_marksafe self) ;;
  if marksafe then ret (mark_safe value) else ret value.

(** [object.__getattribute__(instance, name)]: normal lookup only. *)
Definition object___getattribute__ (instance : loc) (name : string) : M found :=
  o <- get_obj instance ;;
  match normal_lookup o name with
  | Some x => ret x
  | None => raise AttributeError
  end.

(** [InfoStoreObjectBase._get_or_create_instance_cache] *)
Definition _get_or_create_instance_cache (instance : loc) : M found :=
  try_except
    (object___getattribute__ instance INFO_ITEM_CACHE_ATTRIBUTE_NAME)
    (λ e, bool_decide (e = AttributeError))
    (object___setattr__ instance INFO_ITEM_CACHE_ATTRIBUTE_NAME (AVal (VDict ∅)) ;;
     ret (FAttr (AVal (VDict ∅)))).

(** [cache_store[k]]; only a dict held by the instance itself is a cache
    store of the model, anything else cannot be indexed. *)
Definition cache_getitem (cache_store : found) (k : key) : M value :=
  match cache_store with
  | FAttr (AVal (VDict d)) =>
      match d !! k with
      | Some v => ret v
      | None => raise KeyError
      end
  | _ => raise TypeError
  end.

(** [cache_store[k] = value]: the dict is the one the instance holds
    under the cache attribute, so the instance sees the new entry. *)
Definition cache_setitem (instance : loc) (cache_store : found) (k : key)
    (value : value) : M unit :=
  match cache_store with
  | FAttr (AVal (VDict d)) =>
      o <- get_obj instance ;;
      put_obj instance
        {| o_class := o_class o;
           o_dict := <[INFO_ITEM_CACHE_ATTRIBUTE_NAME := AVal (VDict (<[k := value]> d))]>
                       (o_dict o);
           o_items := o_items o |}
  | _ => raise TypeError
  end.

(** [InfoStoreObjectBase.getvalue]; [cache_store] is only bound, and
    only used, when caching is on. *)
Definition getvalue (self : item) (instance : loc) : M value :=
  predicate <- lift (item_predicate self) ;;
  match predicate with
  | Some p =>
      ok <- call_predicate p self instance ;;
      if truthy ok then ret tt else raise InfoStoreItemPredicateFailure
  | None => ret tt
  end ;;
  cache <- lift (item_cache self) ;;
  cache_store <- (if cache then _get_or_create_instance_cache instance
                  else ret (FAttr (AVal VNone))) ;;
  hit <- (if cache
          then try_except (v <- cache_getitem cache_store (KFunc (f_id (item_func self))) ;;
                           ret (Some v))
                          (λ e, bool_decide (e = KeyError))
                          (ret None)
          else ret None) ;;
  match hit with
  | Some v => ret v
  | None =>
      value <- _get_and_process_value self instance ;;
      cache <- lift (item_cache self) ;;
      (if cache
       then cache_setitem instance cache_store (KFunc (f_id (item_func self))) value
       else ret tt) ;;
      ret value
  end.

(** *** [InstanceInfoStore] *)

Definition InstanceInfoStore : pyclass :=
  FrozenMeta_class "InstanceInfoStore" None
    (<["__init__" := COther]>
     (<["instance" := CProperty]>
      (<["registered_items" := CProperty]>
       (<["evaluate" := CMethod InstanceInfoStore_evaluate_m]>
        (<["validate_unique_keys" := COther]> ∅))))).

(** [InstanceInfoStore.__init__] *)
Definition InstanceInfoStore___init__ (self instance : loc)
    (registered_items : option registry) : M unit :=
  setattr_stmt self "_instance" (ARef instance) ;;
  setattr_stmt self "_registered_items"
    (ARegistry (match registered_items with
                | Some (x :: r) => x :: r
                | _ => []
                end)).

(** [InstanceInfoStore(instance, registered_items)] *)
Definition InstanceInfoStore_new (instance : loc)
    (registered_items : option registry) : M loc :=
  FrozenMeta___call__ InstanceInfoStore
    (λ self, InstanceInfoStore___init__ self instance registered_items).

(** [self.instance] *)
Definition InstanceInfoStore_instance (self : loc) : M loc :=
  x <- getattr self "_instance" ;;
  match x with
  | FAttr (ARef l) => ret l
  | _ => raise TypeError
  end.

(** [self._registered_items.iteritems()] *)
Definition InstanceInfoStore_iteritems (self : loc) : M registry :=
  x <- getattr self "_registered_items" ;;
  match x with
  | FAttr (ARegistry reg) => ret reg
  | _ => raise AttributeError
  end.

(** [', '.join(xs)] inside the message: every element must be a
    string. *)
Definition str_join (xs : gset key) : result unit :=
  if bool_decide (set_Forall (λ k, is_str k = true) xs)
  then Ok tt else Raise TypeError.

(** [InstanceInfoStore.validate_unique_keys] *)
Definition validate_unique_keys (dict_a : gmap key value) (dict_b : value) : M unit :=
  b <- lift (set_of dict_b) ;;
  let intersection := dom dict_a ∩ b in
  if bool_decide (intersection = ∅) then ret tt
  else
    lift (str_join intersection) ;;
    raise ValueError.

(** The exceptions [evaluate] catches:
    [except (InfoStoreItemPredicateFailure, InfoStoreItemIgnoreError)]. *)
Definition skipped (e : exn) : bool :=
  bool_decide (e = InfoStoreItemPredicateFailure)
  || bool_decide (e = InfoStoreItemIgnoreError).

(** The loop of [InstanceInfoStore.evaluate] over the items that remain,
    with the dictionary accumulated so far. *)
Fixpoint evaluate_loop (self : loc) (items : registry)
    (item_dict : gmap key value) : M (gmap key value) :=
  match items with
  | [] => ret item_dict
  | (item_key, item_object) :: rest =>
      r <- try_except
             (instance <- InstanceInfoStore_instance self ;;
              item_value <- getvalue item_object instance ;;
              ret (Some item_value))
             skipped
             (ret None) ;;
      match r with
      | None => evaluate_loop self rest item_dict
      | Some item_value =>
          if item_concat item_object then
            validate_unique_keys item_dict item_value ;;
            d <- lift (update_items item_dict item_value) ;;
            evaluate_loop self rest d
          else
            evaluate_loop self rest (<[item_key := item_value]> item_dict)
      end
  end.

(** [InstanceInfoStore.evaluate] *)
Definition InstanceInfoStore_evaluate (self : loc) : M (gmap key value) :=
  items <- InstanceInfoStore_iteritems self ;;
  evaluate_loop self items ∅.

(** *** [InfoStore] *)

(** [InfoStore.__init__]: the empty registry. *)
Definition InfoStore___init__ : registry := [].

(** [d[k] = v] on a registry. *)
Fixpoint registry_setitem (k : key) (v : item) (reg : registry) : registry :=
  match reg with
  | [] => [(k, v)]
  | (k', v') :: rest =>
      if bool_decide (k' = k) then (k, v) :: rest
      else (k', v') :: registry_setitem k v rest
  end.


(** [InfoStore.register]: the result and the registry afterwards. *)
Definition InfoStore_register (func : func) (registered_items : registry)
    : result unit * registry :=
  match info_attribute_options func with
  | None => (Raise AttributeError, registered_items)
  | Some o =>
      match InfoDictAttributeInfo_get_instance func o with
      | Raise e => (Raise e, registered_items)
      | Ok info_item =>
          match item_key info_item with
          | Raise e => (Raise e, registered_items)
          | Ok k =>
              if bool_decide (k ∈ registered_items.*1)
              then (Raise ValueError, registered_items)
              else (Ok tt, registry_setitem k info_item registered_items)
          end
      end
  end.

(** [InfoStore._get_or_create_instance_info_store] *)
Definition InfoStore__get_or_create_instance_info_store
    (_registered_items : registry) (instance : loc) : M found :=
  infostore <- InstanceInfoStore_new instance (Some _registered_items) ;;
  setattr_stmt instance "_instance_info_store" (ARef infostore) ;;
  ret (FAttr (ARef infostore)).

(** [InfoStore.__get__(self, instance, owner)] for an instance. *)
Definition InfoStore___get__ (_registered_items : registry) (instance : loc) : M found :=
  try_except
    (getattr instance "_instance_info_store")
    (λ e, bool_decide (e = AttributeError))
    (InfoStore__get_or_create_instance_info_store _registered_items instance).

(** [x.evaluate()] on what an attribute read found: the method of
    [InstanceInfoStore] when [x] is such an object; no other object of the
    model has an attribute [evaluate]. *)
Definition call_evaluate (x : found) : M (gmap key value) :=
  match x with
  | FAttr (ARef l) =>
      o <- get_obj l ;;
      match class_lookup (o_class o) "evaluate" with
      | Some (CMethod InstanceInfoStore_evaluate_m) => InstanceInfoStore_evaluate l
      | _ => raise AttributeError
      end
  | _ => raise AttributeError
  end.

(** *** [InfoDictMeta] *)

(** [InfoDictMeta.__new__]: the [InfoStore] is added to the class
    dictionary, then [super(FrozenMeta, mcs).__new__], which is
    [type.__new__], builds the class. *)
Definition InfoDictMeta___new__ (name : string) (base : option pyclass)
    (dct : gmap string cattr) : pyclass :=
  type___new__ name base (<["info_store" := CInfoStore InfoStore___init__]> dct).

(** [dir(klass)] *)
Fixpoint dir (klass : pyclass) : gset string :=
  match klass with
  | PyClass _ base dct =>
      dom dct ∪ match base with Some b => dir b | None => ∅ end
  end.

(** [InfoDictMeta._get_class_attributes], for the one base. *)
Definition InfoDictMeta__get_class_attributes (base : option pyclass) : list cattr :=
  match base with
  | Some klass => omap (class_lookup klass) (elements (dir klass))
  | None => []
  end.

(** [cls.info_store.register(func)]: the registry held by the class is
    updated in place. *)
Definition class_register (cls : pyclass) (func : func) : result pyclass :=
  match class_lookup cls "info_store" with
  | Some (CInfoStore reg) =>
      match InfoStore_register func reg with
      | (Ok _, reg') => Ok (class_setattr cls "info_store" (CInfoStore reg'))
      | (Raise e, _) => Raise e
      end
  | _ => Raise AttributeError
  end.

(** The loop of [InfoDictMeta.__init__]: functions carrying
    [info_attribute_options] are registered. *)
Fixpoint register_all (cls : pyclass) (attrs : list cattr) : result pyclass :=
  match attrs with
  | [] => Ok cls
  | CFunction f :: rest =>
      match info_attribute_options f with
      | Some _ =>
          match class_register cls f with
          | Ok cls' => register_all cls' rest
          | Raise e => Raise e
          end
      | None => register_all cls rest
      end
  | _ :: rest => register_all cls rest
  end.

(** [InfoDictMeta.__init__] *)
Definition InfoDictMeta___init__ (cls : pyclass) (base : option pyclass)
    (dct : gmap string cattr) : result pyclass :=
  let base_attributes := InfoDictMeta__get_class_attributes base in
  match register_all cls (base_attributes ++ (map_to_list dct).*2) with
  | Ok cls' => Ok (FrozenMeta___init__ cls')
  | Raise e => Raise e
  end.

(** The class statement with metaclass [InfoDictMeta]. *)
Definition InfoDictMeta_class (name : string) (base : option pyclass)
    (dct : gmap string cattr) : result pyclass :=
  InfoDictMeta___init__ (InfoDictMeta___new__ name base dct) base
    (<["info_store" := CInfoStore InfoStore___init__]> dct).

(** *** [InfoDict] *)

Definition InfoDict_dct : gmap string cattr :=
  <["__init__" := COther]>
  (<["__getattr__" := CMethod InfoDict___getattr___m]>
   (<["attribute" := COther]>
    (<["skip" := COther]> ∅))).

(** The class [InfoDict] as the class statement builds it. *)
Definition InfoDict : pyclass :=
  FrozenMeta___init__
    (InfoDictMeta___new__ "InfoDict" (Some ConcatableDict) InfoDict_dct).

(** [self.info_store]: the descriptor found on the class is asked for
    the store of the instance. *)
Definition InfoDict_info_store (self : loc) : M found :=
  x <- getattr self "info_store" ;;
  match x with
  | FClass (CInfoStore reg) => InfoStore___get__ reg self
  | _ => ret x
  end.

(** [InfoDict.__init__] *)
Definition InfoDict___init__ (self : loc) (args : list value)
    (kwargs : gmap string value) : M unit :=
  dict___init__ self args kwargs ;;
  store <- InfoDict_info_store self ;;
  d <- call_evaluate store ;;
  dict_update self (VDict d).

(** Calling a class [cls] deriving from [InfoDict] with arguments;
    [InfoDictMeta] inherits [__call__] from [FrozenMeta]. *)
Definition InfoDict_new (cls : pyclass) (args : list value)
    (kwargs : gmap string value) : M loc :=
  FrozenMeta___call__ cls (λ self, InfoDict___init__ self args kwargs).

(** [InfoDict.skip] *)
Definition InfoDict_skip : result value := Raise InfoStoreItemIgnoreError.

End InfoDict.

(** ** What the properties are stated with *)

(** The world after a call of the function [f] on [instance] was logged. *)
Definition log_call (f : func) (instance : loc) (w : world) : world :=
  {| heap := heap w; calls := (f_id f, instance) :: calls w |}.

(** The world with the object at [l] replaced. *)
Definition with_obj (l : loc) (o : obj) (w : world) : world :=
  {| heap := <[l := o]> (heap w); calls := calls w |}.

(** The object [o] holding the cache store [d]. *)
Definition set_cache (o : obj) (d : gmap key value) : obj :=
  {| o_class := o_class o;
     o_dict := <[INFO_ITEM_CACHE_ATTRIBUTE_NAME := AVal (VDict d)]> (o_dict o);
     o_items := o_items o |}.

(** The object [o] with the attribute [name] set in its [__dict__]. *)
Definition set_attr (o : obj) (name : string) (a : attr) : obj :=
  {| o_class := o_class o; o_dict := <[name := a]> (o_dict o); o_items := o_items o |}.

(** The predicate of the options, asked about [self] on the entries
    [ctx]: [Ok tt] when there is none or it answers a true value. *)
Definition predicate_check (opts : InfoDictAttributeInfo) (self : item)
    (ctx : context) : result unit :=
  match _predicate opts with
  | Some p =>
      match p (view_of self) ctx with
      | Ok r => if truthy r then Ok tt else Raise InfoStoreItemPredicateFailure
      | Raise e => Raise e
      end
  | None => Ok tt
  end.

(** What the wrapped function of [self] yields on the entries [ctx],
    filtered for a concat item. *)
Definition processed (self : item) (ctx : context) : result value :=
  match self with
  | InfoStoreItem f => f_call f ctx
  | ConcatInfoStoreItem f _include _exclude =>
      match f_call f ctx with
      | Ok items => included_items _include _exclude items
      | Raise e => Raise e
      end
  end.

(** The value put in the dictionary for an item whose function returned
    [v]. *)
Definition marked (mark_safe : value → value) (opts : InfoDictAttributeInfo)
    (v : value) : value :=
  if _marksafe opts then mark_safe v else v.

(** The value of [self] on the entries [ctx]: processed, then marked
    safe when the options ask for it. *)
Definition computed (mark_safe : value → value) (opts : InfoDictAttributeInfo)
    (self : item) (ctx : context) : result value :=
  match processed self ctx with
  | Ok v => Ok (marked mark_safe opts v)
  | Raise e => Raise e
  end.

(** A registry as [InfoStore.register] builds it: distinct keys, every
    item made by [get_instance] from the options of its function and
    stored under its own key, and one function object per identity. *)
Record wf_registry (reg : registry) : Prop := {
  wf_nodup : NoDup reg.*1;
  wf_items : ∀ k it, (k, it) ∈ reg →
    ∃ o, info_attribute_options (item_func it) = Some o
         ∧ InfoDictAttributeInfo_get_instance (item_func it) o = Ok it
         ∧ item_key it = Ok k;
  wf_identity : ∀ k1 it1 k2 it2, (k1, it1) ∈ reg → (k2, it2) ∈ reg →
    f_id (item_func it1) = f_id (item_func it2) → item_func it1 = item_func it2
}.

(** An instance store ready to be evaluated for [instance]: the store
    object holds the instance under [_instance], and the instance
    exists. *)
Definition eval_ready (w : world) (store instance : loc) : Prop :=
  store ≠ instance
  ∧ is_Some (heap w !! instance)
  ∧ ∃ os, heap w !! store = Some os
          ∧ normal_lookup os "_instance" = Some (FAttr (ARef instance)).

(** [getvalue] written out by cases: on the options of the function, the
    instance, the predicate, the caching flag and the state of the cache
    store of the instance. *)
Definition getvalue_cases (mark_safe : value → value) (self : item)
    (instance : loc) (w : world) : result value * world :=
  let f := item_func self in
  match info_attribute_options f, heap w !! instance with
  | None, _ => (Raise AttributeError, w)
  | Some _, None => (Raise SystemError, w)
  | Some opts, Some o =>
      match predicate_check opts self (o_items o) with
      | Raise e => (Raise e, w)
      | Ok _ =>
          if _cache opts then
            match normal_lookup o INFO_ITEM_CACHE_ATTRIBUTE_NAME with
            | None =>
                match computed mark_safe opts self (o_items o) with
                | Ok v =>
                    (Ok v, log_call f instance
                             (with_obj instance (set_cache o {[KFunc (f_id f) := v]}) w))
                | Raise e =>
                    (Raise e, log_call f instance
                                (with_obj instance (set_cache o ∅) w))
                end
            | Some (FAttr (AVal (VDict d))) =>
                match d !! KFunc (f_id f) with
                | Some v => (Ok v, w)
                | None =>
                    match computed mark_safe opts self (o_items o) with
                    | Ok v =>
                        (Ok v, log_call f instance
                                 (with_obj instance
                                    (set_cache o (<[KFunc (f_id f) := v]> d)) w))
                    | Raise e => (Raise e, log_call f instance w)
                    end
                end
            | Some _ => (Raise TypeError, w)
            end
          else
            (computed mark_safe opts self (o_items o), log_call f instance w)
      end
  end.

(** The value cached on [o] for the function of identity [id], when the
    cache attribute of [o] is a store. *)
Definition cache_entry (o : obj) (id : Z) : option value :=
  match normal_lookup o INFO_ITEM_CACHE_ATTRIBUTE_NAME with
  | Some (FAttr (AVal (VDict d))) => d !! KFunc id
  | _ => None
  end.

(** The cache attribute of [o] is missing or is a store, and no value is
    cached for the function [f]. *)
Definition cache_miss (o : obj) (f : func) : Prop :=
  match normal_lookup o INFO_ITEM_CACHE_ATTRIBUTE_NAME with
  | None => True
  | Some (FAttr (AVal (VDict d))) => d !! KFunc (f_id f) = None
  | Some _ => False
  end.

(** No value is cached on [o] for the function of any item of [reg]. *)
Definition cache_clean (o : obj) (reg : registry) : Prop :=
  ∀ k it, (k, it) ∈ reg → cache_entry o (f_id (item_func it)) = None.

(** [validate_unique_keys(item_dict, item_value)] followed by
    [item_dict.update(item_value)], as one result. *)
Definition merged (item_dict : gmap key value) (item_value : value)
    : result (gmap key value) :=
  match set_of item_value with
  | Raise e => Raise e
  | Ok b =>
      if bool_decide (dom item_dict ∩ b = ∅) then update_items item_dict item_value
      else match str_join (dom item_dict ∩ b) with
           | Ok _ => Raise ValueError
           | Raise e => Raise e
           end
  end.

(** The entries [dict.__init__] gives a new dict for the arguments
    [args] and [kwargs]. *)
Definition dict_args (args : list value) (kwargs : gmap string value)
    : result (gmap key value) :=
  match args with
  | [] => update_items ∅ (VDict (kmap KStr kwargs))
  | [a] =>
      match update_items ∅ a with
      | Ok d => update_items d (VDict (kmap KStr kwargs))
      | Raise e => Raise e
      end
  | _ => Raise TypeError
  end.

(** The instance store [InstanceInfoStore(instance, reg)] builds. *)
Definition instance_store (instance : loc) (reg : registry) : obj :=
  {| o_class := InstanceInfoStore;
     o_dict := <["_frozen" := AVal (VBool true)]>
                 (<["_registered_items" := ARegistry reg]>
                    (<["_instance" := ARef instance]> ∅));
     o_items := ∅ |}.

(** The object [o] holding the entries [d]. *)
Definition with_items (o : obj) (d : gmap key value) : obj :=
  {| o_class := o_class o; o_dict := o_dict o; o_items := d |}.

(** One function object per identity among the functions of [attrs]. *)
Definition one_object_per_identity (attrs : list cattr) : Prop :=
  ∀ f g, CFunction f ∈ attrs → CFunction g ∈ attrs → f_id f = f_id g → f = g.

(** The registry held by the class [cls] itself. *)
Definition own_registry (cls : pyclass) : option registry :=
  match class_dict cls !! "info_store" with
  | Some (CInfoStore reg) => Some reg
  | _ => None
  end.

(** ** Example classes, for concrete runs *)

(** A stand-in for [mark_safe] on concrete runs: strings are wrapped,
    other values are turned into the string [safe]. *)
Definition mark_safe_tag (v : value) : value :=
  match v with
  | VStr s => VStr ("safe:" +:+ s)
  | _ => VStr "safe"
  end.

Definition empty_world : world := {| heap := ∅; calls := [] |}.

(** The result of a class statement or of a decorator that did not
    raise. *)
Definition succeeded {A} (default : A) (r : result A) : A :=
  match r with Ok a => a | Raise _ => default end.

(** [def name(self): ...] before decoration. *)
Definition def (id : Z) (body : context → result value) : func :=
  {| f_id := id; f_call := body; info_attribute_options := None |}.

Definition decorated (r : result func) : func :=
  succeeded (def 0 (λ _, Raise NotImplementedError)) r.

(** [class Page(InfoDict)] with four tagged methods:
    [title], cached and marked safe; [hidden], whose predicate always
    answers [False]; [later], which skips itself; and [meta], a concat
    method with an include and an exclude list. *)
Definition Page_title : func :=
  decorated (InfoDict_attribute (KStr "title") true None ConcatNone true
               (def 1 (λ _, Ok (VStr "Home")))).

Definition Page_hidden : func :=
  decorated (InfoDict_attribute (KStr "hidden") false
               (Some (λ _ _, Ok (VBool false))) ConcatNone false
               (def 2 (λ _, Ok (VStr "x")))).

Definition Page_later : func :=
  decorated (InfoDict_attribute (KStr "later") false None ConcatNone false
               (def 3 (λ _, InfoDict_skip))).

Definition Page_meta_options : ConcatOptions :=
  ConcatOptions___init__ [KStr "secret"; KStr "id"] [KStr "id"].

(** What [Page.meta] returns. *)
Definition Page_meta_dict : gmap key value :=
  <[KStr "id" := VInt 7]> (<[KStr "secret" := VStr "s"]> (<[KStr "lang" := VStr "en"]> ∅)).

Definition Page_meta : func :=
  decorated (InfoDict_attribute KNone false None (ConcatOpts Page_meta_options) false
               (def 4 (λ _, Ok (VDict Page_meta_dict)))).

Definition Page_dct : gmap string cattr :=
  <["title" := CFunction Page_title]>
  (<["hidden" := CFunction Page_hidden]>
   (<["later" := CFunction Page_later]>
    (<["meta" := CFunction Page_meta]> ∅))).

Definition Page : pyclass :=
  succeeded InfoDict (InfoDictMeta_class "Page" (Some InfoDict) Page_dct).

(** [class Dup(InfoDict)] with two concat methods that both return a
    dictionary with the key [1]. *)
Definition Dup_first : func :=
  decorated (InfoDict_attribute KNone false None (ConcatBool true) false
               (def 11 (λ _, Ok (VDict {[KInt 1 := VStr "a"]})))).

Definition Dup_second : func :=
  decorated (InfoDict_attribute KNone false None (ConcatBool true) false
               (def 12 (λ _, Ok (VDict {[KInt 1 := VStr "b"]})))).

Definition Dup : pyclass :=
  succeeded InfoDict
    (InfoDictMeta_class "Dup" (Some InfoDict)
       (<["first" := CFunction Dup_first]> (<["second" := CFunction Dup_second]> ∅))).

(** [Page({'title': 'given', 'z': 9})] in the empty world. *)
Definition Page_args : list value :=
  [VDict (<[KStr "title" := VStr "given"]> (<[KStr "z" := VInt 9]> ∅))].

Definition Page_run : result loc * world :=
  InfoDict_new mark_safe_tag Page Page_args ∅ empty_world.

(** The item [register] makes for a decorated function. *)
Definition item_of (f : func) : item :=
  succeeded (InfoStoreItem f)
    (match info_attribute_options f with
     | Some o => InfoDictAttributeInfo_get_instance f o
     | None => Raise AttributeError
     end).

(** The registry of [Page], in the order the class statement left it. *)
Definition Page_registry : registry :=
  [(KInt 4, item_of Page_meta);
   (KStr "later", item_of Page_later);
   (KStr "title", item_of Page_title);
   (KStr "hidden", item_of Page_hidden)].

(** The options of a decorated function. *)
Definition options_of (f : func) : InfoDictAttributeInfo :=
  match info_attribute_options f with
  | Some o => o
  | None => {| _key := KNone; _cache := false; _predicate := None;
               _concat := ConcatNone; _marksafe := false |}
  end.

Definition two_dicts_left : obj :=
  {| o_class := ConcatableDict; o_dict := ∅;
     o_items := <[KStr "a" := VInt 1]> (<[KStr "b" := VInt 2]> ∅) |}.

Definition two_dicts_right : obj :=
  {| o_class := dict_class; o_dict := ∅; o_items := <[KStr "b" := VInt 3]> ∅ |}.

(** A world with a [ConcatableDict] at 1 and a plain dict at 2. *)
Definition two_dicts : world :=
  {| heap := <[1%positive := two_dicts_left]> (<[2%positive := two_dicts_right]> ∅);
     calls := [] |}.

(** The object at [l], when there is one. *)
Definition object_at (l : loc) (w : world) : obj :=
  default {| o_class := dict_class; o_dict := ∅; o_items := ∅ |} (heap w !! l).

(** [InfoDict({'title': 'given', 'z': 9})]: an instance of the base class,
    which has no registered item and so no cache store yet. *)
Definition plain_run : result loc * world :=
  InfoDict_new mark_safe_tag InfoDict Page_args ∅ empty_world.

(** ** What the further properties are stated with *)

(** The cache attribute of [o] is missing, or is a store. *)
Definition cache_usable (o : obj) : Prop :=
  match normal_lookup o INFO_ITEM_CACHE_ATTRIBUTE_NAME with
  | None => True
  | Some (FAttr (AVal (VDict _))) => True
  | Some _ => False
  end.

(** What [getvalue] gives for [self] on the entries [ctx] when nothing is
    cached for it: the options are read, the predicate is asked, the value
    is computed. *)
Definition item_outcome (mark_safe : value → value) (self : item) (ctx : context)
    : result value :=
  match info_attribute_options (item_func self) with
  | None => Raise AttributeError
  | Some opts =>
      match predicate_check opts self ctx with
      | Ok _ => computed mark_safe opts self ctx
      | Raise e => Raise e
      end
  end.

(** Whether the wrapped function of [self] is called on the entries
    [ctx]: the function carries options and its predicate passes. *)
Definition item_called (self : item) (ctx : context) : bool :=
  match info_attribute_options (item_func self) with
  | None => false
  | Some opts =>
      match predicate_check opts self ctx with
      | Ok _ => true
      | Raise _ => false
      end
  end.

(** One pass over the registry on the entries [ctx], each item judged by
    [item_outcome]: the dictionary [evaluate] accumulates, or the first
    exception that is not skipped, and the calls made, most recent first,
    in front of [log]. *)
Fixpoint evaluate_fold (mark_safe : value → value) (ctx : context) (instance : loc)
    (items : registry) (item_dict : gmap key value) (log : list (Z * loc))
    : result (gmap key value) * list (Z * loc) :=
  match items with
  | [] => (Ok item_dict, log)
  | (item_key, item_object) :: rest =>
      let log' := if item_called item_object ctx
                  then (f_id (item_func item_object), instance) :: log else log in
      match item_outcome mark_safe item_object ctx with
      | Ok item_value =>
          if item_concat item_object then
            match merged item_dict item_value with
            | Ok d => evaluate_fold mark_safe ctx instance rest d log'
            | Raise e => (Raise e, log')
            end
          else evaluate_fold mark_safe ctx instance rest
                 (<[item_key := item_value]> item_dict) log'
      | Raise e =>
          if skipped e then evaluate_fold mark_safe ctx instance rest item_dict log'
          else (Raise e, log')
      end
  end.

(** The log entry of a call of the function of a registry entry. *)
Definition call_of (instance : loc) (x : key * item) : Z * loc :=
  (f_id (item_func x.2), instance).


(** The identities of the functions of [attrs]. *)
Definition function_ids (attrs : list cattr) : list Z :=
  omap (λ a, match a with CFunction f => Some (f_id f) | _ => None end) attrs.

(** ** Further example data *)

(** [lang], a non-concat method whose key is also a key of the dictionary
    [meta] returns. *)
Definition Page_lang : func :=
  decorated (InfoDict_attribute (KStr "lang") false None ConcatNone false
               (def 5 (λ _, Ok (VStr "fr")))).

(** [draft], a cached method that skips itself. *)
Definition Page_draft : func :=
  decorated (InfoDict_attribute (KStr "draft") true None ConcatNone false
               (def 6 (λ _, InfoDict_skip))).



(** Constructor arguments with an entry named as the attribute that
    holds the instance store. *)
Definition reserved_args : list value :=
  [VDict (<[KStr "_instance_info_store" := VInt 1]> ∅)].

(** What [meta] contributes: its dictionary without the excluded key
    [secret]. *)
Definition Page_meta_kept : gmap key value :=
  <[KStr "id" := VInt 7]> (<[KStr "lang" := VStr "en"]> ∅).

(** Two orders of the registry of [Page]. *)
Definition Page_front : registry :=
  [(KInt 4, item_of Page_meta); (KStr "later", item_of Page_later)].

Definition Page_back : registry :=
  [(KStr "title", item_of Page_title); (KStr "hidden", item_of Page_hidden)].

(** [class Child(Page)] with an empty body. *)
Definition Child : pyclass :=
  succeeded InfoDict (InfoDictMeta_class "Child" (Some Page) ∅).

(** [Child({'z': 9})] in the empty world. *)
Definition Child_args : list value := [VDict (<[KStr "z" := VInt 9]> ∅)].

Definition Child_run : result loc * world :=
  InfoDict_new mark_safe_tag Child Child_args ∅ empty_world.

(** * Properties *)

(** ** The monad *)

Lemma bind_Ok {A B} (m : M A) (k : A → M B) w a w1 :
  m w = (Ok a, w1) → bind m k w = k a w1.
Proof. intros H. unfold bind. by rewrite H. Qed.

Lemma bind_Raise {A B} (m : M A) (k : A → M B) w e w1 :
  m w = (Raise e, w1) → bind m k w = (Raise e, w1).
Proof. intros H. unfold bind. by rewrite H. Qed.

Lemma bind_inv_Ok {A B} (m : M A) (k : A → M B) w b w' :
  bind m k w = (Ok b, w') → ∃ a w1, m w = (Ok a, w1) ∧ k a w1 = (Ok b, w').
Proof.
  unfold bind. destruct (m w) as [[a|e] w1]; intros H; [eauto | discriminate].
Qed.

Lemma get_obj_Some l o w : heap w !! l = Some o → get_obj l w = (Ok o, w).
Proof. intros H. unfold get_obj. by rewrite H. Qed.

Lemma kmap_KStr_empty : kmap (M2 := gmap key) KStr (∅ : gmap string value) = ∅.
Proof. apply kmap_empty. Qed.

Lemma join_dicts_spec (w : world) (dicta dictb : loc) (oa ob : obj) :
  heap w !! dicta = Some oa →
  heap w !! dictb = Some ob →
  let new := fresh (dom (heap w)) in
  ConcatableDict_join_dicts dicta dictb w =
    (Ok new,
     with_obj new {| o_class := ConcatableDict; o_dict := ∅;
                     o_items := o_items ob ∪ o_items oa |} w).
Proof.
  intros Ha Hb new.
  assert (Hnew : heap w !! new = None).
  { apply not_elem_of_dom. apply is_fresh. }
  assert (Hna : dicta ≠ new) by (intros ->; congruence).
  assert (Hnb : dictb ≠ new) by (intros ->; congruence).
  unfold ConcatableDict_join_dicts, as_mapping.
  rewrite (bind_Ok _ _ w (VDict (o_items oa)) w).
  2:{ by rewrite (bind_Ok _ _ w oa w) by by apply get_obj_Some. }
  unfold ConcatableDict_new, type___call__, alloc, dict___init__, dict_update,
    bind, get_obj, put_obj, lift, ret, with_obj; cbn.
  fold new.
  rewrite !lookup_insert_eq. cbn.
  rewrite !lookup_insert_eq. cbn.
  rewrite !lookup_insert_ne by done. rewrite Hb. cbn.
  rewrite !lookup_insert_eq. cbn.
  rewrite !insert_insert_eq.
  rewrite kmap_KStr_empty.
  by rewrite (left_id_L ∅ (∪)), (right_id_L ∅ (∪)).
Qed.

(** ** [ConcatableDict] *)

(** C10: [d + e], and [e + d] for a plain dict [e] on the left, return a new
    [ConcatableDict] holding the entries of the left operand updated with
    those of the right operand: the right operand wins on every common key,
    and no object that existed before, the operands included, is
    modified. *)
Theorem ConcatableDict_add_right_wins (w : world) (left right : loc) (lo ro : obj) :
  heap w !! left = Some lo →
  heap w !! right = Some ro →
  class_lookup (o_class lo) "__add__" = Some (CMethod ConcatableDict___add___m)
  ∨ (class_lookup (o_class lo) "__add__" = None
     ∧ class_lookup (o_class ro) "__radd__" = Some (CMethod ConcatableDict___radd___m)) →
  ∃ new w' o,
    py_add left right w = (Ok new, w')
    ∧ heap w !! new = None
    ∧ heap w' !! new = Some o
    ∧ o_class o = ConcatableDict
    ∧ o_items o = o_items ro ∪ o_items lo
    ∧ (∀ k v, o_items ro !! k = Some v → o_items o !! k = Some v)
    ∧ (∀ k, o_items ro !! k = None → o_items o !! k = o_items lo !! k)
    ∧ heap w' !! left = Some lo
    ∧ heap w' !! right = Some ro
    ∧ (∀ l, l ≠ new → heap w' !! l = heap w !! l)
    ∧ calls w' = calls w.
Proof.
  intros Hl Hr Hcls.
  pose proof (join_dicts_spec w left right lo ro Hl Hr) as Hjoin. cbn zeta in Hjoin.
  set (new := fresh (dom (heap w))) in *.
  assert (Hnew : heap w !! new = None) by (apply not_elem_of_dom, is_fresh).
  eexists new, _, _. split.
  { unfold py_add.
    rewrite (bind_Ok _ _ w lo w) by by apply get_obj_Some.
    rewrite (bind_Ok _ _ w ro w) by by apply get_obj_Some.
    destruct Hcls as [-> | [-> ->]]; exact Hjoin. }
  cbn. rewrite lookup_insert_eq.
  repeat split; try done.
  - intros k v Hk. by apply lookup_union_Some_l.
  - intros k Hk. by apply lookup_union_r.
  - rewrite lookup_insert_ne; [done | intros <-; congruence].
  - rewrite lookup_insert_ne; [done | intros <-; congruence].
  - intros l Hne. by rewrite lookup_insert_ne.
Qed.

(** ** [InfoDict.__getattr__] *)

(** C9: on an [InfoDict] instance, reading an attribute that normal lookup
    does not find returns the entry stored under that name when there is
    one and raises [AttributeError], not [KeyError], when there is none;
    nothing is changed. *)
Theorem InfoDict_getattr_reads_items (w : world) (self : loc) (o : obj) (name : string) :
  heap w !! self = Some o →
  class_lookup (o_class o) "__getattr__" = Some (CMethod InfoDict___getattr___m) →
  normal_lookup o name = None →
  getattr self name w =
    match o_items o !! KStr name with
    | Some v => (Ok (FAttr (AVal v)), w)
    | None => (Raise AttributeError, w)
    end
  ∧ (getattr self name w).1 ≠ Raise KeyError.
Proof.
  intros Ho Hcls Hnone.
  assert (Heq : getattr self name w =
    match o_items o !! KStr name with
    | Some v => (Ok (FAttr (AVal v)), w)
    | None => (Raise AttributeError, w)
    end).
  { unfold getattr. rewrite (bind_Ok _ _ w o w) by by apply get_obj_Some.
    rewrite Hnone, Hcls.
    unfold InfoDict___getattr__, try_except, dict___getitem__, bind, get_obj.
    rewrite Ho. by destruct (o_items o !! KStr name). }
  split; [done|]. rewrite Heq. by destruct (o_items o !! KStr name).
Qed.

(** ** [InfoStore.register] *)

Lemma registry_setitem_fresh k v (reg : registry) :
  k ∉ reg.*1 → registry_setitem k v reg = reg ++ [(k, v)].
Proof.
  induction reg as [|[k' v'] reg IH]; [done|]. cbn. intros Hk.
  apply not_elem_of_cons in Hk as [Hne Hk].
  rewrite bool_decide_eq_false_2 by done. by rewrite IH.
Qed.




Lemma normal_lookup_None_class o name :
  normal_lookup o name = None → class_lookup (o_class o) name = None ∧ o_dict o !! name = None.
Proof.
  unfold normal_lookup. destruct (class_lookup (o_class o) name) as [[]|] eqn:Hc;
    destruct (o_dict o !! name); cbn; intros; by simplify_eq.
Qed.

Lemma processvalue_eq self instance w o :
  heap w !! instance = Some o →
  processvalue self instance w = (processed self (o_items o), log_call (item_func self) instance w).
Proof.
  intros Ho. destruct self as [f | f i e]; cbn;
    unfold call_func, bind, get_obj, log_call, lift; rewrite Ho; cbn; [done|].
  by destruct (f_call f (o_items o)).
Qed.

Lemma get_and_process_value_eq mark_safe self opts instance w o :
  info_attribute_options (item_func self) = Some opts →
  heap w !! instance = Some o →
  _get_and_process_value mark_safe self instance w =
    (computed mark_safe opts self (o_items o), log_call (item_func self) instance w).
Proof.
  intros Hopts Ho. unfold _get_and_process_value, bind.
  rewrite (processvalue_eq _ _ _ o Ho). unfold computed.
  destruct (processed self (o_items o)); [|done].
  unfold lift, item_marksafe, item_option, marked. rewrite Hopts.
  by destruct (_marksafe opts).
Qed.

Lemma get_obj_None l w : heap w !! l = None → get_obj l w = (Raise SystemError, w).
Proof. intros H. unfold get_obj. by rewrite H. Qed.

Lemma predicate_step (opts : InfoDictAttributeInfo) self instance w o :
  heap w !! instance = Some o →
  match _predicate opts with
  | Some p =>
      ok <- call_predicate p self instance ;;
      if truthy ok then ret tt else raise InfoStoreItemPredicateFailure
  | None => ret tt
  end w = (predicate_check opts self (o_items o), w).
Proof.
  intros Ho. unfold predicate_check. destruct (_predicate opts) as [p|]; [|done].
  unfold call_predicate, bind, get_obj, lift. rewrite Ho.
  destruct (p (view_of self) (o_items o)) as [r|e]; [|done]. by destruct (truthy r).
Qed.

Lemma get_or_create_instance_cache_eq instance w o :
  heap w !! instance = Some o →
  _get_or_create_instance_cache instance w =
    match normal_lookup o INFO_ITEM_CACHE_ATTRIBUTE_NAME with
    | Some x => (Ok x, w)
    | None => (Ok (FAttr (AVal (VDict ∅))), with_obj instance (set_cache o ∅) w)
    end.
Proof.
  intros Ho.
  unfold _get_or_create_instance_cache, try_except, object___getattribute__,
    object___setattr__, bind, get_obj, put_obj.
  rewrite Ho.
  destruct (normal_lookup o INFO_ITEM_CACHE_ATTRIBUTE_NAME) eqn:Hn; [done|].
  cbn. rewrite Ho.
  apply normal_lookup_None_class in Hn as [-> _]. done.
Qed.

Lemma cache_tail_eq mark_safe self opts instance d w o :
  info_attribute_options (item_func self) = Some opts →
  heap w !! instance = Some o →
  (hit <- try_except
            (v <- cache_getitem (FAttr (AVal (VDict d))) (KFunc (f_id (item_func self))) ;;
             ret (Some v))
            (λ e, bool_decide (e = KeyError))
            (ret None) ;;
   match hit with
   | Some v => ret v
   | None =>
       value <- _get_and_process_value mark_safe self instance ;;
       cache <- lift (Ok true) ;;
       (if cache
        then cache_setitem instance (FAttr (AVal (VDict d)))
               (KFunc (f_id (item_func self))) value
        else ret tt) ;;
       ret value
   end) w =
  match d !! KFunc (f_id (item_func self)) with
  | Some v => (Ok v, w)
  | None =>
      match computed mark_safe opts self (o_items o) with
      | Ok v =>
          (Ok v, log_call (item_func self) instance
                   (with_obj instance
                      (set_cache o (<[KFunc (f_id (item_func self)) := v]> d)) w))
      | Raise e => (Raise e, log_call (item_func self) instance w)
      end
  end.
Proof.
  intros Hopts Ho.
  unfold try_except, cache_getitem, bind at 1 2.
  destruct (d !! KFunc (f_id (item_func self))) as [v|]; [done|].
  unfold raise, ret. rewrite bool_decide_eq_true_2 by done.
  unfold bind at 1.
  rewrite (get_and_process_value_eq mark_safe self opts instance w o Hopts Ho).
  destruct (computed mark_safe opts self (o_items o)) as [v|e]; [|done].
  unfold cache_setitem, lift, bind, get_obj, put_obj, log_call. cbn. by rewrite Ho.
Qed.

Lemma cache_tail_TypeError mark_safe self instance (a : found) w :
  (∀ d, a ≠ FAttr (AVal (VDict d))) →
  (hit <- try_except
            (v <- cache_getitem a (KFunc (f_id (item_func self))) ;;
             ret (Some v))
            (λ e, bool_decide (e = KeyError))
            (ret None) ;;
   match hit with
   | Some v => ret v
   | None =>
       value <- _get_and_process_value mark_safe self instance ;;
       cache <- lift (Ok true) ;;
       (if cache
        then cache_setitem instance a (KFunc (f_id (item_func self))) value
        else ret tt) ;;
       ret value
   end) w = (Raise TypeError, w).
Proof.
  intros Ha. unfold try_except, cache_getitem, bind at 1 2.
  destruct a as [[[]| |]|]; try done. by destruct (Ha d).
Qed.

Lemma getvalue_eq mark_safe self instance w :
  getvalue mark_safe self instance w = getvalue_cases mark_safe self instance w.
Proof.
  unfold getvalue, getvalue_cases.
  unfold item_predicate, item_cache, item_option.
  destruct (info_attribute_options (item_func self)) as [opts|] eqn:Hopts; [|done].
  rewrite (bind_Ok _ _ w (_predicate opts) w) by done.
  destruct (heap w !! instance) as [o|] eqn:Ho.
  2:{ destruct (_predicate opts) as [p|].
      - unfold call_predicate. rewrite (bind_Raise _ _ w SystemError w); [done|].
        rewrite (bind_Raise _ _ w SystemError w); [done|].
        rewrite (bind_Raise _ _ w SystemError w); [done|]. by apply get_obj_None.
      - rewrite (bind_Ok _ _ w tt w) by done.
        rewrite (bind_Ok _ _ w (_cache opts) w) by done.
        destruct (_cache opts).
        + rewrite (bind_Raise _ _ w SystemError w); [done|].
          unfold _get_or_create_instance_cache, try_except, object___getattribute__.
          rewrite (bind_Raise _ _ w SystemError w); [done|]. by apply get_obj_None.
        + rewrite (bind_Ok _ _ w (FAttr (AVal VNone)) w) by done.
          rewrite (bind_Ok _ _ w None w) by done.
          rewrite (bind_Raise _ _ w SystemError w); [done|].
          unfold _get_and_process_value.
          rewrite (bind_Raise _ _ w SystemError w); [done|].
          destruct self; cbn; unfold call_func.
          * rewrite (bind_Raise _ _ w SystemError w); [done|]. by apply get_obj_None.
          * rewrite (bind_Raise _ _ w SystemError w); [done|].
            rewrite (bind_Raise _ _ w SystemError w); [done|]. by apply get_obj_None. }
  destruct (predicate_check opts self (o_items o)) as [[]|e] eqn:Hp.
  2:{ rewrite (bind_Raise _ _ w e w); [done|]. rewrite <- Hp. by apply predicate_step. }
  rewrite (bind_Ok _ _ w tt w) by (rewrite <- Hp; by apply predicate_step).
  rewrite (bind_Ok _ _ w (_cache opts) w) by done.
  destruct (_cache opts) eqn:Hcache.
  2:{ rewrite (bind_Ok _ _ w (FAttr (AVal VNone)) w) by done.
      rewrite (bind_Ok _ _ w None w) by done.
      unfold bind at 1.
      rewrite (get_and_process_value_eq mark_safe self opts instance w o Hopts Ho).
      destruct (computed mark_safe opts self (o_items o)) as [v|e']; [|done].
      done. }
  unfold bind at 1. rewrite (get_or_create_instance_cache_eq instance w o Ho).
  destruct (normal_lookup o INFO_ITEM_CACHE_ATTRIBUTE_NAME) as [a|] eqn:Hn.
  - destruct a as [[[| | | |d]| |]|];
      first [ by rewrite (cache_tail_eq mark_safe self opts instance d w o Hopts Ho)
            | by rewrite cache_tail_TypeError ].
  - rewrite (cache_tail_eq mark_safe self opts instance ∅ _ (set_cache o ∅) Hopts)
      by (cbn; apply lookup_insert_eq).
    rewrite lookup_empty. cbn.
    destruct (computed mark_safe opts self (o_items o)) as [v|e]; [|done].
    unfold log_call, with_obj, set_cache. cbn.
    by rewrite !insert_insert_eq, insert_empty.
Qed.

(** ** [getvalue] *)

Lemma getvalue_heap_other mark_safe self instance w r w1 :
  getvalue mark_safe self instance w = (r, w1) →
  ∀ l, l ≠ instance → heap w1 !! l = heap w !! l.
Proof.
  rewrite getvalue_eq. unfold getvalue_cases. intros H l Hl.
  repeat case_match; simplify_eq; cbn; by rewrite ?lookup_insert_ne.
Qed.


(** What [getvalue] changes of the instance: the cache attribute, and
    nothing else. *)
Lemma getvalue_instance mark_safe self instance w r w1 o :
  getvalue mark_safe self instance w = (r, w1) →
  heap w !! instance = Some o →
  ∃ o1, heap w1 !! instance = Some o1
        ∧ o_class o1 = o_class o
        ∧ o_items o1 = o_items o
        ∧ ∀ name, name ≠ INFO_ITEM_CACHE_ATTRIBUTE_NAME → o_dict o1 !! name = o_dict o !! name.
Proof.
  rewrite getvalue_eq. unfold getvalue_cases. intros H Ho. rewrite Ho in H.
  repeat case_match; simplify_eq; cbn; rewrite ?lookup_insert_eq;
    eexists; (split; [done|]); cbn; repeat split; try done;
    intros name Hname; by rewrite lookup_insert_ne.
Qed.

Lemma getvalue_predicate_failure mark_safe self opts p instance w o r :
  info_attribute_options (item_func self) = Some opts →
  _predicate opts = Some p →
  heap w !! instance = Some o →
  p (view_of self) (o_items o) = Ok r →
  truthy r = false →
  getvalue mark_safe self instance w = (Raise InfoStoreItemPredicateFailure, w).
Proof.
  intros Hopts Hp Ho Hr Hf. rewrite getvalue_eq. unfold getvalue_cases, predicate_check.
  by rewrite Hopts, Ho, Hp, Hr, Hf.
Qed.

Lemma normal_lookup_not_property o name x :
  normal_lookup o name = Some (FAttr x) ∨ normal_lookup o name = None →
  class_lookup (o_class o) name ≠ Some CProperty.
Proof.
  unfold normal_lookup. intros H Hc. rewrite Hc in H. by destruct H.
Qed.

Lemma normal_lookup_set_cache o d :
  class_lookup (o_class o) INFO_ITEM_CACHE_ATTRIBUTE_NAME ≠ Some CProperty →
  normal_lookup (set_cache o d) INFO_ITEM_CACHE_ATTRIBUTE_NAME = Some (FAttr (AVal (VDict d))).
Proof.
  intros Hc. unfold normal_lookup, set_cache; cbn. rewrite lookup_insert_eq.
  by destruct (class_lookup (o_class o) INFO_ITEM_CACHE_ATTRIBUTE_NAME) as [[]|].
Qed.


Lemma getvalue_hit mark_safe self opts instance w o d v :
  info_attribute_options (item_func self) = Some opts →
  _cache opts = true →
  heap w !! instance = Some o →
  predicate_check opts self (o_items o) = Ok tt →
  normal_lookup o INFO_ITEM_CACHE_ATTRIBUTE_NAME = Some (FAttr (AVal (VDict d))) →
  d !! KFunc (f_id (item_func self)) = Some v →
  getvalue mark_safe self instance w = (Ok v, w).
Proof.
  intros Hopts Hcache Ho Hp Hn Hd. rewrite getvalue_eq. unfold getvalue_cases.
  by rewrite Hopts, Ho, Hp, Hcache, Hn, Hd.
Qed.


(** ** [InstanceInfoStore.evaluate] *)

Lemma InstanceInfoStore_instance_eq w store instance :
  eval_ready w store instance →
  InstanceInfoStore_instance store w = (Ok instance, w).
Proof.
  intros (_ & _ & os & Hos & Hl).
  unfold InstanceInfoStore_instance, getattr.
  rewrite (bind_Ok _ _ w (FAttr (ARef instance)) w); [done|].
  rewrite (bind_Ok _ _ w os w) by by apply get_obj_Some. by rewrite Hl.
Qed.

Lemma eval_ready_getvalue mark_safe self w store instance r w1 :
  eval_ready w store instance →
  getvalue mark_safe self instance w = (r, w1) →
  eval_ready w1 store instance.
Proof.
  intros (Hne & [o Ho] & os & Hos & Hl) Hg. split; [done|]. split.
  - destruct (getvalue_instance _ _ _ _ _ _ _ Hg Ho) as (o1 & -> & _). eauto.
  - exists os. split; [|done].
    by rewrite (getvalue_heap_other _ _ _ _ _ _ Hg store Hne).
Qed.

Lemma validate_then_update {A} (acc : gmap key value) (v : value)
    (k : gmap key value → M A) w :
  (validate_unique_keys acc v ;; d <- lift (update_items acc v) ;; k d) w =
    match merged acc v with
    | Ok d => k d w
    | Raise e => (Raise e, w)
    end.
Proof.
  unfold validate_unique_keys, merged, bind, lift, ret, raise.
  destruct (set_of v) as [b|]; [|done].
  case_bool_decide.
  - by destruct (update_items acc v).
  - by destruct (str_join (dom acc ∩ b)) as [[]|].
Qed.

Lemma evaluate_loop_cons mark_safe store instance k it rest acc w :
  eval_ready w store instance →
  evaluate_loop mark_safe store ((k, it) :: rest) acc w =
    match getvalue mark_safe it instance w with
    | (Ok v, w1) =>
        if item_concat it then
          match merged acc v with
          | Ok d => evaluate_loop mark_safe store rest d w1
          | Raise e => (Raise e, w1)
          end
        else evaluate_loop mark_safe store rest (<[k := v]> acc) w1
    | (Raise e, w1) =>
        if skipped e then evaluate_loop mark_safe store rest acc w1
        else (Raise e, w1)
    end.
Proof.
  intros Hready. cbn [evaluate_loop].
  unfold bind at 1. unfold try_except.
  unfold bind at 1. rewrite (InstanceInfoStore_instance_eq _ _ _ Hready).
  unfold bind at 1.
  destruct (getvalue mark_safe it instance w) as [[v|e] w1]; cbn.
  - destruct (item_concat it); [|done]. apply validate_then_update.
  - by destruct (skipped e).
Qed.

Lemma merged_Ok acc v d :
  merged acc v = Ok d →
  (∃ sub, v = VDict sub ∧ dom acc ∩ dom sub = ∅ ∧ d = sub ∪ acc)
  ∨ (v = VStr EmptyString ∧ d = acc).
Proof.
  unfold merged. destruct v as [| | |s|sub]; try done; cbn.
  - case_bool_decide.
    + destruct (String.eqb s EmptyString) eqn:Hs; [|done].
      apply String.eqb_eq in Hs as ->. intros [= <-]. by right.
    + by destruct (str_join _) as [[]|].
  - case_bool_decide.
    + intros [= <-]. left. eauto.
    + by destruct (str_join _) as [[]|].
Qed.

Lemma merged_keeps acc v d k x :
  merged acc v = Ok d → acc !! k = Some x → d !! k = Some x.
Proof.
  intros [(sub & -> & Hdisj & ->) | [-> ->]]%merged_Ok Hk; [|done].
  rewrite lookup_union_r; [done|].
  apply not_elem_of_dom. intros Hin.
  assert (Hboth : k ∈ dom acc ∩ dom sub)
    by (apply elem_of_intersection; split; [by apply elem_of_dom|done]).
  rewrite Hdisj in Hboth. by apply not_elem_of_empty in Hboth.
Qed.

(** An entry of the accumulated dictionary stays as it is while the items
    that remain have other keys. *)
Lemma evaluate_loop_keeps mark_safe store instance items :
  ∀ acc w d w' k x,
    eval_ready w store instance →
    evaluate_loop mark_safe store items acc w = (Ok d, w') →
    acc !! k = Some x →
    k ∉ items.*1 →
    d !! k = Some x.
Proof.
  induction items as [|[k0 it0] rest IH]; intros acc w d w' k x Hready Hrun Hk Hnot.
  - cbn in Hrun. unfold ret in Hrun. by simplify_eq.
  - rewrite (evaluate_loop_cons _ _ instance) in Hrun by done.
    apply not_elem_of_cons in Hnot as [Hne Hnot]. cbn in Hne.
    destruct (getvalue mark_safe it0 instance w) as [[v|e] w1] eqn:Hg.
    + pose proof (eval_ready_getvalue _ _ _ _ _ _ _ Hready Hg) as Hready1.
      destruct (item_concat it0).
      * destruct (merged acc v) as [d1|] eqn:Hm; [|done].
        eapply IH; eauto using merged_keeps.
      * eapply IH; eauto. by rewrite lookup_insert_ne.
    + pose proof (eval_ready_getvalue _ _ _ _ _ _ _ Hready Hg) as Hready1.
      destruct (skipped e); [|done]. eapply IH; eauto.
Qed.

Lemma cache_entry_set_cache o d id :
  class_lookup (o_class o) INFO_ITEM_CACHE_ATTRIBUTE_NAME ≠ Some CProperty →
  cache_entry (set_cache o d) id = d !! KFunc id.
Proof.
  intros Hc. unfold cache_entry. by rewrite normal_lookup_set_cache.
Qed.

(** [getvalue] leaves the entries of the instance alone, and the values
    cached for the other functions. *)
Lemma getvalue_cache_entry mark_safe self instance w r w1 o :
  getvalue mark_safe self instance w = (r, w1) →
  heap w !! instance = Some o →
  ∃ o1, heap w1 !! instance = Some o1
        ∧ o_items o1 = o_items o
        ∧ ∀ id, id ≠ f_id (item_func self) → cache_entry o1 id = cache_entry o id.
Proof.
  rewrite getvalue_eq. unfold getvalue_cases. intros H Ho. rewrite Ho in H.
  destruct (info_attribute_options (item_func self)) as [opts|]; [|simplify_eq; eauto].
  destruct (predicate_check opts self (o_items o)); [|simplify_eq; eauto].
  destruct (_cache opts); [|simplify_eq; eauto].
  destruct (normal_lookup o INFO_ITEM_CACHE_ATTRIBUTE_NAME)
    as [[[[| | | |d]| |]|]|] eqn:Hn; try (simplify_eq; by eauto).
  - assert (Hc := normal_lookup_not_property _ _ _ (or_introl Hn)).
    destruct (d !! KFunc (f_id (item_func self))); [simplify_eq; eauto|].
    destruct (computed mark_safe opts self (o_items o)); simplify_eq; [|eauto].
    eexists. cbn. rewrite lookup_insert_eq. split; [done|]. split; [done|].
    intros id Hid. rewrite cache_entry_set_cache by done.
    unfold cache_entry. rewrite Hn. rewrite lookup_insert_ne; [done|congruence].
  - assert (Hc := normal_lookup_not_property _ _ (AVal VNone) (or_intror Hn)).
    destruct (computed mark_safe opts self (o_items o)); simplify_eq;
      eexists; cbn; rewrite lookup_insert_eq; (split; [done|]); (split; [done|]);
      intros id Hid; rewrite cache_entry_set_cache by done;
      unfold cache_entry; rewrite Hn.
    + rewrite lookup_singleton_ne; [done|congruence].
    + done.
Qed.

(** What [getvalue] returns for an item that passes its predicate, whose
    function returns, and for which nothing is cached. *)
Lemma getvalue_computes mark_safe self opts instance w o v r w1 :
  info_attribute_options (item_func self) = Some opts →
  heap w !! instance = Some o →
  predicate_check opts self (o_items o) = Ok tt →
  processed self (o_items o) = Ok v →
  cache_entry o (f_id (item_func self)) = None →
  getvalue mark_safe self instance w = (r, w1) →
  r = Ok (marked mark_safe opts v) ∨ r = Raise TypeError.
Proof.
  intros Hopts Ho Hp Hv Hc. rewrite getvalue_eq. unfold getvalue_cases.
  rewrite Hopts, Ho, Hp. unfold computed. rewrite Hv.
  unfold cache_entry in Hc.
  destruct (_cache opts); [|intros; simplify_eq; by left].
  destruct (normal_lookup o INFO_ITEM_CACHE_ATTRIBUTE_NAME)
    as [[[[| | | |d]| |]|]|]; try (intros; simplify_eq; by eauto).
  rewrite Hc. intros; simplify_eq; by left.
Qed.

Lemma wf_registry_tail x reg : wf_registry (x :: reg) → wf_registry reg.
Proof.
  intros [Hnd Hit Hid]. split.
  - rewrite fmap_cons in Hnd. by apply NoDup_cons in Hnd as [_ ?].
  - intros k it Hin. apply Hit. by right.
  - intros k1 it1 k2 it2 H1 H2. eapply Hid; by right.
Qed.

Lemma wf_registry_head_fresh k0 it0 reg k it :
  wf_registry ((k0, it0) :: reg) → (k, it) ∈ reg →
  f_id (item_func it) ≠ f_id (item_func it0).
Proof.
  intros [Hnd Hit Hid] Hin Heq.
  assert (Hf : item_func it = item_func it0)
    by (eapply Hid; [by right | by left | done]).
  destruct (Hit k it) as (o & Ho & Hi & Hk); [by right|].
  destruct (Hit k0 it0) as (o0 & Ho0 & Hi0 & Hk0); [by left|].
  rewrite Hf in Ho, Hi.
  assert (it = it0) as -> by congruence.
  assert (k = k0) as -> by congruence.
  rewrite fmap_cons in Hnd. apply NoDup_cons in Hnd as [Hnot _]. apply Hnot.
  by apply (list_elem_of_fmap_2 fst) in Hin.
Qed.

(** The loop of [evaluate], for the non-concat items that remain:
    each one that passes its predicate and whose function returns a value
    ends up in the result under its key. *)
Lemma evaluate_loop_populates mark_safe store instance ctx items :
  ∀ acc w d w' o,
    eval_ready w store instance →
    heap w !! instance = Some o →
    o_items o = ctx →
    wf_registry items →
    cache_clean o items →
    evaluate_loop mark_safe store items acc w = (Ok d, w') →
    ∀ k f opts v,
      (k, InfoStoreItem f) ∈ items →
      info_attribute_options f = Some opts →
      predicate_check opts (InfoStoreItem f) ctx = Ok tt →
      f_call f ctx = Ok v →
      d !! k = Some (marked mark_safe opts v).
Proof.
  induction items as [|[k0 it0] rest IH];
    intros acc w d w' o Hready Ho Hctx Hwf Hclean Hrun k f opts v Hin Hopts Hp Hv.
  { by apply elem_of_nil in Hin. }
  rewrite (evaluate_loop_cons _ _ instance) in Hrun by done.
  destruct (getvalue mark_safe it0 instance w) as [r w1] eqn:Hg.
  pose proof (eval_ready_getvalue _ _ _ _ _ _ _ Hready Hg) as Hready1.
  destruct (getvalue_cache_entry _ _ _ _ _ _ _ Hg Ho) as (o1 & Ho1 & Hitems1 & Hcache1).
  assert (Hclean1 : cache_clean o1 rest).
  { intros k' it' Hin'. rewrite Hcache1.
    - apply (Hclean k' it'). by right.
    - by eapply wf_registry_head_fresh. }
  assert (Hwf1 := wf_registry_tail _ _ Hwf).
  apply elem_of_cons in Hin as [Hhead | Hin].
  - (* the item is the one being processed *)
    injection Hhead as <- <-.
    assert (Hnot : k ∉ rest.*1).
    { destruct Hwf as [Hnd _ _]. rewrite fmap_cons in Hnd.
      by apply NoDup_cons in Hnd as [? _]. }
    destruct (getvalue_computes mark_safe (InfoStoreItem f) opts instance w o v r w1)
      as [-> | ->]; try done; try (by rewrite Hctx).
    + by apply (Hclean k (InfoStoreItem f)); left.
    + cbn in Hrun. eapply evaluate_loop_keeps; eauto. apply lookup_insert_eq.
  - (* the item comes later *)
    destruct r as [v0|e].
    + destruct (item_concat it0).
      * destruct (merged acc v0) as [d1|]; [|done].
        eapply (IH d1 w1 d w' o1); eauto; congruence.
      * eapply (IH _ w1 d w' o1); eauto; congruence.
    + destruct (skipped e); [|done].
      eapply (IH _ w1 d w' o1); eauto; congruence.
Qed.

(** ** Attribute assignment and [FrozenMeta] *)

Lemma getattr_world self name w r w' : getattr self name w = (r, w') → w' = w.
Proof.
  unfold getattr, InfoDict___getattr__, try_except, dict___getitem__, bind, get_obj, ret, raise.
  intros H. repeat case_match; by simplify_eq.
Qed.

Lemma getattr_default_world self name x w r w' :
  getattr_default self name x w = (r, w') → w' = w.
Proof.
  unfold getattr_default, try_except.
  destruct (getattr self name w) as [[y|e] w1] eqn:Hg; apply getattr_world in Hg as ->.
  - by intros [= _ <-].
  - unfold ret. case_bool_decide; by intros [= _ <-].
Qed.

Lemma getattr_normal self name w o x :
  heap w !! self = Some o → normal_lookup o name = Some x →
  getattr self name w = (Ok x, w).
Proof.
  intros Ho Hx. unfold getattr. rewrite (bind_Ok _ _ w o w) by by apply get_obj_Some.
  by rewrite Hx.
Qed.

Lemma object_setattr_eq self name a w o :
  heap w !! self = Some o →
  object___setattr__ self name a w =
    match class_lookup (o_class o) name with
    | Some CProperty => (Raise AttributeError, w)
    | _ => (Ok tt, with_obj self (set_attr o name a) w)
    end.
Proof.
  intros Ho. unfold object___setattr__.
  rewrite (bind_Ok _ _ w o w) by by apply get_obj_Some.
  by destruct (class_lookup (o_class o) name) as [[]|].
Qed.

Lemma FrozenMeta_setattr_inv depth self name a w w' :
  FrozenMeta_setattr depth self name a w = (Ok tt, w') →
  ∃ o, heap w !! self = Some o ∧ w' = with_obj self (set_attr o name a) w.
Proof.
  revert w. induction depth as [|depth IH]; intros w; cbn [FrozenMeta_setattr]; [done|].
  unfold bind at 1.
  destruct (getattr_default _ _ _ w) as [[x|e] w1] eqn:Hg; [|done].
  apply getattr_default_world in Hg as ->.
  destruct (found_truthy x); [done|].
  unfold bind at 1, get_obj.
  destruct (heap w !! self) as [o|] eqn:Ho; [|done].
  intros H. exists o. split; [done|].
  assert (Hobj : object___setattr__ self name a w = (Ok (), w') →
                 w' = with_obj self (set_attr o name a) w).
  { rewrite (object_setattr_eq _ _ _ _ o Ho).
    destruct (class_lookup (o_class o) name) as [[]|]; by intros [= <-]. }
  destruct (class_base (o_class o) ≫= _) as [[[]| | | | |]|]; try by apply Hobj.
  apply IH in H as (o' & Ho' & ->). by simplify_eq.
Qed.

Lemma setattr_stmt_inv self name a w w' :
  setattr_stmt self name a w = (Ok tt, w') →
  ∃ o, heap w !! self = Some o ∧ w' = with_obj self (set_attr o name a) w.
Proof.
  unfold setattr_stmt, bind at 1, get_obj.
  destruct (heap w !! self) as [o|] eqn:Ho; [|done].
  intros H. exists o. split; [done|].
  assert (Hobj : object___setattr__ self name a w = (Ok (), w') →
                 w' = with_obj self (set_attr o name a) w).
  { rewrite (object_setattr_eq _ _ _ _ o Ho).
    destruct (class_lookup (o_class o) name) as [[]|]; by intros [= <-]. }
  destruct (class_lookup (o_class o) "__setattr__") as [[[]| | | | |]|]; try by apply Hobj.
  apply FrozenMeta_setattr_inv in H as (o' & Ho' & ->). by simplify_eq.
Qed.

(** Once [_frozen] is true on an object, [FrozenMeta.setattr] refuses
    every assignment. *)
Lemma FrozenMeta_setattr_frozen depth self name a w o x :
  heap w !! self = Some o →
  normal_lookup o "_frozen" = Some x →
  found_truthy x = true →
  FrozenMeta_setattr depth self name a w = (Raise RuntimeError, w).
Proof.
  intros Ho Hx Ht. destruct depth; [done|]. cbn [FrozenMeta_setattr].
  unfold bind at 1, getattr_default, try_except.
  rewrite (getattr_normal _ _ _ o x Ho Hx). by rewrite Ht.
Qed.

(** While [_frozen] is false, the assignment goes to [object.__setattr__]
    when the base of the class has not the frozen setter itself. *)
Lemma FrozenMeta_setattr_open depth self name a w o x :
  heap w !! self = Some o →
  normal_lookup o "_frozen" = Some x →
  found_truthy x = false →
  (class_base (o_class o) ≫= λ b, class_lookup b "__setattr__") = None →
  FrozenMeta_setattr (S depth) self name a w = object___setattr__ self name a w.
Proof.
  intros Ho Hx Ht Hb. cbn [FrozenMeta_setattr].
  unfold bind at 1, getattr_default, try_except.
  rewrite (getattr_normal _ _ _ o x Ho Hx). rewrite Ht.
  rewrite (bind_Ok _ _ w o w) by by apply get_obj_Some. by rewrite Hb.
Qed.

(** Below a class that has the frozen setter already, the setter calls
    itself until the recursion limit is reached: the assignment raises
    [RuntimeError], frozen or not. *)
Lemma FrozenMeta_setattr_recursion depth self name a w o x :
  heap w !! self = Some o →
  normal_lookup o "_frozen" = Some x →
  (class_base (o_class o) ≫= λ b, class_lookup b "__setattr__")
    = Some (CMethod FrozenMeta_setattr_m) →
  FrozenMeta_setattr depth self name a w = (Raise RuntimeError, w).
Proof.
  intros Ho Hx Hb. induction depth as [|depth IH]; [done|]. cbn [FrozenMeta_setattr].
  unfold bind at 1, getattr_default, try_except.
  rewrite (getattr_normal _ _ _ o x Ho Hx).
  destruct (found_truthy x); [done|].
  rewrite (bind_Ok _ _ w o w) by by apply get_obj_Some. by rewrite Hb.
Qed.

Lemma InstanceInfoStore_lookup_setattr :
  class_lookup InstanceInfoStore "__setattr__" = Some (CMethod FrozenMeta_setattr_m).
Proof. vm_compute. reflexivity. Qed.

Lemma InstanceInfoStore_lookup_frozen :
  class_lookup InstanceInfoStore "_frozen" = Some (CBool false).
Proof. vm_compute. reflexivity. Qed.

Lemma InstanceInfoStore_lookup_evaluate :
  class_lookup InstanceInfoStore "evaluate" = Some (CMethod InstanceInfoStore_evaluate_m).
Proof. vm_compute. reflexivity. Qed.

Lemma InstanceInfoStore_lookup_private name :
  name ∈ ["_instance"; "_registered_items"] →
  class_lookup InstanceInfoStore name = None.
Proof.
  intros H. repeat (apply elem_of_cons in H as [-> | H]; [by vm_compute|]).
  by apply elem_of_nil in H.
Qed.

Lemma InstanceInfoStore_normal_lookup_frozen o :
  o_class o = InstanceInfoStore →
  normal_lookup o "_frozen" =
    Some (match o_dict o !! "_frozen" with
          | Some a => FAttr a
          | None => FClass (CBool false)
          end).
Proof.
  intros Hc. unfold normal_lookup. rewrite Hc, InstanceInfoStore_lookup_frozen.
  by destruct (o_dict o !! "_frozen").
Qed.

(** An [InstanceInfoStore] object that has no [_frozen] of its own yet
    accepts the assignment of any attribute that is not a property. *)
Lemma InstanceInfoStore_setattr_unfrozen store name a w o :
  heap w !! store = Some o →
  o_class o = InstanceInfoStore →
  o_dict o !! "_frozen" = None →
  class_lookup InstanceInfoStore name ≠ Some CProperty →
  setattr_stmt store name a w = (Ok tt, with_obj store (set_attr o name a) w).
Proof.
  intros Ho Hc Hf Hp. unfold setattr_stmt.
  rewrite (bind_Ok _ _ w o w) by by apply get_obj_Some.
  rewrite Hc, InstanceInfoStore_lookup_setattr.
  change recursion_limit with (S 999).
  rewrite (FrozenMeta_setattr_open _ _ _ _ _ o (FClass (CBool false))); try done.
  - rewrite (object_setattr_eq _ _ _ _ o Ho). rewrite Hc.
    by destruct (class_lookup InstanceInfoStore name) as [[]|].
  - rewrite InstanceInfoStore_normal_lookup_frozen by done. by rewrite Hf.
  - by rewrite Hc.
Qed.

(** An [InstanceInfoStore] object whose [_frozen] is true refuses every
    assignment and is left as it is. *)
Lemma InstanceInfoStore_setattr_frozen store name a w o x :
  heap w !! store = Some o →
  o_class o = InstanceInfoStore →
  o_dict o !! "_frozen" = Some x →
  found_truthy (FAttr x) = true →
  setattr_stmt store name a w = (Raise RuntimeError, w).
Proof.
  intros Ho Hc Hf Ht. unfold setattr_stmt.
  rewrite (bind_Ok _ _ w o w) by by apply get_obj_Some.
  rewrite Hc, InstanceInfoStore_lookup_setattr.
  apply (FrozenMeta_setattr_frozen _ _ _ _ _ o (FAttr x)); try done.
  rewrite InstanceInfoStore_normal_lookup_frozen by done. by rewrite Hf.
Qed.

Lemma fresh_heap_None (w : world) : heap w !! fresh (dom (heap w)) = None.
Proof. apply not_elem_of_dom, is_fresh. Qed.

Ltac iis_side :=
  first [ done
        | cbn; apply lookup_insert_eq
        | by rewrite InstanceInfoStore_lookup_private by set_solver
        | by rewrite InstanceInfoStore_lookup_frozen ].

(** [InstanceInfoStore(instance, reg)] always returns: the new store holds
    the instance and the registry, and is frozen. *)
Lemma InstanceInfoStore_new_eq instance reg w :
  InstanceInfoStore_new instance (Some reg) w =
    (Ok (fresh (dom (heap w))),
     with_obj (fresh (dom (heap w))) (instance_store instance reg) w).
Proof.
  set (store := fresh (dom (heap w))).
  unfold InstanceInfoStore_new, FrozenMeta___call__, type___call__.
  set (o0 := {| o_class := InstanceInfoStore; o_dict := ∅; o_items := ∅ |}).
  assert (Halloc : alloc InstanceInfoStore w = (Ok store, with_obj store o0 w)) by done.
  set (r := match reg with x :: r => x :: r | [] => [] end).
  assert (Hr : r = reg) by by destruct reg.
  set (o1 := set_attr o0 "_instance" (ARef instance)).
  set (o2 := set_attr o1 "_registered_items" (ARegistry r)).
  assert (Hinit : InstanceInfoStore___init__ store instance (Some reg) (with_obj store o0 w)
                  = (Ok tt, with_obj store o2 w)).
  { unfold InstanceInfoStore___init__.
    rewrite (bind_Ok _ _ _ tt (with_obj store o1 (with_obj store o0 w))).
    2:{ apply InstanceInfoStore_setattr_unfrozen; iis_side. }
    rewrite (InstanceInfoStore_setattr_unfrozen _ _ _ _ o1); [|iis_side..].
    unfold with_obj; cbn. by rewrite !insert_insert_eq. }
  rewrite (bind_Ok _ _ w store (with_obj store o2 w)).
  2:{ rewrite (bind_Ok _ _ _ _ _ Halloc). by rewrite (bind_Ok _ _ _ _ _ Hinit). }
  rewrite (bind_Ok _ _ _ tt (with_obj store (instance_store instance reg) w)); [done|].
  rewrite (InstanceInfoStore_setattr_unfrozen _ _ _ _ o2); [|iis_side..].
  unfold with_obj, instance_store, o2, o1, o0, set_attr; cbn.
  by rewrite insert_insert_eq, Hr.
Qed.

(** The store [InstanceInfoStore(...)] returns is frozen: assignments
    made by [__init__] went through, every later assignment raises
    [RuntimeError] and changes nothing. *)
Lemma InstanceInfoStore_frozen_after_init instance reg w store w1 :
  InstanceInfoStore_new instance (Some reg) w = (Ok store, w1) →
  heap w1 !! store = Some (instance_store instance reg)
  ∧ ∀ name a, setattr_stmt store name a w1 = (Raise RuntimeError, w1).
Proof.
  rewrite InstanceInfoStore_new_eq. intros [= <- <-].
  assert (Hs : heap (with_obj (fresh (dom (heap w))) (instance_store instance reg) w)
               !! fresh (dom (heap w)) = Some (instance_store instance reg))
    by apply lookup_insert_eq.
  split; [done|]. intros name a.
  by apply (InstanceInfoStore_setattr_frozen _ _ _ _ _ (AVal (VBool true)) Hs).
Qed.

(** ** [InfoDict.__init__] *)

Lemma dict_update_eq self v w o :
  heap w !! self = Some o →
  dict_update self v w =
    match update_items (o_items o) v with
    | Ok d => (Ok tt, with_obj self (with_items o d) w)
    | Raise e => (Raise e, w)
    end.
Proof.
  intros Ho. unfold dict_update. rewrite (bind_Ok _ _ w o w) by by apply get_obj_Some.
  unfold bind, lift. by destruct (update_items (o_items o) v).
Qed.

Lemma dict_init_inv self args kwargs w w1 o :
  heap w !! self = Some o →
  o_items o = ∅ →
  dict___init__ self args kwargs w = (Ok tt, w1) →
  ∃ ctx, dict_args args kwargs = Ok ctx ∧ w1 = with_obj self (with_items o ctx) w.
Proof.
  intros Ho Hempty. unfold dict___init__, dict_args.
  destruct args as [|a [|??]]; [| |done].
  - rewrite (dict_update_eq self (VDict (kmap KStr kwargs)) w o Ho), Hempty.
    destruct (update_items ∅ _) as [d|]; [|done]. intros [= <-]. eauto.
  - unfold bind at 1. rewrite (dict_update_eq self a w o Ho), Hempty.
    destruct (update_items ∅ a) as [d|]; [|done].
    rewrite (dict_update_eq self (VDict (kmap KStr kwargs)) _ (with_items o d))
      by apply lookup_insert_eq.
    cbn [o_items with_items].
    destruct (update_items d (VDict (kmap KStr kwargs))) as [d'|]; [|done]. intros [= <-].
    exists d'. split; [done|]. unfold with_obj, with_items; cbn.
    by rewrite insert_insert_eq.
Qed.

Lemma evaluate_loop_instance mark_safe store instance items :
  ∀ acc w r w' o,
    eval_ready w store instance →
    heap w !! instance = Some o →
    evaluate_loop mark_safe store items acc w = (r, w') →
    ∃ o', heap w' !! instance = Some o'
          ∧ o_class o' = o_class o
          ∧ o_items o' = o_items o
          ∧ ∀ name, name ≠ INFO_ITEM_CACHE_ATTRIBUTE_NAME →
              o_dict o' !! name = o_dict o !! name.
Proof.
  induction items as [|[k0 it0] rest IH]; intros acc w r w' o Hready Ho Hrun.
  { cbn in Hrun. unfold ret in Hrun. simplify_eq. eauto. }
  rewrite (evaluate_loop_cons _ _ instance) in Hrun by done.
  destruct (getvalue mark_safe it0 instance w) as [r0 w1] eqn:Hg.
  pose proof (eval_ready_getvalue _ _ _ _ _ _ _ Hready Hg) as Hready1.
  destruct (getvalue_instance _ _ _ _ _ _ _ Hg Ho) as (o1 & Ho1 & Hc1 & Hi1 & Hd1).
  assert (Hstep : ∀ acc1, evaluate_loop mark_safe store rest acc1 w1 = (r, w') →
    ∃ o', heap w' !! instance = Some o' ∧ o_class o' = o_class o
          ∧ o_items o' = o_items o
          ∧ ∀ name, name ≠ INFO_ITEM_CACHE_ATTRIBUTE_NAME →
              o_dict o' !! name = o_dict o !! name).
  { intros acc1 Hrest.
    destruct (IH _ _ _ _ _ Hready1 Ho1 Hrest) as (o' & Ho' & Hc' & Hi' & Hd').
    exists o'. repeat split; try congruence.
    intros name Hn. rewrite Hd' by done. by apply Hd1. }
  assert (Hstop : (r, w') = (r, w1) →
    ∃ o', heap w' !! instance = Some o' ∧ o_class o' = o_class o
          ∧ o_items o' = o_items o
          ∧ ∀ name, name ≠ INFO_ITEM_CACHE_ATTRIBUTE_NAME →
              o_dict o' !! name = o_dict o !! name).
  { intros [= ->]. eauto. }
  destruct r0 as [v|e].
  - destruct (item_concat it0); [|by eapply Hstep].
    destruct (merged acc v); [by eapply Hstep|]. simplify_eq. by apply Hstop.
  - destruct (skipped e); [by eapply Hstep|]. simplify_eq. by apply Hstop.
Qed.

Lemma getattr_no_instance_attr self name w o x w' :
  heap w !! self = Some o →
  o_dict o !! name = None →
  getattr self name w = (Ok x, w') →
  (∃ c, x = FClass c) ∨ (∃ v, x = FAttr (AVal v)).
Proof.
  intros Ho Hd. unfold getattr. rewrite (bind_Ok _ _ w o w) by by apply get_obj_Some.
  unfold normal_lookup. rewrite Hd.
  destruct (class_lookup (o_class o) name) as [c|] eqn:Hc.
  - destruct c; cbn; unfold ret; intros [= <- <-]; eauto.
  - cbn. destruct (class_lookup (o_class o) "__getattr__") as [[[]| | | | |]|]; try done.
    unfold bind. destruct (InfoDict___getattr__ self name w) as [[v|] ?]; [|done].
    intros [= <- <-]. eauto.
Qed.

Lemma call_evaluate_not_store mark_safe x w :
  (∃ c, x = FClass c) ∨ (∃ v, x = FAttr (AVal v)) →
  call_evaluate mark_safe x w = (Raise AttributeError, w).
Proof. by intros [[c ->] | [v ->]]. Qed.

Lemma instance_store_lookup instance reg name a :
  (<["_frozen" := AVal (VBool true)]>
     (<["_registered_items" := ARegistry reg]>
        (<["_instance" := ARef instance]> (∅ : gmap string attr)))) !! name = Some a →
  class_lookup InstanceInfoStore name ≠ Some CProperty →
  normal_lookup (instance_store instance reg) name = Some (FAttr a).
Proof.
  intros Ha Hc. unfold normal_lookup. cbn [instance_store o_class o_dict]. rewrite Ha.
  by destruct (class_lookup InstanceInfoStore name) as [[]|].
Qed.

(** [self.info_store.evaluate()] on a new instance: a store is built for
    the instance and kept under [_instance_info_store], then the loop runs
    over the registry of the class. *)
Lemma info_store_evaluate_inv mark_safe self reg w o d w' :
  heap w !! self = Some o →
  o_dict o = ∅ →
  class_lookup (o_class o) "info_store" = Some (CInfoStore reg) →
  (store <- InfoDict_info_store self ;; call_evaluate mark_safe store) w = (Ok d, w') →
  let store := fresh (dom (heap w)) in
  store ≠ self
  ∧ evaluate_loop mark_safe store reg ∅
      (with_obj self (set_attr o "_instance_info_store" (ARef store))
         (with_obj store (instance_store self reg) w)) = (Ok d, w')
  ∧ eval_ready
      (with_obj self (set_attr o "_instance_info_store" (ARef store))
         (with_obj store (instance_store self reg) w)) store self.
Proof.
  intros Ho Hdict Hcls Hrun store.
  assert (Hne : store ≠ self).
  { intros Heq. pose proof (fresh_heap_None w) as Hf. fold store in Hf. congruence. }
  split; [done|].
  apply bind_inv_Ok in Hrun as (x & w2 & Hget & Heval).
  unfold InfoDict_info_store in Hget.
  rewrite (bind_Ok _ _ w (FClass (CInfoStore reg)) w) in Hget.
  2:{ apply (getattr_normal _ _ _ o); [done|]. unfold normal_lookup.
      by rewrite Hcls, Hdict, lookup_empty. }
  unfold InfoStore___get__, try_except in Hget.
  destruct (getattr self "_instance_info_store" w) as [[y|e] w0] eqn:Hattr.
  { pose proof (getattr_world _ _ _ _ _ Hattr) as ->. simplify_eq.
    rewrite call_evaluate_not_store in Heval; [done|].
    eapply getattr_no_instance_attr; eauto. by rewrite Hdict, lookup_empty. }
  pose proof (getattr_world _ _ _ _ _ Hattr) as ->.
  case_bool_decide; [|done]. subst e.
  unfold InfoStore__get_or_create_instance_info_store in Hget.
  rewrite (bind_Ok _ _ _ _ _ (InstanceInfoStore_new_eq self reg w)) in Hget.
  fold store in Hget.
  apply bind_inv_Ok in Hget as ([] & w3 & Hset & Hret).
  unfold ret in Hret. injection Hret as <- <-.
  apply setattr_stmt_inv in Hset as (o' & Ho' & ->).
  cbn in Ho'. rewrite lookup_insert_ne in Ho' by done. simplify_eq.
  set (w2 := with_obj self _ _) in *.
  assert (Hstore : heap w2 !! store = Some (instance_store self reg)).
  { unfold w2; cbn. rewrite lookup_insert_ne by done. apply lookup_insert_eq. }
  assert (Hself : heap w2 !! self = Some (set_attr o "_instance_info_store" (ARef store))).
  { unfold w2; cbn. apply lookup_insert_eq. }
  split.
  - unfold call_evaluate in Heval.
    rewrite (bind_Ok _ _ w2 _ w2 (get_obj_Some _ _ _ Hstore)) in Heval.
    cbn [instance_store o_class] in Heval.
    rewrite InstanceInfoStore_lookup_evaluate in Heval.
    unfold InstanceInfoStore_evaluate, InstanceInfoStore_iteritems in Heval.
    rewrite (bind_Ok _ _ w2 reg w2) in Heval; [done|].
    rewrite (bind_Ok _ _ w2 (FAttr (ARegistry reg)) w2); [done|].
    apply (getattr_normal _ _ _ _ _ Hstore).
    apply instance_store_lookup; [done|].
    by rewrite InstanceInfoStore_lookup_private by set_solver.
  - split; [done|]. split; [eauto|].
    exists (instance_store self reg). split; [done|].
    apply instance_store_lookup; [done|].
    by rewrite InstanceInfoStore_lookup_private by set_solver.
Qed.

Lemma cache_entry_no_attr o id :
  o_dict o !! INFO_ITEM_CACHE_ATTRIBUTE_NAME = None → cache_entry o id = None.
Proof.
  intros Hd. unfold cache_entry, normal_lookup. rewrite Hd.
  by destruct (class_lookup (o_class o) INFO_ITEM_CACHE_ATTRIBUTE_NAME) as [[]|].
Qed.

(** What the constructor of a class deriving from [InfoDict] leaves
    behind when it returns. *)
Lemma InfoDict_new_inv mark_safe cls reg args kwargs w self w' :
  class_lookup cls "info_store" = Some (CInfoStore reg) →
  InfoDict_new mark_safe cls args kwargs w = (Ok self, w') →
  ∃ o ctx d store w1 w2,
    heap w' !! self = Some o
    ∧ dict_args args kwargs = Ok ctx
    ∧ o_items o = d ∪ ctx
    ∧ o_class o = cls
    ∧ evaluate_loop mark_safe store reg ∅ w1 = (Ok d, w2)
    ∧ eval_ready w1 store self
    ∧ heap w1 !! self
      = Some (set_attr (with_items {| o_class := cls; o_dict := ∅; o_items := ∅ |} ctx)
                "_instance_info_store" (ARef store)).
Proof.
  intros Hcls Hnew.
  unfold InfoDict_new, FrozenMeta___call__ in Hnew.
  apply bind_inv_Ok in Hnew as (self0 & w3 & Hcall & Hfrozen).
  apply bind_inv_Ok in Hfrozen as ([] & w4 & Hset & Hret).
  unfold ret in Hret. injection Hret as -> ->.
  unfold type___call__ in Hcall.
  apply bind_inv_Ok in Hcall as (l & w0 & Halloc & Hinit).
  apply bind_inv_Ok in Hinit as ([] & w5 & Hinit & Hret).
  unfold ret in Hret. injection Hret as -> ->.
  unfold alloc in Halloc. injection Halloc as <- <-.
  set (self := fresh (dom (heap w))) in *.
  set (o0 := {| o_class := cls; o_dict := ∅; o_items := ∅ |}) in *.
  unfold InfoDict___init__ in Hinit.
  apply bind_inv_Ok in Hinit as ([] & w1 & Hdict & Hrest).
  apply (dict_init_inv _ _ _ _ _ o0) in Hdict as (ctx & Hctx & ->);
    [|apply lookup_insert_eq|done].
  set (o1 := with_items o0 ctx) in *.
  set (w1 := with_obj self o1 _) in *.
  assert (Ho1 : heap w1 !! self = Some o1) by apply lookup_insert_eq.
  apply bind_inv_Ok in Hrest as (x & w2 & Hstore & Hrest).
  apply bind_inv_Ok in Hrest as (d & w2' & Heval & Hupd).
  assert (Hboth : (store <- InfoDict_info_store self ;;
                   call_evaluate mark_safe store) w1 = (Ok d, w2')).
  { by rewrite (bind_Ok _ _ _ _ _ Hstore). }
  apply (info_store_evaluate_inv _ _ reg _ o1) in Hboth as (Hne & Hloop & Hready);
    [|done..].
  set (store := fresh (dom (heap w1))) in *.
  set (wl := with_obj self (set_attr o1 _ _) _) in *.
  assert (Hself : heap wl !! self = Some (set_attr o1 "_instance_info_store" (ARef store)))
    by apply lookup_insert_eq.
  destruct (evaluate_loop_instance _ _ _ _ _ _ _ _ _ Hready Hself Hloop)
    as (o2 & Ho2 & Hc2 & Hi2 & _).
  rewrite (dict_update_eq _ _ _ o2 Ho2) in Hupd. cbn in Hupd.
  injection Hupd as <-.
  apply setattr_stmt_inv in Hset as (o3 & Ho3 & ->).
  cbn in Ho3. rewrite lookup_insert_eq in Ho3. injection Ho3 as <-.
  eexists _, ctx, d, store, wl, w2'. split; [apply lookup_insert_eq|].
  split; [done|]. split; [by cbn; rewrite Hi2|]. split; [by cbn; rewrite Hc2|].
  done.
Qed.

(** C1 (amended): when the constructor of a class deriving from
    [InfoDict] returns, the instance maps the declared key of every
    registered non-concat item whose predicate passes and whose method
    returns a value to that value, marked safe when the item asks for it;
    such an entry replaces the one the constructor arguments gave for the
    same key. *)
Theorem InfoDict_init_populates (mark_safe : value → value) (cls : pyclass)
    (reg : registry) (args : list value) (kwargs : gmap string value)
    (w w' : world) (self : loc) :
  class_lookup cls "info_store" = Some (CInfoStore reg) →
  wf_registry reg →
  InfoDict_new mark_safe cls args kwargs w = (Ok self, w') →
  ∃ o ctx,
    heap w' !! self = Some o
    ∧ dict_args args kwargs = Ok ctx
    ∧ ∀ k f opts v,
        (k, InfoStoreItem f) ∈ reg →
        info_attribute_options f = Some opts →
        predicate_check opts (InfoStoreItem f) ctx = Ok tt →
        f_call f ctx = Ok v →
        k = _key opts ∧ o_items o !! k = Some (marked mark_safe opts v).
Proof.
  intros Hcls Hwf Hnew.
  destruct (InfoDict_new_inv _ _ _ _ _ _ _ _ Hcls Hnew)
    as (o & ctx & d & store & w1 & w2 & Ho & Hctx & Hitems & _ & Hloop & Hready & Hself).
  exists o, ctx. split; [done|]. split; [done|].
  intros k f opts v Hin Hopts Hp Hv. split.
  - destruct (wf_items _ Hwf k _ Hin) as (o' & Ho' & _ & Hk).
    cbn in Ho', Hk. unfold item_option in Hk. cbn in Hk. rewrite Hopts in Hk. congruence.
  - rewrite Hitems. apply lookup_union_Some_l.
    eapply (evaluate_loop_populates mark_safe store self ctx reg); eauto.
    intros k' it' _. by apply cache_entry_no_attr.
Qed.

(** An item whose predicate fails on the entries of the instance adds
    nothing to the loop, wherever it stands in the registry. *)
Lemma evaluate_loop_skips_failed mark_safe store instance ctx k it opts p r r2 :
  info_attribute_options (item_func it) = Some opts →
  _predicate opts = Some p →
  p (view_of it) ctx = Ok r →
  truthy r = false →
  ∀ r1 acc w o,
    eval_ready w store instance →
    heap w !! instance = Some o →
    o_items o = ctx →
    evaluate_loop mark_safe store (r1 ++ (k, it) :: r2) acc w
    = evaluate_loop mark_safe store (r1 ++ r2) acc w.
Proof.
  intros Hopts Hp Hr Ht.
  induction r1 as [|[k0 it0] r1 IH]; intros acc w o Hready Ho Hctx.
  - cbn [app]. rewrite (evaluate_loop_cons _ _ instance) by done.
    rewrite (getvalue_predicate_failure _ _ opts p _ _ o r); try done.
    by rewrite Hctx.
  - cbn [app]. rewrite !(evaluate_loop_cons _ _ instance) by done.
    destruct (getvalue mark_safe it0 instance w) as [r0 w1] eqn:Hg.
    pose proof (eval_ready_getvalue _ _ _ _ _ _ _ Hready Hg) as Hready1.
    destruct (getvalue_instance _ _ _ _ _ _ _ Hg Ho) as (o1 & Ho1 & _ & Hi1 & _).
    assert (Hctx1 : o_items o1 = ctx) by congruence.
    destruct r0 as [v|e].
    + destruct (item_concat it0); [|by eapply IH].
      destruct (merged acc v); [by eapply IH|done].
    + destruct (skipped e); [by eapply IH|done].
Qed.

(** C4 (amended): when the predicate of a registered item answers a false
    value for the instance, [getvalue] raises
    [InfoStoreItemPredicateFailure] and changes nothing, the wrapped
    function is not called; the loop of [evaluate] gives what it gives
    without that item in the registry, so the item has no entry of its own
    in the result; and every other non-concat item whose predicate passes
    and whose method returns a value is in the result under its key. *)
Theorem predicate_failure_omits_item (mark_safe : value → value)
    (store instance : loc) (r1 r2 : registry) (k : key) (it : item)
    (opts : InfoDictAttributeInfo) (p : item_view → context → result value)
    (r : value) (acc : gmap key value) (w : world) (o : obj) :
  eval_ready w store instance →
  heap w !! instance = Some o →
  info_attribute_options (item_func it) = Some opts →
  _predicate opts = Some p →
  p (view_of it) (o_items o) = Ok r →
  truthy r = false →
  getvalue mark_safe it instance w = (Raise InfoStoreItemPredicateFailure, w)
  ∧ evaluate_loop mark_safe store (r1 ++ (k, it) :: r2) acc w
    = evaluate_loop mark_safe store (r1 ++ r2) acc w
  ∧ ∀ d w',
      wf_registry (r1 ++ (k, it) :: r2) →
      cache_clean o (r1 ++ (k, it) :: r2) →
      evaluate_loop mark_safe store (r1 ++ (k, it) :: r2) acc w = (Ok d, w') →
      ∀ k' f' opts' v',
        (k', InfoStoreItem f') ∈ r1 ++ r2 →
        info_attribute_options f' = Some opts' →
        predicate_check opts' (InfoStoreItem f') (o_items o) = Ok tt →
        f_call f' (o_items o) = Ok v' →
        d !! k' = Some (marked mark_safe opts' v').
Proof.
  intros Hready Ho Hopts Hp Hr Ht. split; [|split].
  - by eapply getvalue_predicate_failure.
  - by eapply evaluate_loop_skips_failed.
  - intros d w' Hwf Hclean Hrun k' f' opts' v' Hin Hopts' Hp' Hv'.
    eapply (evaluate_loop_populates mark_safe store instance (o_items o)); eauto.
    apply elem_of_app in Hin as [Hin | Hin]; apply elem_of_app; [by left|].
    right. by right.
Qed.

(** ** Concat items *)

Lemma isincluded_spec (I E : gset key) k :
  isincluded I E k = true ↔ k ∈ I ∨ k ∉ E.
Proof.
  unfold isincluded, isexcluded.
  destruct (decide (k ∈ I)) as [Hi|Hi], (decide (k ∈ E)) as [He|He];
    rewrite ?(bool_decide_eq_true_2 _ Hi), ?(bool_decide_eq_false_2 _ Hi),
            ?(bool_decide_eq_true_2 _ He), ?(bool_decide_eq_false_2 _ He);
    cbn; split; try tauto; try discriminate; intros [? | ?]; tauto.
Qed.

(** C2: for a concat item made from options with include container [I]
    and exclude container [E], whose method returns the dictionary [d],
    the sub-dictionary the item produces holds exactly the keys [k] of [d]
    with [k] in [I] or [k] not in [E], each with the value it has in [d];
    a key that is in neither container is kept, whether [I] is empty or
    not.  Without [marksafe] and without a cached value this is the value
    [getvalue] hands to [evaluate] for merging. *)
Theorem concat_item_filters (mark_safe : value → value) (f : func)
    (opts : InfoDictAttributeInfo) (c : ConcatOptions) (it : item)
    (instance : loc) (w : world) (o : obj) (d : gmap key value) :
  info_attribute_options f = Some opts →
  _concat opts = ConcatOpts c →
  InfoDictAttributeInfo_get_instance f opts = Ok it →
  heap w !! instance = Some o →
  f_call f (o_items o) = Ok (VDict d) →
  ∃ sub,
    processvalue it instance w = (Ok (VDict sub), log_call f instance w)
    ∧ (∀ k v, sub !! k = Some v ↔ d !! k = Some v ∧ (k ∈ include c ∨ k ∉ exclude c))
    ∧ (∀ k v, d !! k = Some v → k ∉ include c → k ∉ exclude c → sub !! k = Some v)
    ∧ (_marksafe opts = false →
       predicate_check opts it (o_items o) = Ok tt →
       _cache opts = false ∨ cache_miss o f →
       (getvalue mark_safe it instance w).1 = Ok (VDict sub)).
Proof.
  intros Hopts Hconcat Hitem Ho Hcall.
  unfold InfoDictAttributeInfo_get_instance in Hitem. rewrite Hconcat in Hitem.
  cbn in Hitem. injection Hitem as <-.
  set (I := list_to_set (include c) : gset key).
  set (E := list_to_set (exclude c) : gset key).
  set (sub := filter (λ kv : key * value, isincluded I E kv.1 = true) d).
  assert (Hsub : ∀ k v, sub !! k = Some v ↔ d !! k = Some v ∧ (k ∈ include c ∨ k ∉ exclude c)).
  { intros k v. unfold sub. rewrite map_lookup_filter_Some. cbn.
    rewrite isincluded_spec. unfold I, E. by rewrite !elem_of_list_to_set. }
  assert (Hproc : processed (ConcatInfoStoreItem f I E) (o_items o) = Ok (VDict sub)).
  { cbn. by rewrite Hcall. }
  exists sub. split; [|split; [done|split]].
  - rewrite (processvalue_eq _ _ _ o Ho). by rewrite Hproc.
  - intros k v Hk _ He. apply Hsub. auto.
  - intros Hms Hp Hcache. rewrite getvalue_eq. unfold getvalue_cases. cbn [item_func].
    rewrite Hopts, Ho, Hp. unfold computed, marked. rewrite Hproc, Hms.
    destruct (_cache opts); [|done].
    destruct Hcache as [|Hmiss]; [done|]. unfold cache_miss in Hmiss.
    destruct (normal_lookup o INFO_ITEM_CACHE_ATTRIBUTE_NAME)
      as [[[[| | | |d0]| |]|]|]; try done.
    by rewrite Hmiss.
Qed.

(** ** [marksafe] *)

(** C7: when the value of an item is computed, which is when caching is
    off or nothing is cached for its function, the value
    [_get_and_process_value] and [getvalue] return is [mark_safe] applied
    to the processed value for an item with [marksafe] true, and the
    processed value itself for an item with [marksafe] false. *)
Theorem marksafe_wraps_computed_value (mark_safe : value → value) (self : item)
    (opts : InfoDictAttributeInfo) (instance : loc) (w : world) (o : obj) :
  info_attribute_options (item_func self) = Some opts →
  heap w !! instance = Some o →
  (∀ v, processed self (o_items o) = Ok v →
     (_get_and_process_value mark_safe self instance w).1
     = Ok (if _marksafe opts then mark_safe v else v))
  ∧ (_cache opts = false ∨ cache_miss o (item_func self) →
     (∀ v, predicate_check opts self (o_items o) = Ok tt →
           processed self (o_items o) = Ok v →
           (getvalue mark_safe self instance w).1
           = Ok (if _marksafe opts then mark_safe v else v))
     ∧ (∀ v', (getvalue mark_safe self instance w).1 = Ok v' →
           ∃ v, processed self (o_items o) = Ok v
                ∧ v' = if _marksafe opts then mark_safe v else v)).
Proof.
  intros Hopts Ho. split.
  - intros v Hv. rewrite (get_and_process_value_eq _ _ opts _ _ o Hopts Ho).
    unfold computed. by rewrite Hv.
  - intros Hcache.
    assert (Heq : (getvalue mark_safe self instance w).1 =
                  match predicate_check opts self (o_items o) with
                  | Ok _ => computed mark_safe opts self (o_items o)
                  | Raise e => Raise e
                  end).
    { rewrite getvalue_eq. unfold getvalue_cases. rewrite Hopts, Ho.
      destruct (predicate_check opts self (o_items o)); [|done].
      destruct (_cache opts); [|done].
      destruct Hcache as [|Hmiss]; [done|]. unfold cache_miss in Hmiss.
      destruct (normal_lookup o INFO_ITEM_CACHE_ATTRIBUTE_NAME)
        as [[[[| | | |d0]| |]|]|]; try done.
      - rewrite Hmiss. by destruct (computed mark_safe opts self (o_items o)).
      - by destruct (computed mark_safe opts self (o_items o)). }
    rewrite Heq. unfold computed, marked. split.
    + intros v -> ->. done.
    + intros v'. destruct (predicate_check opts self (o_items o)); [|done].
      destruct (processed self (o_items o)) as [v|]; [|done].
      intros [= <-]. eauto.
Qed.

(** ** Registries built by the class statement *)

Lemma get_instance_func f o it :
  InfoDictAttributeInfo_get_instance f o = Ok it → item_func it = f.
Proof.
  unfold InfoDictAttributeInfo_get_instance.
  destruct (concat_truthy (_concat o)); [|by intros [= <-]].
  destruct (_concat o); try done. by intros [= <-].
Qed.

Lemma wf_registry_nil : wf_registry [].
Proof.
  split.
  - apply NoDup_nil_2.
  - intros k it Hin. by apply elem_of_nil in Hin.
  - intros k1 it1 k2 it2 Hin. by apply elem_of_nil in Hin.
Qed.

(** [register] keeps a registry well formed. *)
Lemma InfoStore_register_wf f reg reg' :
  wf_registry reg →
  (∀ k it, (k, it) ∈ reg → f_id (item_func it) = f_id f → item_func it = f) →
  InfoStore_register f reg = (Ok tt, reg') →
  wf_registry reg'
  ∧ ∀ k it, (k, it) ∈ reg' → (k, it) ∈ reg ∨ item_func it = f.
Proof.
  intros [Hnd Hit Hid] Hnew. unfold InfoStore_register.
  destruct (info_attribute_options f) as [o|] eqn:Ho; [|done].
  destruct (InfoDictAttributeInfo_get_instance f o) as [it0|] eqn:Hi; [|done].
  destruct (item_key it0) as [k0|] eqn:Hk; [|done].
  case_bool_decide as Hin; [done|]. intros [= <-].
  rewrite registry_setitem_fresh by done.
  pose proof (get_instance_func _ _ _ Hi) as Hf.
  split; [split|].
  - rewrite fmap_app. apply NoDup_app. split; [done|]. split.
    + intros k Hk1 Hk2. cbn in Hk2. apply list_elem_of_singleton in Hk2 as ->. done.
    + cbn. apply NoDup_singleton.
  - intros k it [Hold | Hlast%list_elem_of_singleton]%elem_of_app; [by apply Hit|].
    injection Hlast as -> ->. exists o. by rewrite Hf.
  - intros k1 it1 k2 it2
      [H1 | H1%list_elem_of_singleton]%elem_of_app
      [H2 | H2%list_elem_of_singleton]%elem_of_app Heq.
    + by eapply Hid.
    + injection H2 as -> ->. rewrite Hf in *. by eapply Hnew.
    + injection H1 as -> ->. rewrite Hf in *. symmetry. by eapply Hnew.
    + injection H1 as -> ->. by injection H2 as -> ->.
  - intros k it [Hold | Hlast%list_elem_of_singleton]%elem_of_app; [by left|].
    injection Hlast as -> ->. by right.
Qed.

Lemma own_registry_lookup cls reg :
  own_registry cls = Some reg → class_lookup cls "info_store" = Some (CInfoStore reg).
Proof.
  unfold own_registry. destruct cls as [n b d]; cbn.
  destruct (d !! "info_store") as [[]|]; try done. by intros [= ->].
Qed.

Lemma register_all_wf attrs :
  ∀ cls cls' reg,
    own_registry cls = Some reg →
    wf_registry reg →
    one_object_per_identity attrs →
    (∀ k it, (k, it) ∈ reg → ∀ g, CFunction g ∈ attrs →
       f_id (item_func it) = f_id g → item_func it = g) →
    register_all cls attrs = Ok cls' →
    ∃ reg', own_registry cls' = Some reg' ∧ wf_registry reg'.
Proof.
  induction attrs as [|a attrs IH]; intros cls cls' reg Hown Hwf Hone Hold Hrun.
  { cbn in Hrun. injection Hrun as <-. eauto. }
  assert (Hone' : one_object_per_identity attrs).
  { intros f g Hf Hg. apply Hone; by right. }
  assert (Hold' : ∀ k it, (k, it) ∈ reg → ∀ g, CFunction g ∈ attrs →
                   f_id (item_func it) = f_id g → item_func it = g).
  { intros k it Hin g Hg. apply (Hold k it Hin). by right. }
  destruct a as [| | |f| |]; cbn in Hrun; try by eapply IH.
  destruct (info_attribute_options f) eqn:Hopts; [|by eapply IH].
  unfold class_register in Hrun.
  rewrite (own_registry_lookup _ _ Hown) in Hrun.
  destruct (InfoStore_register f reg) as [[[]|] reg1] eqn:Hreg; [|done].
  destruct (InfoStore_register_wf f reg reg1) as [Hwf1 Hmem]; try done.
  { intros k it Hin. apply (Hold k it Hin). by left. }
  eapply (IH _ cls' reg1); try done.
  - unfold own_registry, class_setattr; cbn. by rewrite lookup_insert_eq.
  - intros k it Hin g Hg Heq. destruct (Hmem k it Hin) as [Hin' | <-].
    + by eapply Hold'.
    + apply Hone; [by left | by right | done].
Qed.

(** The registry of a class built by [InfoDictMeta] is well formed, when
    the functions it finds in the bases and in the class body are one
    object per identity. *)
Lemma InfoDictMeta_class_registry_wf name base dct cls :
  one_object_per_identity
    (InfoDictMeta__get_class_attributes base
     ++ (map_to_list (<["info_store" := CInfoStore InfoStore___init__]> dct)).*2) →
  InfoDictMeta_class name base dct = Ok cls →
  ∃ reg, class_lookup cls "info_store" = Some (CInfoStore reg) ∧ wf_registry reg.
Proof.
  intros Hone. unfold InfoDictMeta_class, InfoDictMeta___init__.
  destruct (register_all _ _) as [cls1|] eqn:Hrun; [|done]. intros [= <-].
  assert (Hown0 : own_registry (InfoDictMeta___new__ name base dct) = Some []).
  { unfold own_registry, InfoDictMeta___new__, type___new__, class_dict.
    by rewrite lookup_insert_eq. }
  destruct (register_all_wf _ _ cls1 [] Hown0 wf_registry_nil Hone
              ltac:(by intros k it Hin%elem_of_nil) Hrun) as (reg & Hown & Hwf).
  exists reg. split; [|done].
  unfold own_registry in Hown. destruct cls1 as [n b d]; cbn in *.
  rewrite lookup_insert_ne by done.
  destruct (d !! "info_store") as [[]|]; try done. by injection Hown as ->.
Qed.

(** ** Concrete runs *)

Lemma Page_info_store : class_lookup Page "info_store" = Some (CInfoStore Page_registry).
Proof. vm_compute. reflexivity. Qed.

Lemma Page_registry_wf : wf_registry Page_registry.
Proof.
  split.
  - apply (bool_decide_eq_true_1 (NoDup Page_registry.*1)). by vm_compute.
  - intros k it Hin. unfold Page_registry in Hin.
    repeat (apply elem_of_cons in Hin as [[= -> ->] | Hin];
            [eexists; split; [reflexivity|split; reflexivity]|]).
    by apply elem_of_nil in Hin.
  - intros k1 it1 k2 it2 H1 H2. unfold Page_registry in H1, H2.
    repeat (apply elem_of_cons in H1 as [[= -> ->] | H1]);
      try (by apply elem_of_nil in H1);
      repeat (apply elem_of_cons in H2 as [[= -> ->] | H2]);
      try (by apply elem_of_nil in H2); try reflexivity; by vm_compute.
Qed.

Lemma ConcatableDict_add_right_wins_witness :
  ∃ new w' o,
    py_add 1%positive 2%positive two_dicts = (Ok new, w')
    ∧ heap two_dicts !! new = None
    ∧ heap w' !! new = Some o
    ∧ o_class o = ConcatableDict
    ∧ o_items o = o_items two_dicts_right ∪ o_items two_dicts_left
    ∧ (∀ k v, o_items two_dicts_right !! k = Some v → o_items o !! k = Some v)
    ∧ (∀ k, o_items two_dicts_right !! k = None → o_items o !! k = o_items two_dicts_left !! k)
    ∧ heap w' !! 1%positive = Some two_dicts_left
    ∧ heap w' !! 2%positive = Some two_dicts_right
    ∧ (∀ l, l ≠ new → heap w' !! l = heap two_dicts !! l)
    ∧ calls w' = calls two_dicts.
Proof.
  apply (ConcatableDict_add_right_wins two_dicts 1%positive 2%positive
           two_dicts_left two_dicts_right).
  - reflexivity.
  - reflexivity.
  - left. reflexivity.
Defined.

Lemma InfoDict_getattr_reads_items_witness :
  getattr 1%positive "lang" Page_run.2 =
    match o_items (object_at 1%positive Page_run.2) !! KStr "lang" with
    | Some v => (Ok (FAttr (AVal v)), Page_run.2)
    | None => (Raise AttributeError, Page_run.2)
    end
  ∧ (getattr 1%positive "lang" Page_run.2).1 ≠ Raise KeyError.
Proof.
  apply (InfoDict_getattr_reads_items Page_run.2 1%positive
           (object_at 1%positive Page_run.2) "lang").
  - vm_compute. reflexivity.
  - vm_compute. reflexivity.
  - vm_compute. reflexivity.
Defined.



Lemma concat_item_filters_witness :
  ∃ sub,
    processvalue (item_of Page_meta) 1%positive plain_run.2
    = (Ok (VDict sub), log_call Page_meta 1%positive plain_run.2)
    ∧ (∀ k v, sub !! k = Some v ↔
              Page_meta_dict !! k = Some v
              ∧ (k ∈ include Page_meta_options ∨ k ∉ exclude Page_meta_options))
    ∧ (∀ k v, Page_meta_dict !! k = Some v → k ∉ include Page_meta_options →
              k ∉ exclude Page_meta_options → sub !! k = Some v)
    ∧ (_marksafe (options_of Page_meta) = false →
       predicate_check (options_of Page_meta) (item_of Page_meta)
         (o_items (object_at 1%positive plain_run.2)) = Ok tt →
       _cache (options_of Page_meta) = false
       ∨ cache_miss (object_at 1%positive plain_run.2) Page_meta →
       (getvalue mark_safe_tag (item_of Page_meta) 1%positive plain_run.2).1
       = Ok (VDict sub)).
Proof.
  apply (concat_item_filters mark_safe_tag Page_meta (options_of Page_meta)
           Page_meta_options (item_of Page_meta) 1%positive plain_run.2
           (object_at 1%positive plain_run.2) Page_meta_dict).
  - reflexivity.
  - reflexivity.
  - reflexivity.
  - vm_compute. reflexivity.
  - reflexivity.
Defined.

Lemma marksafe_wraps_computed_value_witness :
  (∀ v, processed (item_of Page_title) (o_items (object_at 1%positive plain_run.2)) = Ok v →
     (_get_and_process_value mark_safe_tag (item_of Page_title) 1%positive plain_run.2).1
     = Ok (if _marksafe (options_of Page_title) then mark_safe_tag v else v))
  ∧ (_cache (options_of Page_title) = false
     ∨ cache_miss (object_at 1%positive plain_run.2) (item_func (item_of Page_title)) →
     (∀ v, predicate_check (options_of Page_title) (item_of Page_title)
             (o_items (object_at 1%positive plain_run.2)) = Ok tt →
           processed (item_of Page_title) (o_items (object_at 1%positive plain_run.2)) = Ok v →
           (getvalue mark_safe_tag (item_of Page_title) 1%positive plain_run.2).1
           = Ok (if _marksafe (options_of Page_title) then mark_safe_tag v else v))
     ∧ (∀ v', (getvalue mark_safe_tag (item_of Page_title) 1%positive plain_run.2).1 = Ok v' →
           ∃ v, processed (item_of Page_title) (o_items (object_at 1%positive plain_run.2)) = Ok v
                ∧ v' = if _marksafe (options_of Page_title) then mark_safe_tag v else v)).
Proof.
  apply (marksafe_wraps_computed_value mark_safe_tag (item_of Page_title)
           (options_of Page_title) 1%positive plain_run.2
           (object_at 1%positive plain_run.2)).
  - reflexivity.
  - vm_compute. reflexivity.
Defined.

Lemma InfoDict_init_populates_witness :
  ∃ o ctx,
    heap Page_run.2 !! 1%positive = Some o
    ∧ dict_args Page_args ∅ = Ok ctx
    ∧ ∀ k f opts v,
        (k, InfoStoreItem f) ∈ Page_registry →
        info_attribute_options f = Some opts →
        predicate_check opts (InfoStoreItem f) ctx = Ok tt →
        f_call f ctx = Ok v →
        k = _key opts ∧ o_items o !! k = Some (marked mark_safe_tag opts v).
Proof.
  apply (InfoDict_init_populates mark_safe_tag Page Page_registry Page_args ∅
           empty_world Page_run.2 1%positive).
  - vm_compute. reflexivity.
  - exact Page_registry_wf.
  - vm_compute. reflexivity.
Defined.

Lemma plain_run_eval_ready : eval_ready plain_run.2 2%positive 1%positive.
Proof.
  split; [done|]. split.
  - eexists. vm_compute. reflexivity.
  - eexists. split; vm_compute; reflexivity.
Qed.

Lemma predicate_failure_omits_item_witness :
  getvalue mark_safe_tag (item_of Page_hidden) 1%positive plain_run.2
  = (Raise InfoStoreItemPredicateFailure, plain_run.2)
  ∧ evaluate_loop mark_safe_tag 2%positive
      ([(KInt 4, item_of Page_meta); (KStr "later", item_of Page_later);
        (KStr "title", item_of Page_title)]
       ++ (KStr "hidden", item_of Page_hidden) :: [])
      ∅ plain_run.2
    = evaluate_loop mark_safe_tag 2%positive
        ([(KInt 4, item_of Page_meta); (KStr "later", item_of Page_later);
          (KStr "title", item_of Page_title)] ++ [])
        ∅ plain_run.2
  ∧ ∀ d w',
      wf_registry ([(KInt 4, item_of Page_meta); (KStr "later", item_of Page_later);
                    (KStr "title", item_of Page_title)]
                   ++ (KStr "hidden", item_of Page_hidden) :: []) →
      cache_clean (object_at 1%positive plain_run.2)
        ([(KInt 4, item_of Page_meta); (KStr "later", item_of Page_later);
          (KStr "title", item_of Page_title)]
         ++ (KStr "hidden", item_of Page_hidden) :: []) →
      evaluate_loop mark_safe_tag 2%positive
        ([(KInt 4, item_of Page_meta); (KStr "later", item_of Page_later);
          (KStr "title", item_of Page_title)]
         ++ (KStr "hidden", item_of Page_hidden) :: [])
        ∅ plain_run.2 = (Ok d, w') →
      ∀ k' f' opts' v',
        (k', InfoStoreItem f') ∈ [(KInt 4, item_of Page_meta);
                                  (KStr "later", item_of Page_later);
                                  (KStr "title", item_of Page_title)] ++ [] →
        info_attribute_options f' = Some opts' →
        predicate_check opts' (InfoStoreItem f') (o_items (object_at 1%positive plain_run.2))
        = Ok tt →
        f_call f' (o_items (object_at 1%positive plain_run.2)) = Ok v' →
        d !! k' = Some (marked mark_safe_tag opts' v').
Proof.
  apply (predicate_failure_omits_item mark_safe_tag 2%positive 1%positive
           [(KInt 4, item_of Page_meta); (KStr "later", item_of Page_later);
            (KStr "title", item_of Page_title)] []
           (KStr "hidden") (item_of Page_hidden) (options_of Page_hidden)
           (λ _ _, Ok (VBool false)) (VBool false) ∅ plain_run.2
           (object_at 1%positive plain_run.2)).
  - exact plain_run_eval_ready.
  - vm_compute. reflexivity.
  - reflexivity.
  - reflexivity.
  - reflexivity.
  - reflexivity.
Defined.

(** On that run the side conditions of the last part hold: the registry
    is the one of [Page], nothing is cached yet, and the loop returns
    with [title] in the result. *)
Example predicate_failure_run :
  wf_registry ([(KInt 4, item_of Page_meta); (KStr "later", item_of Page_later);
                (KStr "title", item_of Page_title)]
               ++ (KStr "hidden", item_of Page_hidden) :: [])
  ∧ cache_clean (object_at 1%positive plain_run.2) Page_registry
  ∧ ∃ d w',
      evaluate_loop mark_safe_tag 2%positive Page_registry ∅ plain_run.2 = (Ok d, w')
      ∧ d !! KStr "title" = Some (VStr "safe:Home")
      ∧ d !! KStr "hidden" = None.
Proof.
  split; [exact Page_registry_wf|]. split.
  - intros k it _. by apply cache_entry_no_attr.
  - eexists _, _. repeat split; vm_compute; reflexivity.
Qed.

(** ** Departures *)

(** The negation of C1 as it is stated: [later] is a registered non-concat
    item of [Page] with no predicate, so its predicate passes, the
    constructor returns, and the instance has no entry under the key of
    the item, because the method skipped itself. *)
Lemma skipping_item_is_not_populated :
  class_lookup Page "info_store" = Some (CInfoStore Page_registry)
  ∧ (KStr "later", InfoStoreItem Page_later) ∈ Page_registry
  ∧ predicate_check (options_of Page_later) (InfoStoreItem Page_later)
      (succeeded ∅ (dict_args Page_args ∅)) = Ok tt
  ∧ ∃ self w' o,
      InfoDict_new mark_safe_tag Page Page_args ∅ empty_world = (Ok self, w')
      ∧ heap w' !! self = Some o
      ∧ o_items o !! KStr "later" = None.
Proof.
  split; [apply Page_info_store|]. split; [|split].
  - unfold Page_registry. apply elem_of_cons. right. apply elem_of_cons. by left.
  - reflexivity.
  - exists 1%positive, Page_run.2, (object_at 1%positive Page_run.2).
    split; [|split]; vm_compute; reflexivity.
Qed.

(** The negation of the last part of C4 as it is stated: the predicate of
    [hidden] fails, [evaluate] returns, and [later], another registered
    item whose predicate passes, is not in the result, because its method
    skipped itself. *)
Lemma passing_item_that_skips_is_omitted :
  eval_ready plain_run.2 2%positive 1%positive
  ∧ getvalue mark_safe_tag (item_of Page_hidden) 1%positive plain_run.2
    = (Raise InfoStoreItemPredicateFailure, plain_run.2)
  ∧ predicate_check (options_of Page_later) (item_of Page_later)
      (o_items (object_at 1%positive plain_run.2)) = Ok tt
  ∧ ∃ d w',
      evaluate_loop mark_safe_tag 2%positive
        [(KStr "hidden", item_of Page_hidden); (KStr "later", item_of Page_later)]
        ∅ plain_run.2 = (Ok d, w')
      ∧ d !! KStr "later" = None.
Proof.
  split; [exact plain_run_eval_ready|]. split; [|split].
  - vm_compute. reflexivity.
  - reflexivity.
  - eexists _, _. split; vm_compute; reflexivity.
Qed.


(** *** Freezing *)

(** [FrozenMeta.__new__] puts the frozen setter in the class. *)
Lemma FrozenMeta_new_installs_setattr name base dct :
  class_lookup (FrozenMeta_class name base dct) "__setattr__"
  = Some (CMethod FrozenMeta_setattr_m).
Proof.
  unfold FrozenMeta_class, FrozenMeta___init__, FrozenMeta___new__, type___new__,
    class_setattr. cbn.
  rewrite lookup_insert_ne by done. by rewrite lookup_insert_eq.
Qed.

Lemma class_setattr_lookup_ne cls name name' a :
  name ≠ name' →
  class_lookup (class_setattr cls name a) name' = class_lookup cls name'.
Proof.
  intros Hne. destruct cls as [n b d]. cbn. by rewrite lookup_insert_ne.
Qed.

Lemma register_all_lookup attrs :
  ∀ cls cls' name,
    name ≠ "info_store" →
    register_all cls attrs = Ok cls' →
    class_lookup cls' name = class_lookup cls name.
Proof.
  induction attrs as [|a attrs IH]; intros cls cls' name Hne Hrun.
  { cbn in Hrun. by injection Hrun as <-. }
  destruct a as [| | |f| |]; cbn in Hrun; try by eapply IH.
  destruct (info_attribute_options f); [|by eapply IH].
  unfold class_register in Hrun.
  destruct (class_lookup cls "info_store") as [[| | | | |reg]|]; try done.
  destruct (InfoStore_register f reg) as [[[]|] reg1]; [|done].
  rewrite (IH _ _ _ Hne Hrun). by apply class_setattr_lookup_ne.
Qed.

(** [InfoDictMeta.__new__] goes to [type.__new__] and puts no setter in
    the class: [__setattr__] is what the class body or the base has. *)
Lemma InfoDictMeta_class_installs_no_setattr name base dct cls :
  InfoDictMeta_class name base dct = Ok cls →
  class_lookup cls "__setattr__" = class_lookup (type___new__ name base dct) "__setattr__".
Proof.
  unfold InfoDictMeta_class, InfoDictMeta___init__.
  destruct (register_all _ _) as [cls1|] eqn:Hrun; [|done]. intros [= <-].
  unfold FrozenMeta___init__. rewrite class_setattr_lookup_ne by done.
  rewrite (register_all_lookup _ _ _ "__setattr__" ltac:(done) Hrun).
  unfold InfoDictMeta___new__, type___new__. cbn. by rewrite lookup_insert_ne.
Qed.

(** [InfoDict] and the classes whose body has no [__setattr__] and that
    derive from it have no [__setattr__] of the library. *)
Lemma InfoDict_subclass_no_setattr name dct cls :
  dct !! "__setattr__" = None →
  InfoDictMeta_class name (Some InfoDict) dct = Ok cls →
  class_lookup cls "__setattr__" = None.
Proof.
  intros Hdct Hcls. rewrite (InfoDictMeta_class_installs_no_setattr _ _ _ _ Hcls).
  cbn. by rewrite Hdct.
Qed.

(** An instance of a class deriving from [InfoDict] whose lookup finds no
    [__setattr__] accepts, once constructed, the assignment of any
    attribute that is not a property of the class. *)
Lemma InfoDict_instance_stays_open mark_safe cls reg args kwargs w self w1 name a :
  class_lookup cls "info_store" = Some (CInfoStore reg) →
  class_lookup cls "__setattr__" = None →
  class_lookup cls name ≠ Some CProperty →
  InfoDict_new mark_safe cls args kwargs w = (Ok self, w1) →
  ∃ o, heap w1 !! self = Some o
       ∧ setattr_stmt self name a w1 = (Ok tt, with_obj self (set_attr o name a) w1).
Proof.
  intros Hstore Hset Hprop Hnew.
  destruct (InfoDict_new_inv _ _ _ _ _ _ _ _ Hstore Hnew)
    as (o & _ & _ & _ & _ & _ & Ho & _ & _ & Hcls & _).
  exists o. split; [done|]. unfold setattr_stmt.
  rewrite (bind_Ok _ _ w1 o w1) by by apply get_obj_Some.
  rewrite Hcls, Hset. rewrite (object_setattr_eq _ _ _ _ o Ho), Hcls.
  by destruct (class_lookup cls name) as [[]|].
Qed.

(** C3, where the code departs from it: [Page] derives from [InfoDict];
    its instance is constructed, and the assignment [instance.x = 1] made
    after that succeeds and sets the attribute; no [RuntimeError] is
    raised.  The store built for the same instance, an
    [InstanceInfoStore], refuses the same assignment. *)
Theorem InfoDict_instance_accepts_assignment_after_init :
  ∃ self w1 w2 o,
    InfoDict_new mark_safe_tag Page Page_args ∅ empty_world = (Ok self, w1)
    ∧ class_lookup Page "__setattr__" = None
    ∧ setattr_stmt self "x" (AVal (VInt 1)) w1 = (Ok tt, w2)
    ∧ heap w2 !! self = Some o
    ∧ o_dict o !! "x" = Some (AVal (VInt 1))
    ∧ setattr_stmt 2%positive "x" (AVal (VInt 1)) w1 = (Raise RuntimeError, w1).
Proof.
  exists 1%positive, Page_run.2,
    (setattr_stmt 1%positive "x" (AVal (VInt 1)) Page_run.2).2,
    (object_at 1%positive (setattr_stmt 1%positive "x" (AVal (VInt 1)) Page_run.2).2).
  repeat split; vm_compute; reflexivity.
Qed.

(** *** Overlapping keys *)

Lemma merged_disjoint acc sub :
  dom acc ∩ dom sub = ∅ →
  merged acc (VDict sub) = Ok (sub ∪ acc)
  ∧ ∀ k v, sub !! k = Some v → (sub ∪ acc) !! k = Some v.
Proof.
  intros Hd. unfold merged; cbn. rewrite bool_decide_eq_true_2 by done.
  split; [done|]. intros k v Hk. by apply lookup_union_Some_l.
Qed.

Lemma merged_overlap_strings acc sub :
  dom acc ∩ dom sub ≠ ∅ →
  set_Forall (λ k, is_str k = true) (dom acc ∩ dom sub) →
  merged acc (VDict sub) = Raise ValueError.
Proof.
  intros Hd Hs. unfold merged, str_join; cbn. rewrite bool_decide_eq_false_2 by done.
  by rewrite bool_decide_eq_true_2.
Qed.

Lemma merged_overlap_other acc sub k :
  k ∈ dom acc ∩ dom sub →
  is_str k = false →
  merged acc (VDict sub) = Raise TypeError.
Proof.
  intros Hk Hs. unfold merged, str_join; cbn.
  rewrite bool_decide_eq_false_2
    by (intros Hempty; rewrite Hempty in Hk; by apply not_elem_of_empty in Hk).
  rewrite bool_decide_eq_false_2; [done|].
  intros Hall. specialize (Hall k Hk). cbn in Hall. congruence.
Qed.

(** C6, where the code departs from it: the two concat methods of [Dup]
    both return a dictionary with the integer key [1]; when the second
    sub-dictionary is about to be merged the key sets intersect, and what
    is raised is [TypeError], from joining the keys into the message, not
    [ValueError]. *)
Theorem overlapping_integer_keys_raise_TypeError :
  (∃ reg, class_lookup Dup "info_store" = Some (CInfoStore reg)
          ∧ reg.*1 = [KInt (hash Dup_second); KInt (hash Dup_first)])
  ∧ dom ({[KInt 1 := VStr "b"]} : gmap key value)
    ∩ dom ({[KInt 1 := VStr "a"]} : gmap key value) ≠ ∅
  ∧ merged {[KInt 1 := VStr "b"]} (VDict {[KInt 1 := VStr "a"]}) = Raise TypeError
  ∧ (InfoDict_new mark_safe_tag Dup [] ∅ empty_world).1 = Raise TypeError.
Proof.
  split; [|split; [|split]].
  - eexists. split; vm_compute; reflexivity.
  - intros H. assert (Hin : KInt 1 ∈ (∅ : gset key)); [|by apply not_elem_of_empty in Hin].
    rewrite <- H. rewrite !dom_singleton_L. set_solver.
  - vm_compute. reflexivity.
  - vm_compute. reflexivity.
Qed.

(** * Further properties *)

(** ** [FrozenMeta] and [InstanceInfoStore] *)

Lemma InstanceInfoStore_new_default instance registered_items w :
  InstanceInfoStore_new instance registered_items w
  = InstanceInfoStore_new instance (Some (default [] registered_items)) w.
Proof. by destruct registered_items as [[|x r]|]. Qed.

(** X1: [InstanceInfoStore(instance, registered_items)] always returns.
    It builds one new object that holds the instance and the registry it
    was given, the empty registry when none or an empty one was given;
    [instance] and the registry are read back from it; no other object is
    touched; and the store is frozen: every later assignment to it raises
    [RuntimeError] and changes nothing.  A store without registered items
    evaluates to the empty dictionary. *)
Theorem InstanceInfoStore_is_frozen_once_built (mark_safe : value → value)
    (instance : loc) (registered_items : option registry) (w : world) :
  ∃ store w1,
    InstanceInfoStore_new instance registered_items w = (Ok store, w1)
    ∧ heap w !! store = None
    ∧ heap w1 !! store = Some (instance_store instance (default [] registered_items))
    ∧ (∀ l, l ≠ store → heap w1 !! l = heap w !! l)
    ∧ InstanceInfoStore_instance store w1 = (Ok instance, w1)
    ∧ InstanceInfoStore_iteritems store w1 = (Ok (default [] registered_items), w1)
    ∧ (∀ name a, setattr_stmt store name a w1 = (Raise RuntimeError, w1))
    ∧ (default [] registered_items = [] →
       InstanceInfoStore_evaluate mark_safe store w1 = (Ok ∅, w1)).
Proof.
  pose proof (InstanceInfoStore_new_eq instance (default [] registered_items) w) as Hnew.
  rewrite <- InstanceInfoStore_new_default in Hnew.
  set (reg := default [] registered_items) in *.
  set (store := fresh (dom (heap w))) in *.
  set (w1 := with_obj store (instance_store instance reg) w) in *.
  assert (Hstore : heap w1 !! store = Some (instance_store instance reg))
    by apply lookup_insert_eq.
  assert (Hiter : InstanceInfoStore_iteritems store w1 = (Ok reg, w1)).
  { unfold InstanceInfoStore_iteritems.
    rewrite (bind_Ok _ _ w1 (FAttr (ARegistry reg)) w1); [done|].
    apply (getattr_normal _ _ _ _ _ Hstore). apply instance_store_lookup; [done|].
    rewrite InstanceInfoStore_lookup_private; [done|].
    apply elem_of_cons. right. apply elem_of_cons. by left. }
  exists store, w1. split; [done|]. split; [apply fresh_heap_None|]. split; [done|].
  split; [intros l Hl; unfold w1; cbn; by rewrite lookup_insert_ne|].
  split; [|split; [done|split]].
  - unfold InstanceInfoStore_instance.
    rewrite (bind_Ok _ _ w1 (FAttr (ARef instance)) w1); [done|].
    apply (getattr_normal _ _ _ _ _ Hstore). apply instance_store_lookup; [done|].
    rewrite InstanceInfoStore_lookup_private; [done|]. apply elem_of_cons. by left.
  - intros name a.
    by apply (InstanceInfoStore_setattr_frozen _ _ _ _ (instance_store instance reg)
                (AVal (VBool true))).
  - intros Hempty. unfold InstanceInfoStore_evaluate.
    rewrite (bind_Ok _ _ _ _ _ Hiter). by rewrite Hempty.
Qed.

Lemma frozen_subclass_lookup_frozen name base dct o :
  o_class o = FrozenMeta_class name base dct →
  ∃ x, normal_lookup o "_frozen" = Some x.
Proof.
  intros Hc. unfold normal_lookup. rewrite Hc.
  assert (Hf : class_lookup (FrozenMeta_class name base dct) "_frozen" = Some (CBool false)).
  { unfold FrozenMeta_class, FrozenMeta___init__, class_setattr. cbn.
    by rewrite lookup_insert_eq. }
  rewrite Hf. destruct (o_dict o !! "_frozen"); eauto.
Qed.

Lemma frozen_subclass_setattr name name' base dct dct' w self o attr_name a :
  heap w !! self = Some o →
  o_class o = FrozenMeta_class name (Some (FrozenMeta_class name' base dct')) dct →
  setattr_stmt self attr_name a w = (Raise RuntimeError, w).
Proof.
  intros Ho Hc. unfold setattr_stmt.
  rewrite (bind_Ok _ _ w o w) by by apply get_obj_Some.
  rewrite Hc.
  rewrite (FrozenMeta_new_installs_setattr name (Some (FrozenMeta_class name' base dct')) dct).
  destruct (frozen_subclass_lookup_frozen _ _ _ _ Hc) as (x & Hx).
  apply (FrozenMeta_setattr_recursion _ _ _ _ _ o x); [done|done|].
  rewrite Hc. exact (FrozenMeta_new_installs_setattr name' base dct').
Qed.

(** X2: a class built by [FrozenMeta] whose base was built by [FrozenMeta]
    too cannot assign any attribute to its instances, frozen or not:
    [super(self.__class__, self).__setattr__] finds the frozen setter
    again, and the recursion ends in [RuntimeError] with nothing changed.
    So calling such a class with the [__init__] of [InstanceInfoStore]
    raises [RuntimeError] at the first assignment and leaves only the new,
    empty object behind. *)
Theorem frozen_subclass_rejects_every_assignment (name name' : string)
    (base : option pyclass) (dct dct' : gmap string cattr) :
  (∀ w self o attr_name a,
     heap w !! self = Some o →
     o_class o = FrozenMeta_class name (Some (FrozenMeta_class name' base dct')) dct →
     setattr_stmt self attr_name a w = (Raise RuntimeError, w))
  ∧ (∀ w instance registered_items,
       ∃ self w1,
         FrozenMeta___call__
           (FrozenMeta_class name (Some (FrozenMeta_class name' base dct')) dct)
           (λ self, InstanceInfoStore___init__ self instance registered_items) w
         = (Raise RuntimeError, w1)
         ∧ heap w !! self = None
         ∧ heap w1 !! self
           = Some {| o_class := FrozenMeta_class name
                                  (Some (FrozenMeta_class name' base dct')) dct;
                     o_dict := ∅; o_items := ∅ |}
         ∧ ∀ l, l ≠ self → heap w1 !! l = heap w !! l).
Proof.
  split; [intros; by eapply frozen_subclass_setattr|].
  intros w instance registered_items.
  set (cls := FrozenMeta_class name (Some (FrozenMeta_class name' base dct')) dct).
  set (self := fresh (dom (heap w))).
  set (o0 := {| o_class := cls; o_dict := ∅; o_items := ∅ |}).
  set (w1 := with_obj self o0 w).
  assert (Ho0 : heap w1 !! self = Some o0) by apply lookup_insert_eq.
  exists self, w1. split; [|split; [apply fresh_heap_None|split; [done|]]].
  - unfold FrozenMeta___call__, type___call__.
    apply bind_Raise. rewrite (bind_Ok _ _ w self w1) by done.
    apply bind_Raise. unfold InstanceInfoStore___init__. apply bind_Raise.
    by apply (frozen_subclass_setattr name name' base dct dct' w1 self o0).
  - intros l Hl. unfold w1; cbn. by rewrite lookup_insert_ne.
Qed.

(** ** [ConcatableDict.copy] and sums of three *)

Lemma ConcatableDict_copy_eq w self o :
  heap w !! self = Some o →
  ConcatableDict_copy self w
  = (Ok (fresh (dom (heap w))),
     with_obj (fresh (dom (heap w)))
       {| o_class := ConcatableDict; o_dict := ∅; o_items := o_items o |} w).
Proof.
  intros Ho. set (new := fresh (dom (heap w))).
  unfold ConcatableDict_copy, as_mapping.
  rewrite (bind_Ok _ _ w (VDict (o_items o)) w).
  2:{ by rewrite (bind_Ok _ _ w o w) by by apply get_obj_Some. }
  unfold ConcatableDict_new, type___call__, alloc, dict___init__, dict_update,
    bind, get_obj, put_obj, lift, ret, with_obj; cbn.
  fold new.
  rewrite !lookup_insert_eq. cbn.
  rewrite !lookup_insert_eq. cbn.
  rewrite !insert_insert_eq.
  rewrite kmap_KStr_empty.
  by rewrite (left_id_L ∅ (∪)), (right_id_L ∅ (∪)).
Qed.

(** X3: [d.copy()] returns a new [ConcatableDict], whatever the class of
    [d], with the entries of [d] and no instance attribute; no object that
    existed is touched; and the two are independent afterwards: updating
    the copy leaves [d] as it was, updating [d] leaves the copy as it was. *)
Theorem ConcatableDict_copy_is_independent (w : world) (self : loc) (o : obj) :
  heap w !! self = Some o →
  ∃ new w1,
    ConcatableDict_copy self w = (Ok new, w1)
    ∧ heap w !! new = None
    ∧ heap w1 !! new
      = Some {| o_class := ConcatableDict; o_dict := ∅; o_items := o_items o |}
    ∧ (∀ l, l ≠ new → heap w1 !! l = heap w !! l)
    ∧ (∀ v w2, dict_update new v w1 = (Ok tt, w2) → heap w2 !! self = Some o)
    ∧ (∀ v w2, dict_update self v w1 = (Ok tt, w2) →
         heap w2 !! new
         = Some {| o_class := ConcatableDict; o_dict := ∅; o_items := o_items o |}).
Proof.
  intros Ho. set (new := fresh (dom (heap w))).
  assert (Hnew : heap w !! new = None) by apply fresh_heap_None.
  assert (Hne : self ≠ new) by (intros ->; congruence).
  eexists new, _. split; [by apply ConcatableDict_copy_eq|].
  set (on := {| o_class := ConcatableDict; o_dict := ∅; o_items := o_items o |}).
  set (w1 := with_obj new on w).
  assert (Hn1 : heap w1 !! new = Some on) by apply lookup_insert_eq.
  assert (Hs1 : heap w1 !! self = Some o).
  { unfold w1; cbn. by rewrite lookup_insert_ne. }
  split; [done|]. split; [done|].
  split; [intros l Hl; unfold w1; cbn; by rewrite lookup_insert_ne|]. split.
  - intros v w2. rewrite (dict_update_eq _ _ _ on Hn1).
    destruct (update_items (o_items on) v); [|done]. intros [= <-]. cbn.
    by rewrite lookup_insert_ne.
  - intros v w2. rewrite (dict_update_eq _ _ _ o Hs1).
    destruct (update_items (o_items o) v); [|done]. intros [= <-]. cbn.
    by rewrite lookup_insert_ne.
Qed.

Lemma py_add_eq w left right lo ro :
  heap w !! left = Some lo →
  heap w !! right = Some ro →
  class_lookup (o_class lo) "__add__" = Some (CMethod ConcatableDict___add___m)
  ∨ (class_lookup (o_class lo) "__add__" = None
     ∧ class_lookup (o_class ro) "__radd__" = Some (CMethod ConcatableDict___radd___m)) →
  py_add left right w
  = (Ok (fresh (dom (heap w))),
     with_obj (fresh (dom (heap w)))
       {| o_class := ConcatableDict; o_dict := ∅; o_items := o_items ro ∪ o_items lo |} w).
Proof.
  intros Hl Hr Hcls.
  pose proof (join_dicts_spec w left right lo ro Hl Hr) as Hjoin. cbn zeta in Hjoin.
  unfold py_add.
  rewrite (bind_Ok _ _ w lo w) by by apply get_obj_Some.
  rewrite (bind_Ok _ _ w ro w) by by apply get_obj_Some.
  destruct Hcls as [-> | [-> ->]]; exact Hjoin.
Qed.

(** X4: [+] is associative on the entries: [(a + b) + c] and [a + (b + c)]
    are both new [ConcatableDict] objects with the same entries, those of
    [a] updated with those of [b], then with those of [c]. *)
Theorem ConcatableDict_add_is_associative (w : world) (a b c : loc) (oa ob oc : obj) :
  heap w !! a = Some oa →
  heap w !! b = Some ob →
  heap w !! c = Some oc →
  class_lookup (o_class oa) "__add__" = Some (CMethod ConcatableDict___add___m) →
  class_lookup (o_class ob) "__add__" = Some (CMethod ConcatableDict___add___m)
  ∨ (class_lookup (o_class ob) "__add__" = None
     ∧ class_lookup (o_class oc) "__radd__" = Some (CMethod ConcatableDict___radd___m)) →
  ∃ ab w1 abc w2 bc w3 abc' w4 o,
    py_add a b w = (Ok ab, w1)
    ∧ py_add ab c w1 = (Ok abc, w2)
    ∧ py_add b c w = (Ok bc, w3)
    ∧ py_add a bc w3 = (Ok abc', w4)
    ∧ heap w2 !! abc = Some o
    ∧ heap w4 !! abc' = Some o
    ∧ o_class o = ConcatableDict
    ∧ o_items o = o_items oc ∪ (o_items ob ∪ o_items oa).
Proof.
  intros Ha Hb Hc Hcla Hclb.
  set (ab := fresh (dom (heap w))).
  assert (Hfresh : heap w !! ab = None) by apply fresh_heap_None.
  set (oab := {| o_class := ConcatableDict; o_dict := ∅; o_items := o_items ob ∪ o_items oa |}).
  set (obc := {| o_class := ConcatableDict; o_dict := ∅; o_items := o_items oc ∪ o_items ob |}).
  set (w1 := with_obj ab oab w).
  set (w3 := with_obj ab obc w).
  assert (Hab1 : heap w1 !! ab = Some oab) by apply lookup_insert_eq.
  assert (Hc1 : heap w1 !! c = Some oc).
  { unfold w1; cbn. rewrite lookup_insert_ne; [done|]. intros <-. congruence. }
  assert (Hbc3 : heap w3 !! ab = Some obc) by apply lookup_insert_eq.
  assert (Ha3 : heap w3 !! a = Some oa).
  { unfold w3; cbn. rewrite lookup_insert_ne; [done|]. intros <-. congruence. }
  eexists ab, w1, _, _, ab, w3, _, _, _.
  split; [apply py_add_eq; [done|done|by left]|].
  split; [apply (py_add_eq w1 ab c oab oc); [done|done|by left]|].
  split; [by apply py_add_eq|].
  split; [apply (py_add_eq w3 a ab oa obc); [done|done|by left]|].
  split; [apply lookup_insert_eq|].
  split.
  { cbn. rewrite lookup_insert_eq. do 2 f_equal. by rewrite (assoc_L (∪)). }
  done.
Qed.

(** ** The decorator *)

(** X5: what [InfoDict.attribute(...)] does to a function.  It raises
    [ValueError] when no key is given and [concat] is false.  Otherwise it
    returns the function with its identity and body, carrying the options
    as given; the item [get_instance] then makes is an [InfoStoreItem]
    under the declared key when [concat] is false, and a
    [ConcatInfoStoreItem] under the hash of the function, whatever key was
    given, when [concat] is a [ConcatOptions] or [True], which stands for
    empty options.  Any other true [concat] passes the decorator and makes
    [register] raise [TypeError], the registry untouched. *)
Theorem attribute_decorator_outcomes (key : key) (cache : bool)
    (predicate : option (item_view → context → result value))
    (concat : concat_arg) (marksafe : bool) (f : func) :
  (key = KNone → concat_truthy concat = false →
   InfoDict_attribute key cache predicate concat marksafe f = Raise ValueError)
  ∧ (key ≠ KNone ∨ concat_truthy concat = true →
     ∃ f' opts,
       InfoDict_attribute key cache predicate concat marksafe f = Ok f'
       ∧ f_id f' = f_id f
       ∧ f_call f' = f_call f
       ∧ info_attribute_options f' = Some opts
       ∧ _key opts = key ∧ _cache opts = cache
       ∧ _predicate opts = predicate ∧ _marksafe opts = marksafe
       ∧ (concat_truthy concat = false →
          InfoDictAttributeInfo_get_instance f' opts = Ok (InfoStoreItem f')
          ∧ item_key (InfoStoreItem f') = Ok key)
       ∧ (∀ c, concat = ConcatOpts c
               ∨ (concat = ConcatBool true ∧ c = ConcatOptions___init__ [] []) →
            InfoDictAttributeInfo_get_instance f' opts
            = Ok (ConcatInfoStoreItem f' (list_to_set (include c)) (list_to_set (exclude c)))
            ∧ item_key (ConcatInfoStoreItem f' (list_to_set (include c))
                          (list_to_set (exclude c))) = Ok (KInt (f_id f)))
       ∧ (∀ v reg, concat = ConcatOther v → truthy v = true →
            InfoStore_register f' reg = (Raise TypeError, reg))).
Proof.
  unfold InfoDict_attribute, InfoDictAttributeInfo___init__. split.
  - intros -> ->. by rewrite bool_decide_eq_true_2.
  - intros Hok.
    assert (Hcond : bool_decide (key = KNone) && negb (concat_truthy concat) = false).
    { destruct Hok as [Hk| ->]; [by rewrite bool_decide_eq_false_2|].
      cbn. apply andb_false_r. }
    rewrite Hcond. eexists _, _. split; [reflexivity|]. cbn [f_id f_call info_attribute_options _key _cache _predicate _marksafe].
    repeat (split; [done|]). cbn [_concat]. split; [|split].
    + intros Hf. unfold InfoDictAttributeInfo_get_instance. cbn [_concat].
      destruct concat as [|[]|c|v]; try done.
      rewrite Hf. split; [reflexivity|]. unfold item_key, item_option; by cbn.
    + intros c [-> | [-> ->]]; by cbn.
    + intros v reg -> Hv. unfold InfoStore_register. cbn [info_attribute_options].
      unfold InfoDictAttributeInfo_get_instance. cbn [_concat concat_truthy]. by rewrite Hv.
Qed.

(** ** [getvalue] when the method raises *)

Lemma cache_miss_entry o f : cache_miss o f → cache_entry o (f_id f) = None.
Proof.
  unfold cache_miss, cache_entry.
  by destruct (normal_lookup o INFO_ITEM_CACHE_ATTRIBUTE_NAME) as [[[[| | | |d]| |]|]|].
Qed.

Lemma getvalue_raise_uncached mark_safe self opts instance w o e :
  info_attribute_options (item_func self) = Some opts →
  heap w !! instance = Some o →
  predicate_check opts self (o_items o) = Ok tt →
  _cache opts = false ∨ cache_miss o (item_func self) →
  processed self (o_items o) = Raise e →
  ∃ w1 o1,
    getvalue mark_safe self instance w = (Raise e, w1)
    ∧ calls w1 = (f_id (item_func self), instance) :: calls w
    ∧ heap w1 !! instance = Some o1
    ∧ o_items o1 = o_items o
    ∧ (_cache opts = false ∨ cache_miss o1 (item_func self))
    ∧ (_cache opts = true → cache_entry o1 (f_id (item_func self)) = None).
Proof.
  intros Hopts Ho Hp Hc Hproc. rewrite getvalue_eq. unfold getvalue_cases.
  rewrite Hopts, Ho, Hp. unfold computed. rewrite Hproc.
  destruct (_cache opts) eqn:Hcache.
  - destruct Hc as [|Hmiss]; [done|]. pose proof Hmiss as Hmiss'.
    unfold cache_miss in Hmiss.
    destruct (normal_lookup o INFO_ITEM_CACHE_ATTRIBUTE_NAME) as [x|] eqn:Hn.
    + destruct x as [[[| | | |d]| |]|]; try done. rewrite Hmiss.
      eexists _, o. split; [done|]. split; [done|]. split; [done|]. split; [done|].
      split; [by right|]. intros _. by apply cache_miss_entry.
    + assert (Hprop : class_lookup (o_class o) INFO_ITEM_CACHE_ATTRIBUTE_NAME ≠ Some CProperty).
      { eapply (normal_lookup_not_property _ _ (AVal VNone)). by right. }
      assert (Hm1 : cache_miss (set_cache o ∅) (item_func self)).
      { unfold cache_miss. by rewrite normal_lookup_set_cache. }
      eexists _, _. split; [done|]. split; [done|]. split; [apply lookup_insert_eq|].
      split; [done|]. split; [by right|]. intros _. by apply cache_miss_entry.
  - eexists _, o. split; [done|]. split; [done|]. split; [done|]. split; [done|].
    split; [by left|done].
Qed.

(** X6: [getvalue] does not cache a failure.  When the predicate passes,
    nothing is cached for the function and the wrapped function, or the
    filter of a concat item, raises, [getvalue] calls the function once,
    raises that exception and leaves the cache without a value for the
    function; the next [getvalue] calls the function again and raises
    again. *)
Theorem getvalue_does_not_cache_failures (mark_safe : value → value) (self : item)
    (opts : InfoDictAttributeInfo) (instance : loc) (w : world) (o : obj) (e : exn) :
  info_attribute_options (item_func self) = Some opts →
  heap w !! instance = Some o →
  predicate_check opts self (o_items o) = Ok tt →
  _cache opts = false ∨ cache_miss o (item_func self) →
  processed self (o_items o) = Raise e →
  ∃ w1 w2 o1,
    getvalue mark_safe self instance w = (Raise e, w1)
    ∧ calls w1 = (f_id (item_func self), instance) :: calls w
    ∧ heap w1 !! instance = Some o1
    ∧ (_cache opts = true → cache_entry o1 (f_id (item_func self)) = None)
    ∧ getvalue mark_safe self instance w1 = (Raise e, w2)
    ∧ calls w2 = (f_id (item_func self), instance) :: calls w1.
Proof.
  intros Hopts Ho Hp Hc Hproc.
  destruct (getvalue_raise_uncached mark_safe _ _ _ _ _ _ Hopts Ho Hp Hc Hproc)
    as (w1 & o1 & Hg1 & Hcalls1 & Ho1 & Hi1 & Hc1 & He1).
  rewrite <- Hi1 in Hp, Hproc.
  destruct (getvalue_raise_uncached mark_safe _ _ _ _ _ _ Hopts Ho1 Hp Hc1 Hproc)
    as (w2 & o2 & Hg2 & Hcalls2 & _).
  by exists w1, w2, o1.
Qed.

(** ** What [evaluate] touches *)

Lemma evaluate_loop_heap_other mark_safe store instance items :
  ∀ acc w r w',
    eval_ready w store instance →
    evaluate_loop mark_safe store items acc w = (r, w') →
    ∀ l, l ≠ instance → heap w' !! l = heap w !! l.
Proof.
  induction items as [|[k0 it0] rest IH]; intros acc w r w' Hready Hrun l Hl.
  { cbn in Hrun. unfold ret in Hrun. by simplify_eq. }
  rewrite (evaluate_loop_cons _ _ instance) in Hrun by done.
  destruct (getvalue mark_safe it0 instance w) as [r0 w1] eqn:Hg.
  pose proof (eval_ready_getvalue _ _ _ _ _ _ _ Hready Hg) as Hready1.
  pose proof (getvalue_heap_other _ _ _ _ _ _ Hg l Hl) as H1.
  assert (Hstep : ∀ acc1, evaluate_loop mark_safe store rest acc1 w1 = (r, w') →
                          heap w' !! l = heap w !! l).
  { intros acc1 Hrest. rewrite <- H1. by eapply IH. }
  destruct r0 as [v|e].
  - destruct (item_concat it0); [|by eapply Hstep].
    destruct (merged acc v); [by eapply Hstep|]. by simplify_eq.
  - destruct (skipped e); [by eapply Hstep|]. by simplify_eq.
Qed.

(** X7: [evaluate], whether it returns or raises, changes nothing but the
    cache attribute of the instance: every other object, the store
    included, is as before, and the instance keeps its class, its entries
    and its other attributes. *)
Theorem evaluate_touches_only_the_cache (mark_safe : value → value)
    (store instance : loc) (w w' : world) (o : obj) (r : result (gmap key value)) :
  eval_ready w store instance →
  heap w !! instance = Some o →
  InstanceInfoStore_evaluate mark_safe store w = (r, w') →
  (∀ l, l ≠ instance → heap w' !! l = heap w !! l)
  ∧ ∃ o', heap w' !! instance = Some o'
          ∧ o_class o' = o_class o
          ∧ o_items o' = o_items o
          ∧ ∀ name, name ≠ INFO_ITEM_CACHE_ATTRIBUTE_NAME →
              o_dict o' !! name = o_dict o !! name.
Proof.
  intros Hready Ho. unfold InstanceInfoStore_evaluate, bind.
  destruct (InstanceInfoStore_iteritems store w) as [[reg|e] w0] eqn:Hit.
  - assert (w0 = w) as ->.
    { unfold InstanceInfoStore_iteritems, bind in Hit.
      destruct (getattr store "_registered_items" w) as [[x|e] w1] eqn:Hget.
      - pose proof (getattr_world _ _ _ _ _ Hget) as ->.
        destruct x as [[| |]|]; cbn in Hit; unfold ret, raise in Hit; by simplify_eq.
      - by simplify_eq. }
    intros Hloop. split.
    + by eapply evaluate_loop_heap_other.
    + by eapply evaluate_loop_instance.
  - assert (w0 = w) as ->.
    { unfold InstanceInfoStore_iteritems, bind in Hit.
      destruct (getattr store "_registered_items" w) as [[x|e'] w1] eqn:Hget.
      - pose proof (getattr_world _ _ _ _ _ Hget) as ->.
        destruct x as [[| |]|]; cbn in Hit; unfold ret, raise in Hit; by simplify_eq.
      - pose proof (getattr_world _ _ _ _ _ Hget) as ->. by simplify_eq. }
    intros [= <- <-]. split; [done|]. by exists o.
Qed.

(** ** [evaluate] on an instance with nothing cached *)

Lemma cache_usable_set_cache o d :
  class_lookup (o_class o) INFO_ITEM_CACHE_ATTRIBUTE_NAME ≠ Some CProperty →
  cache_usable (set_cache o d).
Proof. intros H. unfold cache_usable. by rewrite normal_lookup_set_cache. Qed.

Lemma getvalue_clean mark_safe self instance w o :
  heap w !! instance = Some o →
  cache_usable o →
  cache_entry o (f_id (item_func self)) = None →
  ∃ w1 o1,
    getvalue mark_safe self instance w = (item_outcome mark_safe self (o_items o), w1)
    ∧ calls w1 = (if item_called self (o_items o)
                  then (f_id (item_func self), instance) :: calls w else calls w)
    ∧ heap w1 !! instance = Some o1
    ∧ cache_usable o1.
Proof.
  intros Ho Hu Hc. rewrite getvalue_eq. unfold getvalue_cases, item_outcome, item_called.
  destruct (info_attribute_options (item_func self)) as [opts|]; [|by eauto 10].
  rewrite Ho. destruct (predicate_check opts self (o_items o)) as [[]|e]; [|by eauto 10].
  destruct (_cache opts).
  - unfold cache_usable, cache_entry in *.
    destruct (normal_lookup o INFO_ITEM_CACHE_ATTRIBUTE_NAME) as [x|] eqn:Hn.
    + destruct x as [[[| | | |d]| |]|]; try done. rewrite Hc.
      assert (Hp : class_lookup (o_class o) INFO_ITEM_CACHE_ATTRIBUTE_NAME ≠ Some CProperty).
      { eapply normal_lookup_not_property. by left. }
      destruct (computed mark_safe opts self (o_items o)) as [v|e].
      * eexists _, _. split; [done|]. split; [done|]. split; [apply lookup_insert_eq|].
        by apply cache_usable_set_cache.
      * eexists _, _. split; [done|]. split; [done|]. split; [done|]. by rewrite Hn.
    + assert (Hp : class_lookup (o_class o) INFO_ITEM_CACHE_ATTRIBUTE_NAME ≠ Some CProperty).
      { eapply (normal_lookup_not_property _ _ (AVal VNone)). by right. }
      destruct (computed mark_safe opts self (o_items o)) as [v|e];
        (eexists _, _; split; [done|]; split; [done|]; split; [apply lookup_insert_eq|];
         by apply cache_usable_set_cache).
  - eexists _, _. split; [done|]. by split.
Qed.

Lemma evaluate_loop_fold mark_safe store instance items :
  ∀ acc w o,
    eval_ready w store instance →
    heap w !! instance = Some o →
    cache_usable o →
    wf_registry items →
    cache_clean o items →
    ∃ w', evaluate_loop mark_safe store items acc w
          = ((evaluate_fold mark_safe (o_items o) instance items acc (calls w)).1, w')
          ∧ calls w' = (evaluate_fold mark_safe (o_items o) instance items acc (calls w)).2.
Proof.
  induction items as [|[k it] rest IH]; intros acc w o Hready Ho Hu Hwf Hclean.
  { exists w. by cbn. }
  rewrite (evaluate_loop_cons _ _ instance) by done.
  destruct (getvalue_clean mark_safe it instance w o Ho Hu) as (w1 & o1 & Hg & Hcalls & Ho1 & Hu1).
  { apply (Hclean k it). by left. }
  pose proof (eval_ready_getvalue _ _ _ _ _ _ _ Hready Hg) as Hready1.
  destruct (getvalue_cache_entry _ _ _ _ _ _ _ Hg Ho) as (o1' & Ho1' & Hi1 & Hce).
  assert (o1' = o1) as -> by congruence.
  assert (Hclean1 : cache_clean o1 rest).
  { intros k' it' Hin. rewrite Hce.
    - apply (Hclean k' it'). by right.
    - by eapply wf_registry_head_fresh. }
  pose proof (wf_registry_tail _ _ Hwf) as Hwf1.
  rewrite Hg. cbn [evaluate_fold]. rewrite <- Hcalls, <- Hi1.
  destruct (item_outcome mark_safe it (o_items o1)) as [v|e].
  - destruct (item_concat it).
    + destruct (merged acc v) as [d|e]; [by apply IH|]. by exists w1.
    + by apply IH.
  - destruct (skipped e); [by apply IH|]. by exists w1.
Qed.

Lemma evaluate_fold_log mark_safe ctx instance items :
  ∀ acc log,
    evaluate_fold mark_safe ctx instance items acc log
    = ((evaluate_fold mark_safe ctx instance items acc []).1,
       (evaluate_fold mark_safe ctx instance items acc []).2 ++ log).
Proof.
  induction items as [|[k it] rest IH]; intros acc log; [done|].
  cbn [evaluate_fold].
  set (c := (f_id (item_func it), instance)).
  assert (Hstep : ∀ d,
    evaluate_fold mark_safe ctx instance rest d
      (if item_called it ctx then c :: log else log)
    = ((evaluate_fold mark_safe ctx instance rest d
          (if item_called it ctx then [c] else [])).1,
       (evaluate_fold mark_safe ctx instance rest d
          (if item_called it ctx then [c] else [])).2 ++ log)).
  { intros d. rewrite (IH d (if item_called it ctx then c :: log else log)).
    rewrite (IH d (if item_called it ctx then [c] else [])). cbn [fst snd].
    f_equal. rewrite <- app_assoc. by destruct (item_called it ctx). }
  assert (Hstop : ∀ e : exn,
    (Raise e : result (gmap key value), if item_called it ctx then c :: log else log)
    = ((Raise e : result (gmap key value), if item_called it ctx then [c] else []).1,
       (Raise e : result (gmap key value), if item_called it ctx then [c] else []).2 ++ log)).
  { intros e. cbn. by destruct (item_called it ctx). }
  destruct (item_outcome mark_safe it ctx) as [v|e].
  - destruct (item_concat it); [|apply Hstep].
    destruct (merged acc v); [apply Hstep|apply Hstop].
  - destruct (skipped e); [apply Hstep|apply Hstop].
Qed.

Lemma evaluate_fold_result_log mark_safe ctx instance items acc log :
  (evaluate_fold mark_safe ctx instance items acc log).1
  = (evaluate_fold mark_safe ctx instance items acc []).1.
Proof. by rewrite evaluate_fold_log. Qed.

(** An item that raises one of the two skipped exceptions adds nothing. *)
Lemma evaluate_fold_skip mark_safe ctx instance k it e r2 :
  item_outcome mark_safe it ctx = Raise e →
  skipped e = true →
  ∀ r1 acc log,
    (evaluate_fold mark_safe ctx instance (r1 ++ (k, it) :: r2) acc log).1
    = (evaluate_fold mark_safe ctx instance (r1 ++ r2) acc log).1.
Proof.
  intros Hout Hskip. induction r1 as [|[k0 it0] r1 IH]; intros acc log.
  - cbn [app evaluate_fold]. rewrite Hout, Hskip.
    rewrite evaluate_fold_result_log. by rewrite <- (evaluate_fold_result_log _ _ _ _ _ log).
  - cbn [app evaluate_fold].
    destruct (item_outcome mark_safe it0 ctx) as [v|e0].
    + destruct (item_concat it0); [|apply IH].
      destruct (merged acc v); [apply IH|done].
    + destruct (skipped e0); [apply IH|done].
Qed.

(** The calls the fold logs: those of the called items of a prefix of the
    registry, the whole registry when the fold returns. *)
Lemma evaluate_fold_calls mark_safe ctx instance items :
  ∀ acc,
    ∃ n, (evaluate_fold mark_safe ctx instance items acc []).2
         = reverse (call_of instance <$> filter (λ x, item_called x.2 ctx = true) (take n items))
      ∧ (∀ d, (evaluate_fold mark_safe ctx instance items acc []).1 = Ok d →
              take n items = items).
Proof.
  induction items as [|[k it] rest IH]; intros acc.
  { exists 0%nat. by cbn. }
  cbn [evaluate_fold].
  set (c := (f_id (item_func it), instance)).
  assert (Hstep : ∀ d, ∃ n,
    (evaluate_fold mark_safe ctx instance rest d (if item_called it ctx then [c] else [])).2
    = reverse (call_of instance <$>
                 filter (λ x, item_called x.2 ctx = true) (take n ((k, it) :: rest)))
    ∧ (∀ d', (evaluate_fold mark_safe ctx instance rest d
                (if item_called it ctx then [c] else [])).1 = Ok d' →
             take n ((k, it) :: rest) = (k, it) :: rest)).
  { intros d. destruct (IH d) as (n & Hn & Hall). exists (S n).
    rewrite evaluate_fold_log. cbn [fst snd take]. split.
    - rewrite Hn. rewrite filter_cons. cbn [snd].
      destruct (item_called it ctx) eqn:Hc.
      + rewrite decide_True by done. by rewrite fmap_cons, reverse_cons.
      + rewrite decide_False by done. by rewrite app_nil_r.
    - intros d' Hd'. by rewrite (Hall d' Hd'). }
  assert (Hstop : ∀ e : exn, ∃ n,
    (Raise e : result (gmap key value), if item_called it ctx then [c] else []).2
    = reverse (call_of instance <$>
                 filter (λ x, item_called x.2 ctx = true) (take n ((k, it) :: rest)))
    ∧ (∀ d', (Raise e : result (gmap key value),
              if item_called it ctx then [c] else []).1 = Ok d' →
             take n ((k, it) :: rest) = (k, it) :: rest)).
  { intros e. exists 1%nat. cbn [fst snd take]. split; [|done].
    rewrite filter_cons. cbn [snd]. destruct (item_called it ctx) eqn:Hc.
    - by rewrite decide_True by done.
    - by rewrite decide_False by done. }
  destruct (item_outcome mark_safe it ctx) as [v|e].
  - destruct (item_concat it); [|apply Hstep].
    destruct (merged acc v); [apply Hstep|apply Hstop].
  - destruct (skipped e); [apply Hstep|apply Hstop].
Qed.

Lemma wf_registry_ids_nodup reg :
  wf_registry reg → NoDup ((λ x : key * item, f_id (item_func x.2)) <$> reg).
Proof.
  induction reg as [|[k it] rest IH]; intros Hwf; [constructor|].
  rewrite fmap_cons. constructor.
  - cbn. intros Hin. apply list_elem_of_fmap in Hin as ([k' it'] & Heq & Hin).
    cbn in Heq. by eapply (wf_registry_head_fresh k it rest k' it').
  - apply IH. by eapply wf_registry_tail.
Qed.

Lemma call_of_nodup instance (l : registry) :
  NoDup ((λ x : key * item, f_id (item_func x.2)) <$> l) →
  NoDup (call_of instance <$> l).
Proof.
  induction l as [|x l IH]; [constructor|]. rewrite !fmap_cons.
  intros [Hx Hl]%NoDup_cons. constructor; [|by apply IH].
  intros Hin. apply Hx. apply list_elem_of_fmap in Hin as (y & Heq & Hin).
  apply list_elem_of_fmap. exists y. split; [|done]. unfold call_of in Heq. congruence.
Qed.

Lemma evaluate_fold_calls_spec mark_safe ctx instance items acc :
  wf_registry items →
  let new := (evaluate_fold mark_safe ctx instance items acc []).2 in
  NoDup new
  ∧ (∀ c, c ∈ new → ∃ k it, (k, it) ∈ items ∧ c = (f_id (item_func it), instance)
                             ∧ item_called it ctx = true)
  ∧ (∀ d, (evaluate_fold mark_safe ctx instance items acc []).1 = Ok d →
          ∀ k it, (k, it) ∈ items → item_called it ctx = true →
                  (f_id (item_func it), instance) ∈ new).
Proof.
  intros Hwf new. destruct (evaluate_fold_calls mark_safe ctx instance items acc)
    as (n & Hn & Hall). subst new. rewrite Hn. split; [|split].
  - rewrite reverse_Permutation. apply call_of_nodup.
    eapply sublist_NoDup; [by apply wf_registry_ids_nodup|].
    apply fmap_sublist. etrans; [apply sublist_filter|apply sublist_take].
  - intros c Hc. rewrite elem_of_reverse in Hc.
    apply list_elem_of_fmap in Hc as ([k it] & -> & Hin).
    apply list_elem_of_filter in Hin as [Hcalled Hin]. cbn in Hcalled.
    exists k, it. split; [|done].
    apply elem_of_take in Hin as (i & Hi & _). by eapply list_elem_of_lookup_2.
  - intros d Hd k it Hin Hcalled. rewrite (Hall d Hd).
    rewrite elem_of_reverse. apply (list_elem_of_fmap_2 (call_of instance) _ (k, it)).
    apply list_elem_of_filter. by split.
Qed.

(** Where the entries of the result come from. *)
Lemma evaluate_fold_provenance mark_safe ctx instance items :
  ∀ acc log d k v,
    (evaluate_fold mark_safe ctx instance items acc log).1 = Ok d →
    d !! k = Some v →
    acc !! k = Some v
    ∨ (∃ it, (k, it) ∈ items ∧ item_concat it = false
             ∧ item_outcome mark_safe it ctx = Ok v)
    ∨ (∃ k' it sub, (k', it) ∈ items ∧ item_concat it = true
                    ∧ item_outcome mark_safe it ctx = Ok (VDict sub)
                    ∧ sub !! k = Some v).
Proof.
  induction items as [|[k0 it0] rest IH]; intros acc log d k v Hd Hk.
  { cbn in Hd. simplify_eq. by left. }
  cbn [evaluate_fold] in Hd.
  assert (Hrest : ∀ acc1 log1,
    (evaluate_fold mark_safe ctx instance rest acc1 log1).1 = Ok d →
    acc1 !! k = Some v
    ∨ (∃ it, (k, it) ∈ (k0, it0) :: rest ∧ item_concat it = false
             ∧ item_outcome mark_safe it ctx = Ok v)
    ∨ (∃ k' it sub, (k', it) ∈ (k0, it0) :: rest ∧ item_concat it = true
                    ∧ item_outcome mark_safe it ctx = Ok (VDict sub)
                    ∧ sub !! k = Some v)).
  { intros acc1 log1 Hd1.
    destruct (IH _ _ _ _ _ Hd1 Hk) as [?|[(it & Hin & ?)|(k' & it & sub & Hin & ?)]].
    - by left.
    - right; left. exists it. split; [by right|done].
    - right; right. exists k', it, sub. split; [by right|done]. }
  destruct (item_outcome mark_safe it0 ctx) as [v0|e] eqn:Hout.
  - destruct (item_concat it0) eqn:Hc.
    + destruct (merged acc v0) as [d0|] eqn:Hm; [|done].
      destruct (Hrest _ _ Hd) as [Hacc|H]; [|by right].
      destruct (merged_Ok _ _ _ Hm) as [(sub & -> & _ & ->)|[-> ->]]; [|by left].
      apply lookup_union_Some_raw in Hacc as [Hsub|[_ Hacc]]; [|by left].
      right; right. exists k0, it0, sub. split; [by left|done].
    + destruct (Hrest _ _ Hd) as [Hacc|H]; [|by right].
      destruct (decide (k0 = k)) as [->|Hne].
      * rewrite lookup_insert_eq in Hacc. simplify_eq.
        right; left. exists it0. split; [by left|done].
      * rewrite lookup_insert_ne in Hacc by done. by left.
  - destruct (skipped e); [|done]. destruct (Hrest _ _ Hd) as [Hacc|H]; [by left|by right].
Qed.

Lemma wf_registry_submseteq reg' reg :
  reg' ⊆+ reg → wf_registry reg → wf_registry reg'.
Proof.
  intros Hsub [Hnd Hitems Hid]. split.
  - assert (Hs : reg'.*1 ⊆+ reg.*1) by by apply fmap_submseteq.
    apply submseteq_sublist_r in Hs as (l2 & Hperm & Hsl).
    rewrite Hperm. by eapply sublist_NoDup.
  - intros k it Hin. apply Hitems. by eapply elem_of_submseteq.
  - intros k1 it1 k2 it2 H1 H2. eapply Hid; by eapply elem_of_submseteq.
Qed.

Lemma cache_clean_submseteq o reg' reg :
  reg' ⊆+ reg → cache_clean o reg → cache_clean o reg'.
Proof. intros Hsub Hc k it Hin. apply (Hc k it). by eapply elem_of_submseteq. Qed.

Lemma item_outcome_skip mark_safe it opts ctx :
  info_attribute_options (item_func it) = Some opts →
  predicate_check opts it ctx = Ok tt →
  f_call (item_func it) ctx = InfoDict_skip →
  item_outcome mark_safe it ctx = Raise InfoStoreItemIgnoreError.
Proof.
  intros Hopts Hp Hf. unfold item_outcome. rewrite Hopts, Hp. unfold computed, processed.
  destruct it; cbn in Hf; by rewrite Hf.
Qed.

(** X8: a registered method that skips itself is omitted.  For a registry
    as [register] builds it and an instance with nothing cached for it, an
    item whose predicate passes and whose method raises
    [InfoStoreItemIgnoreError], as [self.skip()] does, makes [getvalue]
    raise that exception, and the loop of [evaluate] gives the result it
    gives without the item in the registry, wherever the item stands. *)
Theorem skipping_method_is_omitted (mark_safe : value → value)
    (store instance : loc) (r1 r2 : registry) (k : key) (it : item)
    (opts : InfoDictAttributeInfo) (acc : gmap key value) (w : world) (o : obj) :
  eval_ready w store instance →
  heap w !! instance = Some o →
  cache_usable o →
  wf_registry (r1 ++ (k, it) :: r2) →
  cache_clean o (r1 ++ (k, it) :: r2) →
  info_attribute_options (item_func it) = Some opts →
  predicate_check opts it (o_items o) = Ok tt →
  f_call (item_func it) (o_items o) = InfoDict_skip →
  (getvalue mark_safe it instance w).1 = Raise InfoStoreItemIgnoreError
  ∧ (evaluate_loop mark_safe store (r1 ++ (k, it) :: r2) acc w).1
    = (evaluate_loop mark_safe store (r1 ++ r2) acc w).1.
Proof.
  intros Hready Ho Hu Hwf Hclean Hopts Hp Hf.
  pose proof (item_outcome_skip mark_safe it opts _ Hopts Hp Hf) as Hout.
  assert (Hsub : r1 ++ r2 ⊆+ r1 ++ (k, it) :: r2).
  { apply submseteq_skips_l. by apply submseteq_cons. }
  split.
  - destruct (getvalue_clean mark_safe it instance w o Ho Hu) as (w1 & o1 & Hg & _).
    { apply (Hclean k it). apply elem_of_app. right. by left. }
    by rewrite Hg, Hout.
  - destruct (evaluate_loop_fold mark_safe store instance _ acc w o Hready Ho Hu Hwf Hclean)
      as (wa & -> & _).
    destruct (evaluate_loop_fold mark_safe store instance _ acc w o Hready Ho Hu
                (wf_registry_submseteq _ _ Hsub Hwf) (cache_clean_submseteq _ _ _ Hsub Hclean))
      as (wb & -> & _).
    cbn [fst]. by apply (evaluate_fold_skip _ _ _ _ _ InfoStoreItemIgnoreError).
Qed.

(** X9: a concat item whose dictionary holds the declared key of a
    non-concat item, both registered as [register] does and with nothing
    cached.  When the loop of [evaluate] meets the concat item first, the
    entry of the dictionary is replaced by the value of the non-concat
    item without an error; when it meets the non-concat item first,
    [validate_unique_keys] raises [ValueError] for the string key. *)
Theorem concat_collision_depends_on_order (mark_safe : value → value)
    (store instance : loc) (kc k : key) (C A : item) (sub acc : gmap key value)
    (va vc : value) (w : world) (o : obj) :
  eval_ready w store instance →
  heap w !! instance = Some o →
  cache_usable o →
  wf_registry [(kc, C); (k, A)] →
  cache_clean o [(kc, C); (k, A)] →
  item_concat C = true →
  item_concat A = false →
  item_outcome mark_safe C (o_items o) = Ok (VDict sub) →
  item_outcome mark_safe A (o_items o) = Ok va →
  dom acc ∩ dom sub = ∅ →
  sub !! k = Some vc →
  is_str k = true →
  (evaluate_loop mark_safe store [(kc, C); (k, A)] acc w).1 = Ok (<[k := va]> (sub ∪ acc))
  ∧ (evaluate_loop mark_safe store [(k, A); (kc, C)] acc w).1 = Raise ValueError.
Proof.
  intros Hready Ho Hu Hwf Hclean HC HA HoutC HoutA Hdisj Hk Hstr.
  assert (Hsub : [(k, A); (kc, C)] ⊆+ [(kc, C); (k, A)]) by apply submseteq_swap.
  split.
  - destruct (evaluate_loop_fold mark_safe store instance _ acc w o Hready Ho Hu Hwf Hclean)
      as (wa & -> & _).
    cbn [fst evaluate_fold]. rewrite HoutC, HC.
    destruct (merged_disjoint acc sub Hdisj) as [-> _].
    by rewrite HoutA, HA.
  - destruct (evaluate_loop_fold mark_safe store instance _ acc w o Hready Ho Hu
                (wf_registry_submseteq _ _ Hsub Hwf) (cache_clean_submseteq _ _ _ Hsub Hclean))
      as (wb & -> & _).
    cbn [fst evaluate_fold]. rewrite HoutA, HA, HoutC, HC.
    assert (Hint : dom (<[k := va]> acc) ∩ dom sub = {[k]}).
    { apply elem_of_dom_2 in Hk. rewrite dom_insert_L. apply set_eq. intros x.
      rewrite elem_of_intersection, elem_of_union, !elem_of_singleton. split.
      - intros [[->|Hx] Hs]; [done|]. exfalso.
        apply (not_elem_of_empty (C:=gset key) x). rewrite <- Hdisj.
        by apply elem_of_intersection.
      - intros ->. split; [by left|done]. }
    rewrite merged_overlap_strings; [done| |].
    + rewrite Hint. intros Heq. apply (not_elem_of_empty (C:=gset key) k).
      rewrite <- Heq. by apply elem_of_singleton.
    + rewrite Hint. by intros x ->%elem_of_singleton.
Qed.

(** An entry of the accumulated dictionary stays, or is replaced by the
    value of a later non-concat item with that key. *)
Lemma evaluate_fold_entry mark_safe ctx instance items :
  ∀ acc log d k v,
    (evaluate_fold mark_safe ctx instance items acc log).1 = Ok d →
    acc !! k = Some v →
    d !! k = Some v
    ∨ ∃ it v', (k, it) ∈ items ∧ item_concat it = false
               ∧ item_outcome mark_safe it ctx = Ok v' ∧ d !! k = Some v'.
Proof.
  induction items as [|[k0 it0] rest IH]; intros acc log d k v Hd Hk.
  { cbn in Hd. simplify_eq. by left. }
  cbn [evaluate_fold] in Hd.
  assert (Hrest : ∀ acc1 log1 v1,
    (evaluate_fold mark_safe ctx instance rest acc1 log1).1 = Ok d →
    acc1 !! k = Some v1 →
    d !! k = Some v1
    ∨ ∃ it v', (k, it) ∈ (k0, it0) :: rest ∧ item_concat it = false
               ∧ item_outcome mark_safe it ctx = Ok v' ∧ d !! k = Some v').
  { intros acc1 log1 v1 Hd1 Hk1.
    destruct (IH _ _ _ _ _ Hd1 Hk1) as [?|(it & v' & Hin & ?)]; [by left|].
    right. exists it, v'. split; [by right|done]. }
  destruct (item_outcome mark_safe it0 ctx) as [v0|e] eqn:Hout.
  - destruct (item_concat it0) eqn:Hc.
    + destruct (merged acc v0) as [d0|] eqn:Hm; [|done].
      eapply Hrest; [done|]. by eapply merged_keeps.
    + destruct (decide (k0 = k)) as [->|Hne].
      * destruct (Hrest _ _ v0 Hd) as [Hv0|H]; [apply lookup_insert_eq| |by right].
        right. exists it0, v0. split; [by left|done].
      * eapply Hrest; [done|]. by rewrite lookup_insert_ne.
  - destruct (skipped e); [|done]. by eapply Hrest.
Qed.

(** A non-concat item that yields a value is in the result under its
    key. *)
Lemma evaluate_fold_populates mark_safe ctx instance items :
  ∀ acc log d k it v,
    NoDup items.*1 →
    (evaluate_fold mark_safe ctx instance items acc log).1 = Ok d →
    (k, it) ∈ items →
    item_concat it = false →
    item_outcome mark_safe it ctx = Ok v →
    d !! k = Some v.
Proof.
  induction items as [|[k0 it0] rest IH]; intros acc log d k it v Hnd Hd Hin Hc Hout.
  { by apply elem_of_nil in Hin. }
  rewrite fmap_cons in Hnd. apply NoDup_cons in Hnd as [Hfresh Hnd].
  cbn [evaluate_fold] in Hd.
  apply elem_of_cons in Hin as [[= -> ->]|Hin].
  - rewrite Hout, Hc in Hd.
    destruct (evaluate_fold_entry _ _ _ _ _ _ _ k0 v Hd) as [?|(it & v' & Hin & _)];
      [apply lookup_insert_eq|done|].
    exfalso. apply Hfresh. by apply (list_elem_of_fmap_2 fst _ (k0, it)).
  - destruct (item_outcome mark_safe it0 ctx) as [v0|e].
    + destruct (item_concat it0); [|by eapply IH].
      destruct (merged acc v0); [by eapply IH|done].
    + destruct (skipped e); [by eapply IH|done].
Qed.

(** An entry of the dictionary of a concat item is in the result, unless
    a non-concat item with that key replaced it. *)
Lemma evaluate_fold_concat_entry mark_safe ctx instance items :
  ∀ acc log d kc it sub k v,
    (evaluate_fold mark_safe ctx instance items acc log).1 = Ok d →
    (kc, it) ∈ items →
    item_concat it = true →
    item_outcome mark_safe it ctx = Ok (VDict sub) →
    sub !! k = Some v →
    d !! k = Some v
    ∨ ∃ it' v', (k, it') ∈ items ∧ item_concat it' = false
                ∧ item_outcome mark_safe it' ctx = Ok v' ∧ d !! k = Some v'.
Proof.
  induction items as [|[k0 it0] rest IH]; intros acc log d kc it sub k v Hd Hin Hc Hout Hk.
  { by apply elem_of_nil in Hin. }
  cbn [evaluate_fold] in Hd.
  assert (Hlift : ∀ P : Prop,
    (P ∨ ∃ it' v', (k, it') ∈ rest ∧ item_concat it' = false
                   ∧ item_outcome mark_safe it' ctx = Ok v' ∧ d !! k = Some v') →
    P ∨ ∃ it' v', (k, it') ∈ (k0, it0) :: rest ∧ item_concat it' = false
                  ∧ item_outcome mark_safe it' ctx = Ok v' ∧ d !! k = Some v').
  { intros P [?|(it' & v' & Hin' & ?)]; [by left|].
    right. exists it', v'. split; [by right|done]. }
  apply elem_of_cons in Hin as [[= -> ->]|Hin].
  - rewrite Hout, Hc in Hd.
    destruct (merged acc (VDict sub)) as [d0|] eqn:Hm; [|done].
    apply Hlift. eapply evaluate_fold_entry; [done|].
    destruct (merged_Ok _ _ _ Hm) as [(sub' & [= <-] & _ & ->)|[[=] _]].
    by apply lookup_union_Some_l.
  - apply Hlift.
    destruct (item_outcome mark_safe it0 ctx) as [v0|e].
    + destruct (item_concat it0); [|by eapply IH].
      destruct (merged acc v0); [by eapply IH|done].
    + destruct (skipped e); [by eapply IH|done].
Qed.

(** When the fold returns for two orders of the same items, it returns
    the same dictionary. *)
Lemma evaluate_fold_order mark_safe ctx instance items items' acc log log' d d' :
  items ≡ₚ items' →
  NoDup items.*1 →
  (evaluate_fold mark_safe ctx instance items acc log).1 = Ok d →
  (evaluate_fold mark_safe ctx instance items' acc log').1 = Ok d' →
  d ⊆ d'.
Proof.
  intros Hperm Hnd Hd Hd'.
  assert (Hnd' : NoDup items'.*1) by by rewrite <- Hperm.
  apply map_subseteq_spec. intros k v Hk.
  assert (Hnon : ∀ it v', (k, it) ∈ items' → item_concat it = false →
            item_outcome mark_safe it ctx = Ok v' → d' !! k = Some v' → d' !! k = Some v).
  { intros it v' Hin Hc Hout Hk'. rewrite <- Hperm in Hin.
    pose proof (evaluate_fold_populates _ _ _ _ _ _ _ _ _ _ Hnd Hd Hin Hc Hout). congruence. }
  destruct (evaluate_fold_provenance _ _ _ _ _ _ _ _ _ Hd Hk)
    as [Hacc|[(it & Hin & Hc & Hout)|(kc & it & sub & Hin & Hc & Hout & Hsub)]].
  - destruct (evaluate_fold_entry _ _ _ _ _ _ _ _ _ Hd' Hacc)
      as [?|(it & v' & Hin & Hc & Hout & Hk')]; [done|]. by eapply Hnon.
  - rewrite Hperm in Hin. by eapply evaluate_fold_populates.
  - rewrite Hperm in Hin.
    destruct (evaluate_fold_concat_entry _ _ _ _ _ _ _ _ _ _ _ _ Hd' Hin Hc Hout Hsub)
      as [?|(it' & v' & Hin' & Hc' & Hout' & Hk')]; [done|]. by eapply Hnon.
Qed.

(** X10: the dictionary [evaluate] returns does not depend on the order in
    which the registry is iterated.  For a registry as [register] builds
    it and an instance with nothing cached for it, when the loop returns
    for two orders of the same items, it returns the same dictionary. *)
Theorem evaluate_result_independent_of_order (mark_safe : value → value)
    (store instance : loc) (items items' : registry) (acc : gmap key value)
    (w w1 w2 : world) (o : obj) (d d' : gmap key value) :
  eval_ready w store instance →
  heap w !! instance = Some o →
  cache_usable o →
  wf_registry items →
  cache_clean o items →
  items ≡ₚ items' →
  evaluate_loop mark_safe store items acc w = (Ok d, w1) →
  evaluate_loop mark_safe store items' acc w = (Ok d', w2) →
  d = d'.
Proof.
  intros Hready Ho Hu Hwf Hclean Hperm Hrun Hrun'.
  assert (Hwf' : wf_registry items').
  { eapply wf_registry_submseteq; [|done]. apply Permutation_submseteq. by symmetry. }
  assert (Hclean' : cache_clean o items').
  { eapply cache_clean_submseteq; [|done]. apply Permutation_submseteq. by symmetry. }
  destruct (evaluate_loop_fold mark_safe store instance items acc w o Hready Ho Hu Hwf Hclean)
    as (wa & Ha & _).
  destruct (evaluate_loop_fold mark_safe store instance items' acc w o Hready Ho Hu Hwf' Hclean')
    as (wb & Hb & _).
  rewrite Hrun in Ha. rewrite Hrun' in Hb.
  injection Ha as Ha _. injection Hb as Hb _. symmetry in Ha, Hb.
  apply (anti_symm (⊆)).
  - exact (evaluate_fold_order mark_safe _ _ items items' acc _ _ d d' Hperm
             (wf_nodup _ Hwf) Ha Hb).
  - symmetry in Hperm.
    exact (evaluate_fold_order mark_safe _ _ items' items acc _ _ d' d Hperm
             (wf_nodup _ Hwf') Hb Ha).
Qed.

(** ** The constructor, step by step *)

Lemma getattr_Raise self name w o e w' :
  heap w !! self = Some o →
  getattr self name w = (Raise e, w') →
  normal_lookup o name = None.
Proof.
  intros Ho. unfold getattr. rewrite (bind_Ok _ _ w o w) by by apply get_obj_Some.
  by destruct (normal_lookup o name).
Qed.

(** What the constructor of a class deriving from [InfoDict] does, step
    by step, when it returns. *)
Lemma InfoDict_new_shape mark_safe cls reg args kwargs w self w' :
  class_lookup cls "info_store" = Some (CInfoStore reg) →
  InfoDict_new mark_safe cls args kwargs w = (Ok self, w') →
  ∃ ctx d store wl w2 o2,
    heap w !! self = None
    ∧ heap w !! store = None
    ∧ store ≠ self
    ∧ dict_args args kwargs = Ok ctx
    ∧ class_lookup cls "_instance_info_store" = None
    ∧ heap wl !! self
      = Some (set_attr (with_items {| o_class := cls; o_dict := ∅; o_items := ∅ |} ctx)
                "_instance_info_store" (ARef store))
    ∧ heap wl !! store = Some (instance_store self reg)
    ∧ (∀ l, l ≠ self → l ≠ store → heap wl !! l = heap w !! l)
    ∧ calls wl = calls w
    ∧ eval_ready wl store self
    ∧ evaluate_loop mark_safe store reg ∅ wl = (Ok d, w2)
    ∧ heap w2 !! self = Some o2
    ∧ w' = with_obj self (set_attr (with_items o2 (d ∪ ctx)) "_frozen" (AVal (VBool true))) w2.
Proof.
  intros Hcls Hnew.
  unfold InfoDict_new, FrozenMeta___call__ in Hnew.
  apply bind_inv_Ok in Hnew as (self0 & w3 & Hcall & Hfrozen).
  apply bind_inv_Ok in Hfrozen as ([] & w4 & Hset & Hret).
  unfold ret in Hret. injection Hret as -> ->.
  unfold type___call__ in Hcall.
  apply bind_inv_Ok in Hcall as (l & w0 & Halloc & Hinit).
  apply bind_inv_Ok in Hinit as ([] & w5 & Hinit & Hret).
  unfold ret in Hret. injection Hret as -> ->.
  unfold alloc in Halloc. injection Halloc as <- <-.
  pose proof (fresh_heap_None w) as Hfresh.
  set (self := fresh (dom (heap w))) in *.
  set (o0 := {| o_class := cls; o_dict := ∅; o_items := ∅ |}) in *.
  unfold InfoDict___init__ in Hinit.
  apply bind_inv_Ok in Hinit as ([] & w1 & Hdict & Hrest).
  apply (dict_init_inv _ _ _ _ _ o0) in Hdict as (ctx & Hctx & ->);
    [|apply lookup_insert_eq|done].
  set (o1 := with_items o0 ctx) in *.
  set (w1 := with_obj self o1 _) in *.
  assert (Ho1 : heap w1 !! self = Some o1) by apply lookup_insert_eq.
  assert (Hw1 : ∀ l, l ≠ self → heap w1 !! l = heap w !! l).
  { intros l Hl. unfold w1; cbn. by rewrite !lookup_insert_ne. }
  apply bind_inv_Ok in Hrest as (x & w2 & Hstore & Hrest).
  apply bind_inv_Ok in Hrest as (d & w2' & Heval & Hupd).
  assert (Hnone : class_lookup cls "_instance_info_store" = None).
  { unfold InfoDict_info_store in Hstore.
    rewrite (bind_Ok _ _ w1 (FClass (CInfoStore reg)) w1) in Hstore.
    2:{ apply (getattr_normal _ _ _ o1); [done|]. unfold normal_lookup.
        cbn. by rewrite Hcls, lookup_empty. }
    unfold InfoStore___get__, try_except in Hstore.
    destruct (getattr self "_instance_info_store" w1) as [[y|e] w6] eqn:Hattr.
    - pose proof (getattr_world _ _ _ _ _ Hattr) as ->. simplify_eq.
      rewrite call_evaluate_not_store in Heval; [done|].
      eapply getattr_no_instance_attr; eauto.
    - apply (getattr_Raise _ _ _ o1) in Hattr; [|done].
      by apply normal_lookup_None_class in Hattr as [? _]. }
  assert (Hboth : (store <- InfoDict_info_store self ;;
                   call_evaluate mark_safe store) w1 = (Ok d, w2')).
  { by rewrite (bind_Ok _ _ _ _ _ Hstore). }
  apply (info_store_evaluate_inv _ _ reg _ o1) in Hboth as (Hne & Hloop & Hready);
    [|done..].
  pose proof (fresh_heap_None w1) as Hfresh1.
  set (store := fresh (dom (heap w1))) in *.
  set (wl := with_obj self (set_attr o1 _ _) _) in *.
  assert (Hself : heap wl !! self = Some (set_attr o1 "_instance_info_store" (ARef store)))
    by apply lookup_insert_eq.
  destruct (evaluate_loop_instance _ _ _ _ _ _ _ _ _ Hready Hself Hloop)
    as (o2 & Ho2 & Hc2 & Hi2 & _).
  rewrite (dict_update_eq _ _ _ o2 Ho2) in Hupd. cbn in Hupd.
  injection Hupd as <-.
  apply setattr_stmt_inv in Hset as (o3 & Ho3 & ->).
  cbn in Ho3. rewrite lookup_insert_eq in Ho3. injection Ho3 as <-.
  exists ctx, d, store, wl, w2', o2.
  split; [done|]. split; [by rewrite <- Hw1|]. split; [done|]. split; [done|].
  split; [done|]. split; [done|].
  split; [unfold wl; cbn; rewrite lookup_insert_ne by done; apply lookup_insert_eq|].
  split; [intros l Hl1 Hl2; unfold wl; cbn; by rewrite !lookup_insert_ne by done|].
  split; [done|]. split; [done|]. split; [done|]. split; [done|].
  unfold with_obj, set_attr, with_items. cbn. f_equal. rewrite Hi2. cbn.
  by rewrite insert_insert_eq.
Qed.

Lemma InfoDict_new_object mark_safe cls reg args kwargs w self w' :
  class_lookup cls "info_store" = Some (CInfoStore reg) →
  InfoDict_new mark_safe cls args kwargs w = (Ok self, w') →
  ∃ o ctx d store wl w2,
    heap w' !! self = Some o
    ∧ dict_args args kwargs = Ok ctx
    ∧ heap wl !! self
      = Some (set_attr (with_items {| o_class := cls; o_dict := ∅; o_items := ∅ |} ctx)
                "_instance_info_store" (ARef store))
    ∧ eval_ready wl store self
    ∧ evaluate_loop mark_safe store reg ∅ wl = (Ok d, w2)
    ∧ calls wl = calls w
    ∧ calls w' = calls w2
    ∧ o_class o = cls
    ∧ o_items o = d ∪ ctx
    ∧ o_dict o !! "_frozen" = Some (AVal (VBool true))
    ∧ o_dict o !! "_instance_info_store" = Some (ARef store)
    ∧ o_dict o !! "info_store" = None
    ∧ class_lookup cls "_instance_info_store" = None
    ∧ heap w !! self = None
    ∧ heap w !! store = None
    ∧ store ≠ self
    ∧ heap w' !! store = Some (instance_store self reg)
    ∧ ∀ l, l ≠ self → l ≠ store → heap w' !! l = heap w !! l.
Proof.
  intros Hcls Hnew.
  destruct (InfoDict_new_shape _ _ _ _ _ _ _ _ Hcls Hnew)
    as (ctx & d & store & wl & w2 & o2 & Hself0 & Hstore0 & Hne & Hctx & Hnone & Hself
        & Hstore & Hother & Hcalls & Hready & Hloop & Ho2 & ->).
  set (o1 := set_attr _ _ _) in Hself.
  destruct (evaluate_loop_instance _ _ _ _ _ _ _ _ _ Hready Hself Hloop)
    as (o2' & Ho2' & Hc2 & Hi2 & Hd2).
  assert (o2' = o2) as -> by congruence.
  eexists _, ctx, d, store, wl, w2.
  split; [apply lookup_insert_eq|]. split; [done|]. split; [done|]. split; [done|].
  split; [done|]. split; [done|]. split; [done|]. split; [by cbn; rewrite Hc2|].
  split; [done|]. split; [by cbn; rewrite lookup_insert_eq|].
  split.
  { cbn. rewrite lookup_insert_ne by done. rewrite Hd2 by done.
    unfold o1; cbn. by rewrite lookup_insert_eq. }
  split.
  { cbn. rewrite lookup_insert_ne by done. rewrite Hd2 by done.
    unfold o1; cbn. rewrite lookup_insert_ne by done. apply lookup_empty. }
  split; [done|]. split; [done|]. split; [done|]. split; [done|].
  split.
  { cbn. rewrite lookup_insert_ne by done.
    by rewrite (evaluate_loop_heap_other _ _ _ _ _ _ _ _ Hready Hloop store Hne). }
  intros l Hl1 Hl2. cbn. rewrite lookup_insert_ne by done.
  rewrite (evaluate_loop_heap_other _ _ _ _ _ _ _ _ Hready Hloop l Hl1). by apply Hother.
Qed.

Lemma InfoDict_new_fold mark_safe cls reg args kwargs w self w' :
  class_lookup cls "info_store" = Some (CInfoStore reg) →
  wf_registry reg →
  class_lookup cls INFO_ITEM_CACHE_ATTRIBUTE_NAME = None →
  InfoDict_new mark_safe cls args kwargs w = (Ok self, w') →
  ∃ o ctx d,
    heap w' !! self = Some o
    ∧ dict_args args kwargs = Ok ctx
    ∧ (evaluate_fold mark_safe ctx self reg ∅ []).1 = Ok d
    ∧ calls w' = (evaluate_fold mark_safe ctx self reg ∅ []).2 ++ calls w
    ∧ o_class o = cls
    ∧ o_items o = d ∪ ctx.
Proof.
  intros Hcls Hwf Hcache Hnew.
  destruct (InfoDict_new_object _ _ _ _ _ _ _ _ Hcls Hnew)
    as (o & ctx & d & store & wl & w2 & Ho & Hctx & Hself & Hready & Hloop & Hcalls & Hcalls'
        & Hc & Hi & _).
  set (o1 := set_attr _ _ _) in Hself.
  assert (Hd1 : o_dict o1 !! INFO_ITEM_CACHE_ATTRIBUTE_NAME = None).
  { unfold o1; cbn. rewrite lookup_insert_ne by done. apply lookup_empty. }
  assert (Hu : cache_usable o1).
  { unfold cache_usable, normal_lookup. rewrite Hd1.
    unfold o1. cbn [o_class set_attr with_items]. by rewrite Hcache. }
  assert (Hclean : cache_clean o1 reg).
  { intros k it _. by apply cache_entry_no_attr. }
  destruct (evaluate_loop_fold mark_safe store self reg ∅ wl o1 Hready Hself Hu Hwf Hclean)
    as (w2' & Hfold & Hcalls2).
  rewrite Hloop in Hfold. injection Hfold as Hres <-.
  rewrite evaluate_fold_log in Hcalls2. cbn [snd] in Hcalls2.
  rewrite evaluate_fold_result_log in Hres.
  unfold o1 in Hres, Hcalls2. cbn [set_attr with_items o_items] in Hres, Hcalls2.
  exists o, ctx, d.
  split; [done|]. split; [done|]. split; [done|].
  split; [by rewrite Hcalls', Hcalls2, Hcalls|]. by split.
Qed.

(** X11: what the constructor of a class deriving from [InfoDict] leaves
    in the instance.  When the registry of the class is as [register]
    builds it, the class does not define the cache attribute and the
    constructor returns, the instance is of that class and its entries are
    the entries given by the constructor arguments updated with the
    dictionary that one pass over the registry gives on those entries,
    each item judged once and without a cache ([evaluate_fold]): an
    evaluated entry wins, every other entry of the arguments is kept. *)
Theorem InfoDict_new_entries_follow_registry (mark_safe : value → value)
    (cls : pyclass) (reg : registry) (args : list value) (kwargs : gmap string value)
    (w w' : world) (self : loc) :
  class_lookup cls "info_store" = Some (CInfoStore reg) →
  wf_registry reg →
  class_lookup cls INFO_ITEM_CACHE_ATTRIBUTE_NAME = None →
  InfoDict_new mark_safe cls args kwargs w = (Ok self, w') →
  ∃ o ctx d,
    heap w' !! self = Some o
    ∧ o_class o = cls
    ∧ dict_args args kwargs = Ok ctx
    ∧ (evaluate_fold mark_safe ctx self reg ∅ []).1 = Ok d
    ∧ o_items o = d ∪ ctx
    ∧ (∀ k v, d !! k = Some v → o_items o !! k = Some v)
    ∧ (∀ k, d !! k = None → o_items o !! k = ctx !! k).
Proof.
  intros Hcls Hwf Hcache Hnew.
  destruct (InfoDict_new_fold _ _ _ _ _ _ _ _ Hcls Hwf Hcache Hnew)
    as (o & ctx & d & Ho & Hctx & Hd & _ & Hc & Hi).
  exists o, ctx, d. repeat (split; [done|]). rewrite Hi. split.
  - intros k v Hk. by apply lookup_union_Some_l.
  - intros k Hk. by apply lookup_union_r.
Qed.

(** X12: every entry of a new instance has a source, under the conditions
    of X11.  It is an entry of the constructor arguments, or the value of
    a registered non-concat item under the key of the entry, or an entry
    of the dictionary a registered concat item yields. *)
Theorem InfoDict_new_entry_provenance (mark_safe : value → value)
    (cls : pyclass) (reg : registry) (args : list value) (kwargs : gmap string value)
    (w w' : world) (self : loc) :
  class_lookup cls "info_store" = Some (CInfoStore reg) →
  wf_registry reg →
  class_lookup cls INFO_ITEM_CACHE_ATTRIBUTE_NAME = None →
  InfoDict_new mark_safe cls args kwargs w = (Ok self, w') →
  ∃ o ctx,
    heap w' !! self = Some o
    ∧ dict_args args kwargs = Ok ctx
    ∧ ∀ k v, o_items o !! k = Some v →
        ctx !! k = Some v
        ∨ (∃ it, (k, it) ∈ reg ∧ item_concat it = false
                 ∧ item_outcome mark_safe it ctx = Ok v)
        ∨ (∃ k' it sub, (k', it) ∈ reg ∧ item_concat it = true
                        ∧ item_outcome mark_safe it ctx = Ok (VDict sub)
                        ∧ sub !! k = Some v).
Proof.
  intros Hcls Hwf Hcache Hnew.
  destruct (InfoDict_new_fold _ _ _ _ _ _ _ _ Hcls Hwf Hcache Hnew)
    as (o & ctx & d & Ho & Hctx & Hd & _ & Hc & Hi).
  exists o, ctx. split; [done|]. split; [done|]. intros k v Hk. rewrite Hi in Hk.
  apply lookup_union_Some_raw in Hk as [Hk|[_ Hk]]; [|by left].
  destruct (evaluate_fold_provenance _ _ _ _ _ _ _ _ _ Hd Hk) as [Hacc|H]; [|by right].
  by rewrite lookup_empty in Hacc.
Qed.

(** X13: the constructor calls a registered method at most once.  Under
    the conditions of X11, the calls it logged are without repetition, and
    a call is logged exactly for the registered items that carry options
    and whose predicate passes on the entries of the constructor
    arguments: no method is called when its predicate fails. *)
Theorem InfoDict_new_calls_each_method_once (mark_safe : value → value)
    (cls : pyclass) (reg : registry) (args : list value) (kwargs : gmap string value)
    (w w' : world) (self : loc) :
  class_lookup cls "info_store" = Some (CInfoStore reg) →
  wf_registry reg →
  class_lookup cls INFO_ITEM_CACHE_ATTRIBUTE_NAME = None →
  InfoDict_new mark_safe cls args kwargs w = (Ok self, w') →
  ∃ ctx new,
    dict_args args kwargs = Ok ctx
    ∧ calls w' = new ++ calls w
    ∧ NoDup new
    ∧ ∀ c, c ∈ new ↔ ∃ k it, (k, it) ∈ reg ∧ c = (f_id (item_func it), self)
                             ∧ item_called it ctx = true.
Proof.
  intros Hcls Hwf Hcache Hnew.
  destruct (InfoDict_new_fold _ _ _ _ _ _ _ _ Hcls Hwf Hcache Hnew)
    as (o & ctx & d & Ho & Hctx & Hd & Hcalls & _).
  destruct (evaluate_fold_calls_spec mark_safe ctx self reg ∅ Hwf) as (Hnd & Hsound & Hcompl).
  exists ctx, (evaluate_fold mark_safe ctx self reg ∅ []).2.
  split; [done|]. split; [done|]. split; [done|]. intros c. split; [apply Hsound|].
  intros (k & it & Hin & -> & Hcalled). by eapply Hcompl.
Qed.

(** X14: the constructor builds one instance store and [info_store] keeps
    returning it.  When the constructor returns, two objects are new, the
    instance and its store; the store holds the instance and the registry
    of the class and is frozen; reading [self.info_store] again returns
    that store and changes nothing; and no object that existed before is
    touched. *)
Theorem InfoDict_new_keeps_one_store (mark_safe : value → value)
    (cls : pyclass) (reg : registry) (args : list value) (kwargs : gmap string value)
    (w w' : world) (self : loc) :
  class_lookup cls "info_store" = Some (CInfoStore reg) →
  InfoDict_new mark_safe cls args kwargs w = (Ok self, w') →
  ∃ store,
    heap w !! self = None
    ∧ heap w !! store = None
    ∧ store ≠ self
    ∧ heap w' !! store = Some (instance_store self reg)
    ∧ InfoDict_info_store self w' = (Ok (FAttr (ARef store)), w')
    ∧ (∀ name a, setattr_stmt store name a w' = (Raise RuntimeError, w'))
    ∧ ∀ l, l ≠ self → l ≠ store → heap w' !! l = heap w !! l.
Proof.
  intros Hcls Hnew.
  destruct (InfoDict_new_object _ _ _ _ _ _ _ _ Hcls Hnew)
    as (o & ctx & d & store & wl & w2 & Ho & _ & _ & _ & _ & _ & _ & Hc & _ & _ & Hattr
        & Hnoattr & Hnone & Hself0 & Hstore0 & Hne & Hstore & Hother).
  exists store. repeat (split; [done|]). split; [|split; [|done]].
  - unfold InfoDict_info_store.
    rewrite (bind_Ok _ _ w' (FClass (CInfoStore reg)) w').
    2:{ apply (getattr_normal _ _ _ o); [done|]. unfold normal_lookup.
        by rewrite Hc, Hcls, Hnoattr. }
    unfold InfoStore___get__, try_except.
    rewrite (getattr_normal _ _ _ o (FAttr (ARef store))); [done|done|].
    unfold normal_lookup. by rewrite Hc, Hnone, Hattr.
  - intros name a.
    by apply (InstanceInfoStore_setattr_frozen _ _ _ _ (instance_store self reg)
                (AVal (VBool true))).
Qed.

Lemma dict_init_eq self args kwargs w o ctx :
  heap w !! self = Some o →
  o_items o = ∅ →
  dict_args args kwargs = Ok ctx →
  dict___init__ self args kwargs w = (Ok tt, with_obj self (with_items o ctx) w).
Proof.
  intros Ho Hempty. unfold dict___init__, dict_args.
  destruct args as [|a [|??]]; [| |done].
  - rewrite (dict_update_eq self (VDict (kmap KStr kwargs)) w o Ho), Hempty.
    by intros ->.
  - unfold bind at 1. rewrite (dict_update_eq self a w o Ho), Hempty.
    destruct (update_items ∅ a) as [d|]; [|done].
    rewrite (dict_update_eq self (VDict (kmap KStr kwargs)) _ (with_items o d))
      by apply lookup_insert_eq.
    cbn [o_items with_items]. intros ->.
    unfold with_obj, with_items; cbn. by rewrite insert_insert_eq.
Qed.

(** X15: an entry named [_instance_info_store] in the constructor
    arguments breaks construction.  [InfoStore.__get__] reads the
    attribute of that name, [InfoDict.__getattr__] answers with the entry,
    and [evaluate] is looked up on a value that has none: the constructor
    raises [AttributeError], leaving only the new object with the entries
    of the arguments. *)
Theorem reserved_entry_breaks_construction (mark_safe : value → value)
    (cls : pyclass) (reg : registry) (args : list value) (kwargs : gmap string value)
    (w : world) (ctx : gmap key value) (v : value) :
  class_lookup cls "info_store" = Some (CInfoStore reg) →
  class_lookup cls "__getattr__" = Some (CMethod InfoDict___getattr___m) →
  class_lookup cls "_instance_info_store" = None →
  dict_args args kwargs = Ok ctx →
  ctx !! KStr "_instance_info_store" = Some v →
  ∃ self w1,
    InfoDict_new mark_safe cls args kwargs w = (Raise AttributeError, w1)
    ∧ heap w !! self = None
    ∧ heap w1 !! self = Some {| o_class := cls; o_dict := ∅; o_items := ctx |}
    ∧ ∀ l, l ≠ self → heap w1 !! l = heap w !! l.
Proof.
  intros Hstore Hgetattr Hnone Hctx Hv.
  set (self := fresh (dom (heap w))).
  set (o0 := {| o_class := cls; o_dict := ∅; o_items := ∅ |}).
  set (w0 := with_obj self o0 w).
  set (o1 := with_items o0 ctx).
  set (w1 := with_obj self o1 w0).
  assert (Ho0 : heap w0 !! self = Some o0) by apply lookup_insert_eq.
  assert (Ho1 : heap w1 !! self = Some o1) by apply lookup_insert_eq.
  exists self, w1. split; [|split; [apply fresh_heap_None|split; [done|]]].
  - unfold InfoDict_new, FrozenMeta___call__, type___call__.
    apply bind_Raise. rewrite (bind_Ok _ _ w self w0) by done.
    apply bind_Raise. unfold InfoDict___init__.
    rewrite (bind_Ok _ _ w0 tt w1) by by apply (dict_init_eq _ _ _ _ o0).
    rewrite (bind_Ok _ _ w1 (FAttr (AVal v)) w1).
    { apply bind_Raise. apply call_evaluate_not_store. right. by exists v. }
    unfold InfoDict_info_store.
    rewrite (bind_Ok _ _ w1 (FClass (CInfoStore reg)) w1).
    2:{ apply (getattr_normal _ _ _ o1); [done|]. unfold normal_lookup.
        cbn. by rewrite Hstore, lookup_empty. }
    unfold InfoStore___get__, try_except.
    assert (Hget : getattr self "_instance_info_store" w1 = (Ok (FAttr (AVal v)), w1)).
    { unfold getattr. rewrite (bind_Ok _ _ w1 o1 w1) by by apply get_obj_Some.
      unfold normal_lookup. cbn [o1 o0 with_items o_class o_dict].
      rewrite Hnone, lookup_empty. cbn. rewrite Hgetattr.
      rewrite (bind_Ok _ _ w1 v w1); [done|].
      unfold InfoDict___getattr__, try_except, dict___getitem__.
      rewrite (bind_Ok _ _ w1 o1 w1) by by apply get_obj_Some.
      cbn [o1 with_items o_items]. by rewrite Hv. }
    by rewrite Hget.
  - intros l Hl. unfold w1, w0; cbn. by rewrite !lookup_insert_ne.
Qed.


(** ** The cache the constructor leaves *)

Lemma getvalue_caches mark_safe self opts instance w o v :
  heap w !! instance = Some o →
  cache_usable o →
  cache_entry o (f_id (item_func self)) = None →
  info_attribute_options (item_func self) = Some opts →
  _cache opts = true →
  item_outcome mark_safe self (o_items o) = Ok v →
  ∃ w1 o1,
    getvalue mark_safe self instance w = (Ok v, w1)
    ∧ heap w1 !! instance = Some o1
    ∧ cache_entry o1 (f_id (item_func self)) = Some v.
Proof.
  intros Ho Hu Hc Hopts Hcache. unfold item_outcome. rewrite Hopts.
  rewrite getvalue_eq. unfold getvalue_cases. rewrite Hopts, Ho.
  destruct (predicate_check opts self (o_items o)) as [[]|e]; [|done].
  rewrite Hcache. intros Hv. rewrite Hv.
  unfold cache_usable, cache_entry in *.
  destruct (normal_lookup o INFO_ITEM_CACHE_ATTRIBUTE_NAME) as [x|] eqn:Hn.
  - destruct x as [[[| | | |d]| |]|]; try done. rewrite Hc.
    assert (Hp : class_lookup (o_class o) INFO_ITEM_CACHE_ATTRIBUTE_NAME ≠ Some CProperty).
    { eapply normal_lookup_not_property. by left. }
    eexists _, _. split; [done|]. split; [apply lookup_insert_eq|].
    rewrite normal_lookup_set_cache by done. apply lookup_insert_eq.
  - assert (Hp : class_lookup (o_class o) INFO_ITEM_CACHE_ATTRIBUTE_NAME ≠ Some CProperty).
    { eapply (normal_lookup_not_property _ _ (AVal VNone)). by right. }
    eexists _, _. split; [done|]. split; [apply lookup_insert_eq|].
    rewrite normal_lookup_set_cache by done. apply lookup_singleton_eq.
Qed.

Lemma evaluate_loop_cache_other mark_safe store instance items :
  ∀ acc w r w' o id,
    eval_ready w store instance →
    heap w !! instance = Some o →
    (∀ k it, (k, it) ∈ items → f_id (item_func it) ≠ id) →
    evaluate_loop mark_safe store items acc w = (r, w') →
    ∃ o', heap w' !! instance = Some o' ∧ cache_entry o' id = cache_entry o id.
Proof.
  induction items as [|[k0 it0] rest IH]; intros acc w r w' o id Hready Ho Hid Hrun.
  { cbn in Hrun. unfold ret in Hrun. simplify_eq. eauto. }
  rewrite (evaluate_loop_cons _ _ instance) in Hrun by done.
  destruct (getvalue mark_safe it0 instance w) as [r0 w1] eqn:Hg.
  pose proof (eval_ready_getvalue _ _ _ _ _ _ _ Hready Hg) as Hready1.
  destruct (getvalue_cache_entry _ _ _ _ _ _ _ Hg Ho) as (o1 & Ho1 & _ & Hce).
  assert (Hid0 : id ≠ f_id (item_func it0)).
  { intros ->. by apply (Hid k0 it0); [left|]. }
  assert (Hstep : ∀ acc1, evaluate_loop mark_safe store rest acc1 w1 = (r, w') →
    ∃ o', heap w' !! instance = Some o' ∧ cache_entry o' id = cache_entry o id).
  { intros acc1 Hrest.
    destruct (IH _ _ _ _ _ id Hready1 Ho1 ltac:(intros k it Hin; apply (Hid k it); by right)
                Hrest) as (o' & Ho' & He').
    exists o'. split; [done|]. rewrite He'. by apply Hce. }
  assert (Hstop : (r, w') = (r, w1) →
    ∃ o', heap w' !! instance = Some o' ∧ cache_entry o' id = cache_entry o id).
  { intros [= ->]. exists o1. split; [done|]. by apply Hce. }
  destruct r0 as [v|e].
  - destruct (item_concat it0); [|by eapply Hstep].
    destruct (merged acc v); [by eapply Hstep|]. simplify_eq. by apply Hstop.
  - destruct (skipped e); [by eapply Hstep|]. simplify_eq. by apply Hstop.
Qed.

(** When the loop returns, the value of every cached item that yielded
    one is in the cache of the instance. *)
Lemma evaluate_loop_caches mark_safe store instance items :
  ∀ acc w d w' o,
    eval_ready w store instance →
    heap w !! instance = Some o →
    cache_usable o →
    wf_registry items →
    cache_clean o items →
    evaluate_loop mark_safe store items acc w = (Ok d, w') →
    ∃ o', heap w' !! instance = Some o'
          ∧ ∀ k it opts v,
              (k, it) ∈ items →
              info_attribute_options (item_func it) = Some opts →
              _cache opts = true →
              item_outcome mark_safe it (o_items o) = Ok v →
              cache_entry o' (f_id (item_func it)) = Some v.
Proof.
  induction items as [|[k0 it0] rest IH]; intros acc w d w' o Hready Ho Hu Hwf Hclean Hrun.
  { cbn in Hrun. unfold ret in Hrun. simplify_eq. exists o. split; [done|].
    intros k it opts v Hin. by apply elem_of_nil in Hin. }
  pose proof Hrun as Hrun0.
  rewrite (evaluate_loop_cons _ _ instance) in Hrun by done.
  destruct (getvalue_clean mark_safe it0 instance w o Ho Hu) as (w1 & o1 & Hg & _ & Ho1 & Hu1).
  { apply (Hclean k0 it0). by left. }
  pose proof (eval_ready_getvalue _ _ _ _ _ _ _ Hready Hg) as Hready1.
  destruct (getvalue_cache_entry _ _ _ _ _ _ _ Hg Ho) as (o1' & Ho1' & Hi1 & Hce).
  assert (o1' = o1) as -> by congruence.
  assert (Hclean1 : cache_clean o1 rest).
  { intros k' it' Hin. rewrite Hce.
    - apply (Hclean k' it'). by right.
    - by eapply wf_registry_head_fresh. }
  pose proof (wf_registry_tail _ _ Hwf) as Hwf1.
  rewrite Hg in Hrun.
  assert (Hrest : ∃ acc1, evaluate_loop mark_safe store rest acc1 w1 = (Ok d, w')).
  { destruct (item_outcome mark_safe it0 (o_items o)) as [v|e].
    - destruct (item_concat it0); [|eauto].
      destruct (merged acc v); [eauto|done].
    - destruct (skipped e); [eauto|done]. }
  destruct Hrest as (acc1 & Hrest).
  destruct (IH _ _ _ _ _ Hready1 Ho1 Hu1 Hwf1 Hclean1 Hrest) as (o' & Ho' & Hall).
  exists o'. split; [done|].
  intros k it opts v [[= -> ->]|Hin]%elem_of_cons Hopts Hcache Hout.
  - destruct (getvalue_caches mark_safe it0 opts instance w o v Ho Hu) as (w1' & o1a & Hg' & Ho1a & He1);
      try done.
    { apply (Hclean k0 it0). by left. }
    rewrite Hg in Hg'. injection Hg' as _ <-.
    assert (o1a = o1) as -> by congruence.
    destruct (evaluate_loop_cache_other _ _ _ _ _ _ _ _ _ (f_id (item_func it0))
                Hready1 Ho1 ltac:(intros k' it' Hin'; by eapply wf_registry_head_fresh) Hrest)
      as (o'' & Ho'' & He'').
    assert (o'' = o') as -> by congruence. by rewrite He''.
  - rewrite <- Hi1 in Hout. by eapply Hall.
Qed.

(** X19: the constructor leaves the values of the cached methods in the
    cache of the instance.  Under the conditions of X11, every registered
    item with caching on that yielded a value on the entries of the
    arguments has that value cached on the instance; a later [getvalue]
    whose predicate passes returns it without a call and without a change,
    although the entries of the instance have changed since. *)
Theorem InfoDict_new_fills_the_cache (mark_safe : value → value)
    (cls : pyclass) (reg : registry) (args : list value) (kwargs : gmap string value)
    (w w' : world) (self : loc) :
  class_lookup cls "info_store" = Some (CInfoStore reg) →
  wf_registry reg →
  class_lookup cls INFO_ITEM_CACHE_ATTRIBUTE_NAME = None →
  InfoDict_new mark_safe cls args kwargs w = (Ok self, w') →
  ∃ o ctx,
    heap w' !! self = Some o
    ∧ dict_args args kwargs = Ok ctx
    ∧ ∀ k it opts v,
        (k, it) ∈ reg →
        info_attribute_options (item_func it) = Some opts →
        _cache opts = true →
        item_outcome mark_safe it ctx = Ok v →
        cache_entry o (f_id (item_func it)) = Some v
        ∧ (predicate_check opts it (o_items o) = Ok tt →
           getvalue mark_safe it self w' = (Ok v, w')).
Proof.
  intros Hcls Hwf Hcache Hnew.
  destruct (InfoDict_new_shape _ _ _ _ _ _ _ _ Hcls Hnew)
    as (ctx & d & store & wl & w2 & o2 & Hself0 & Hstore0 & Hne & Hctx & Hnone & Hself
        & Hstore & Hother & Hcalls & Hready & Hloop & Ho2 & ->).
  set (o1 := set_attr _ _ _) in Hself.
  assert (Hd1 : o_dict o1 !! INFO_ITEM_CACHE_ATTRIBUTE_NAME = None).
  { unfold o1; cbn. rewrite lookup_insert_ne by done. apply lookup_empty. }
  assert (Hu : cache_usable o1).
  { unfold cache_usable, normal_lookup. rewrite Hd1.
    unfold o1. cbn [o_class set_attr with_items]. by rewrite Hcache. }
  assert (Hclean : cache_clean o1 reg).
  { intros k it _. by apply cache_entry_no_attr. }
  destruct (evaluate_loop_caches _ _ _ _ _ _ _ _ _ Hready Hself Hu Hwf Hclean Hloop)
    as (o2' & Ho2' & Hall).
  assert (o2' = o2) as -> by congruence.
  set (o := set_attr (with_items o2 (d ∪ ctx)) "_frozen" (AVal (VBool true))).
  assert (Ho : heap (with_obj self o w2) !! self = Some o) by apply lookup_insert_eq.
  assert (Hlook : normal_lookup o INFO_ITEM_CACHE_ATTRIBUTE_NAME
                  = normal_lookup o2 INFO_ITEM_CACHE_ATTRIBUTE_NAME).
  { unfold normal_lookup, o. cbn [o_class o_dict set_attr with_items].
    by rewrite lookup_insert_ne. }
  exists o, ctx. split; [done|]. split; [done|].
  intros k it opts v Hin Hopts Hc Hout.
  assert (He : cache_entry o (f_id (item_func it)) = Some v).
  { unfold cache_entry. rewrite Hlook. by apply (Hall k it opts v). }
  split; [done|]. intros Hp.
  unfold cache_entry in He.
  destruct (normal_lookup o INFO_ITEM_CACHE_ATTRIBUTE_NAME) as [[[[| | | |dc]| |]|]|] eqn:Hn;
    try done.
  by apply (getvalue_hit mark_safe it opts self _ o dc v).
Qed.

(** ** Registration by the class statement *)

Lemma InfoStore_register_Ok f reg reg' :
  InfoStore_register f reg = (Ok tt, reg') →
  ∃ o it k, info_attribute_options f = Some o
            ∧ InfoDictAttributeInfo_get_instance f o = Ok it
            ∧ item_key it = Ok k
            ∧ (k ∉ reg.*1)
            ∧ reg' = reg ++ [(k, it)].
Proof.
  unfold InfoStore_register.
  destruct (info_attribute_options f) as [o|]; [|done].
  destruct (InfoDictAttributeInfo_get_instance f o) as [it|] eqn:Hi; [|done].
  destruct (item_key it) as [k|] eqn:Hk; [|done].
  case_bool_decide as Hin; [done|]. intros [= <-].
  exists o, it, k. by rewrite registry_setitem_fresh.
Qed.


Lemma class_register_Ok cls reg f cls' :
  own_registry cls = Some reg →
  class_register cls f = Ok cls' →
  ∃ o it k, info_attribute_options f = Some o
            ∧ InfoDictAttributeInfo_get_instance f o = Ok it
            ∧ item_key it = Ok k
            ∧ (k ∉ reg.*1)
            ∧ own_registry cls' = Some (reg ++ [(k, it)]).
Proof.
  intros Hown. unfold class_register. rewrite (own_registry_lookup _ _ Hown).
  destruct (InfoStore_register f reg) as [[[]|] reg1] eqn:Hreg; [|done]. intros [= <-].
  destruct (InfoStore_register_Ok _ _ _ Hreg) as (o & it & k & Ho & Hi & Hk & Hfresh & ->).
  exists o, it, k. repeat (split; [done|]).
  unfold own_registry, class_setattr; cbn. by rewrite lookup_insert_eq.
Qed.



(** What the loop of [InfoDictMeta.__init__] adds to the registry of the
    class. *)
Lemma register_all_spec attrs :
  ∀ cls cls' reg,
    own_registry cls = Some reg →
    register_all cls attrs = Ok cls' →
    ∃ new,
      own_registry cls' = Some (reg ++ new)
      ∧ (NoDup reg.*1 → NoDup (reg ++ new).*1)
      ∧ (∀ k it, (k, it) ∈ new →
           ∃ o, CFunction (item_func it) ∈ attrs
                ∧ info_attribute_options (item_func it) = Some o
                ∧ InfoDictAttributeInfo_get_instance (item_func it) o = Ok it
                ∧ item_key it = Ok k)
      ∧ (∀ f o, CFunction f ∈ attrs → info_attribute_options f = Some o →
           ∃ k it, (k, it) ∈ new
                   ∧ InfoDictAttributeInfo_get_instance f o = Ok it
                   ∧ item_key it = Ok k).
Proof.
  induction attrs as [|a attrs IH]; intros cls cls' reg Hown Hrun.
  { cbn in Hrun. injection Hrun as <-. exists []. rewrite app_nil_r.
    split; [done|]. split; [done|]. split.
    - intros k it Hin. by apply elem_of_nil in Hin.
    - intros f o Hin. by apply elem_of_nil in Hin. }
  assert (Hskip : (∀ f, a = CFunction f → info_attribute_options f = None) →
                  register_all cls attrs = Ok cls' →
                  ∃ new,
      own_registry cls' = Some (reg ++ new)
      ∧ (NoDup reg.*1 → NoDup (reg ++ new).*1)
      ∧ (∀ k it, (k, it) ∈ new →
           ∃ o, CFunction (item_func it) ∈ a :: attrs
                ∧ info_attribute_options (item_func it) = Some o
                ∧ InfoDictAttributeInfo_get_instance (item_func it) o = Ok it
                ∧ item_key it = Ok k)
      ∧ (∀ f o, CFunction f ∈ a :: attrs → info_attribute_options f = Some o →
           ∃ k it, (k, it) ∈ new
                   ∧ InfoDictAttributeInfo_get_instance f o = Ok it
                   ∧ item_key it = Ok k)).
  { intros Hno Hrest. destruct (IH _ _ _ Hown Hrest) as (new & Hown' & Hnd & Hsound & Hcompl).
    exists new. split; [done|]. split; [done|]. split.
    - intros k it Hin. destruct (Hsound k it Hin) as (o & Hin' & ?).
      exists o. split; [by right|done].
    - intros f o [Heq|Hin]%elem_of_cons Ho; [|by eapply Hcompl].
      symmetry in Heq. rewrite (Hno f Heq) in Ho. done. }
  destruct a as [| | |f| |]; cbn in Hrun; try (by apply Hskip).
  destruct (info_attribute_options f) as [o|] eqn:Hopts.
  2:{ apply Hskip; [|done]. by intros f' [= <-]. }
  destruct (class_register cls f) as [cls1|] eqn:Hreg; [|done].
  destruct (class_register_Ok _ _ _ _ Hown Hreg)
    as (o' & it & k & Ho' & Hi & Hk & Hfresh & Hown1).
  assert (o' = o) as -> by congruence.
  destruct (IH _ _ _ Hown1 Hrun) as (new & Hown' & Hnd & Hsound & Hcompl).
  exists ((k, it) :: new). rewrite <- app_assoc in Hown'. cbn in Hown'.
  split; [done|]. split; [|split].
  - intros Hnd0. rewrite (assoc_L (++) reg [(k, it)] new : reg ++ (k, it) :: new = _).
    apply Hnd. rewrite fmap_app. apply NoDup_app. split; [done|]. split.
    + intros k' Hk1 Hk2. cbn in Hk2. apply list_elem_of_singleton in Hk2 as ->. done.
    + cbn. apply NoDup_singleton.
  - intros k' it' [[= -> ->]|Hin]%elem_of_cons.
    + exists o. rewrite (get_instance_func _ _ _ Hi). split; [by left|done].
    + destruct (Hsound k' it' Hin) as (o1 & Hin' & ?). exists o1. split; [by right|done].
  - intros g og [[= ->]|Hin]%elem_of_cons Hog.
    + assert (og = o) as -> by congruence. exists k, it. split; [by left|done].
    + destruct (Hcompl g og Hin Hog) as (k' & it' & Hin' & ?).
      exists k', it'. split; [by right|done].
Qed.



Lemma class_lookup_dir : ∀ b n c, class_lookup b n = Some c → n ∈ dir b.
Proof.
  fix IH 1. intros [name base dct] n c. cbn [class_lookup dir].
  destruct (dct !! n) as [a|] eqn:Ha.
  - intros _. apply elem_of_union. left. by apply elem_of_dom_2 in Ha.
  - destruct base as [b|]; [|done]. intros Hb. apply elem_of_union. right. by eapply IH.
Qed.

Lemma class_attribute_listed b n c :
  class_lookup b n = Some c → c ∈ InfoDictMeta__get_class_attributes (Some b).
Proof.
  intros Hc. unfold InfoDictMeta__get_class_attributes.
  apply list_elem_of_omap. exists n. split; [|done].
  apply elem_of_elements. by eapply class_lookup_dir.
Qed.

Lemma body_attribute_listed (dct : gmap string cattr) n c :
  dct !! n = Some c → c ∈ (map_to_list dct).*2.
Proof.
  intros Hc. apply (list_elem_of_fmap_2 snd _ (n, c)). by apply elem_of_map_to_list.
Qed.

Lemma InfoDictMeta_new_own_registry name base dct :
  own_registry (InfoDictMeta___new__ name base dct) = Some [].
Proof.
  unfold own_registry, InfoDictMeta___new__, type___new__, class_dict.
  by rewrite lookup_insert_eq.
Qed.

Lemma FrozenMeta_init_info_store cls reg :
  own_registry cls = Some reg →
  class_lookup (FrozenMeta___init__ cls) "info_store" = Some (CInfoStore reg).
Proof.
  intros Hown. unfold FrozenMeta___init__.
  rewrite class_setattr_lookup_ne by done. by apply own_registry_lookup.
Qed.

(** X16: the registry a class statement with metaclass [InfoDictMeta]
    builds, when it succeeds.  Its keys are distinct; every item in it was
    made by [get_instance] from the options of a function found in the
    class body or visible on the base, and sits under its own key; and
    every function carrying options that is found in the class body or
    visible on the base has its item in it, so the tagged methods of the
    base are registered again for the new class. *)
Theorem class_statement_registers_tagged_functions (name : string)
    (base : option pyclass) (dct : gmap string cattr) (cls : pyclass) :
  InfoDictMeta_class name base dct = Ok cls →
  ∃ reg,
    class_lookup cls "info_store" = Some (CInfoStore reg)
    ∧ NoDup reg.*1
    ∧ (∀ k it, (k, it) ∈ reg →
         ∃ o, info_attribute_options (item_func it) = Some o
              ∧ InfoDictAttributeInfo_get_instance (item_func it) o = Ok it
              ∧ item_key it = Ok k
              ∧ ((∃ n, n ≠ "info_store" ∧ dct !! n = Some (CFunction (item_func it)))
                 ∨ (∃ b n, base = Some b
                           ∧ class_lookup b n = Some (CFunction (item_func it)))))
    ∧ (∀ n f o, n ≠ "info_store" → dct !! n = Some (CFunction f) →
         info_attribute_options f = Some o →
         ∃ k it, (k, it) ∈ reg ∧ InfoDictAttributeInfo_get_instance f o = Ok it
                 ∧ item_key it = Ok k)
    ∧ (∀ b n f o, base = Some b → class_lookup b n = Some (CFunction f) →
         info_attribute_options f = Some o →
         ∃ k it, (k, it) ∈ reg ∧ InfoDictAttributeInfo_get_instance f o = Ok it
                 ∧ item_key it = Ok k).
Proof.
  unfold InfoDictMeta_class, InfoDictMeta___init__.
  destruct (register_all _ _) as [cls1|] eqn:Hrun; [|done]. intros [= <-].
  destruct (register_all_spec _ _ _ _ (InfoDictMeta_new_own_registry name base dct) Hrun)
    as (reg & Hown & Hnd & Hsound & Hcompl).
  cbn [app] in Hown, Hnd.
  exists reg. split; [by apply FrozenMeta_init_info_store|].
  split; [apply Hnd; constructor|]. split; [|split].
  - intros k it Hin. destruct (Hsound k it Hin) as (o & Hattr & Ho & Hi & Hk).
    exists o. repeat (split; [done|]).
    apply elem_of_app in Hattr as [Hb|Hd].
    + right. unfold InfoDictMeta__get_class_attributes in Hb.
      destruct base as [b|]; [|by apply elem_of_nil in Hb].
      apply list_elem_of_omap in Hb as (n & _ & Hn). by exists b, n.
    + left. apply list_elem_of_fmap in Hd as ([n c] & Heq & Hn).
      cbn in Heq. subst c. apply elem_of_map_to_list in Hn. exists n.
      destruct (decide (n = "info_store")) as [->|Hne].
      * by rewrite lookup_insert_eq in Hn.
      * by rewrite lookup_insert_ne in Hn.
  - intros n f o Hn Hf Ho. apply (Hcompl f o); [|done].
    apply elem_of_app. right. apply (body_attribute_listed _ n).
    by rewrite lookup_insert_ne.
  - intros b n f o -> Hf Ho. apply (Hcompl f o); [|done].
    apply elem_of_app. left. by eapply class_attribute_listed.
Qed.


Lemma function_ids_identity attrs :
  NoDup (function_ids attrs) → one_object_per_identity attrs.
Proof.
  induction attrs as [|a attrs IH]; intros Hnd f g Hf Hg Hid.
  { by apply elem_of_nil in Hf. }
  assert (Hin : ∀ h, CFunction h ∈ attrs → f_id h ∈ function_ids attrs).
  { intros h Hh. apply list_elem_of_omap. by exists (CFunction h). }
  destruct a as [| | |h| |]; cbn in Hnd;
    try (apply elem_of_cons in Hf as [[=]|Hf]; apply elem_of_cons in Hg as [[=]|Hg];
         by apply IH).
  apply NoDup_cons in Hnd as [Hfresh Hnd].
  apply elem_of_cons in Hf as [[= ->]|Hf]; apply elem_of_cons in Hg as [[= ->]|Hg].
  - done.
  - exfalso. apply Hfresh. rewrite Hid. by apply Hin.
  - exfalso. apply Hfresh. rewrite <- Hid. by apply Hin.
  - by apply IH.
Qed.

(** X18: from the class statement to the instance.  When a class
    statement with metaclass [InfoDictMeta] succeeds, with one function
    object per identity in sight, a non-concat tagged method found in the
    class body or visible on the base fills the instances of the class:
    when the constructor returns, the predicate of the method passes on
    the entries of the arguments and the method returns a value, the
    instance holds that value, marked safe when asked, under the declared
    key.  So the tagged methods of a base class populate the instances of
    a subclass. *)
Theorem tagged_methods_populate_instances (mark_safe : value → value)
    (name : string) (base : option pyclass) (dct : gmap string cattr) (cls : pyclass)
    (f : func) (opts : InfoDictAttributeInfo) (args : list value)
    (kwargs : gmap string value) (w w' : world) (self : loc) :
  InfoDictMeta_class name base dct = Ok cls →
  NoDup (function_ids
           (InfoDictMeta__get_class_attributes base
            ++ (map_to_list (<["info_store" := CInfoStore InfoStore___init__]> dct)).*2)) →
  (∃ n, n ≠ "info_store" ∧ dct !! n = Some (CFunction f))
  ∨ (∃ b n, base = Some b ∧ class_lookup b n = Some (CFunction f)) →
  info_attribute_options f = Some opts →
  concat_truthy (_concat opts) = false →
  InfoDict_new mark_safe cls args kwargs w = (Ok self, w') →
  ∃ o ctx,
    heap w' !! self = Some o
    ∧ dict_args args kwargs = Ok ctx
    ∧ ∀ v, predicate_check opts (InfoStoreItem f) ctx = Ok tt →
           f_call f ctx = Ok v →
           o_items o !! _key opts = Some (marked mark_safe opts v).
Proof.
  intros Hclass Hids Hfound Hopts Hconcat Hnew.
  destruct (InfoDictMeta_class_registry_wf _ _ _ _ (function_ids_identity _ Hids) Hclass)
    as (reg & Hcls & Hwf).
  assert (Hin : (_key opts, InfoStoreItem f) ∈ reg).
  { revert Hclass. unfold InfoDictMeta_class, InfoDictMeta___init__.
    destruct (register_all _ _) as [cls1|] eqn:Hrun; [|done]. intros [= <-].
    destruct (register_all_spec _ _ _ _ (InfoDictMeta_new_own_registry name base dct) Hrun)
      as (reg' & Hown & _ & _ & Hcompl).
    cbn [app] in Hown.
    rewrite (FrozenMeta_init_info_store _ _ Hown) in Hcls. injection Hcls as <-.
    destruct (Hcompl f opts) as (k & it & Hkin & Hi & Hk); [|done|].
    { apply elem_of_app. destruct Hfound as [(n & Hn & Hf)|(b & n & -> & Hf)].
      - right. apply (body_attribute_listed _ n). by rewrite lookup_insert_ne.
      - left. by eapply class_attribute_listed. }
    unfold InfoDictAttributeInfo_get_instance in Hi. rewrite Hconcat in Hi.
    injection Hi as <-. unfold item_key, item_option in Hk. cbn in Hk.
    rewrite Hopts in Hk. by injection Hk as <-. }
  destruct (InfoDict_new_inv _ _ _ _ _ _ _ _ Hcls Hnew)
    as (o & ctx & d & store & w1 & w2 & Ho & Hctx & Hitems & _ & Hloop & Hready & Hself).
  exists o, ctx. split; [done|]. split; [done|].
  intros v Hp Hv. rewrite Hitems. apply lookup_union_Some_l.
  eapply (evaluate_loop_populates mark_safe store self ctx reg); eauto.
  intros k' it' _. by apply cache_entry_no_attr.
Qed.

(** ** Further concrete runs *)

Lemma Page_run_eval_ready : eval_ready Page_run.2 2%positive 1%positive.
Proof.
  split; [done|]. split.
  - eexists. vm_compute. reflexivity.
  - eexists. split; vm_compute; reflexivity.
Qed.

Lemma plain_run_cache_clean reg : cache_clean (object_at 1%positive plain_run.2) reg.
Proof. intros k it _. by apply cache_entry_no_attr. Qed.

Lemma plain_run_cache_usable : cache_usable (object_at 1%positive plain_run.2).
Proof. by vm_compute. Qed.

Lemma collision_registry_wf :
  wf_registry [(KInt 4, item_of Page_meta); (KStr "lang", item_of Page_lang)].
Proof.
  split.
  - apply (bool_decide_eq_true_1
             (NoDup [(KInt 4, item_of Page_meta); (KStr "lang", item_of Page_lang)].*1)).
    by vm_compute.
  - intros k it Hin.
    repeat (apply elem_of_cons in Hin as [[= -> ->] | Hin];
            [eexists; split; [reflexivity|split; reflexivity]|]).
    by apply elem_of_nil in Hin.
  - intros k1 it1 k2 it2 H1 H2.
    repeat (apply elem_of_cons in H1 as [[= -> ->] | H1]);
      try (by apply elem_of_nil in H1);
      repeat (apply elem_of_cons in H2 as [[= -> ->] | H2]);
      try (by apply elem_of_nil in H2); try reflexivity; by vm_compute.
Qed.

Lemma InfoDict_new_entries_follow_registry_witness :
  ∃ o ctx d,
    heap Page_run.2 !! 1%positive = Some o
    ∧ o_class o = Page
    ∧ dict_args Page_args ∅ = Ok ctx
    ∧ (evaluate_fold mark_safe_tag ctx 1%positive Page_registry ∅ []).1 = Ok d
    ∧ o_items o = d ∪ ctx
    ∧ (∀ k v, d !! k = Some v → o_items o !! k = Some v)
    ∧ (∀ k, d !! k = None → o_items o !! k = ctx !! k).
Proof.
  apply (InfoDict_new_entries_follow_registry mark_safe_tag Page Page_registry Page_args ∅
           empty_world Page_run.2 1%positive).
  - vm_compute. reflexivity.
  - exact Page_registry_wf.
  - vm_compute. reflexivity.
  - vm_compute. reflexivity.
Defined.

Lemma InfoDict_new_entry_provenance_witness :
  ∃ o ctx,
    heap Page_run.2 !! 1%positive = Some o
    ∧ dict_args Page_args ∅ = Ok ctx
    ∧ ∀ k v, o_items o !! k = Some v →
        ctx !! k = Some v
        ∨ (∃ it, (k, it) ∈ Page_registry ∧ item_concat it = false
                 ∧ item_outcome mark_safe_tag it ctx = Ok v)
        ∨ (∃ k' it sub, (k', it) ∈ Page_registry ∧ item_concat it = true
                        ∧ item_outcome mark_safe_tag it ctx = Ok (VDict sub)
                        ∧ sub !! k = Some v).
Proof.
  apply (InfoDict_new_entry_provenance mark_safe_tag Page Page_registry Page_args ∅
           empty_world Page_run.2 1%positive).
  - vm_compute. reflexivity.
  - exact Page_registry_wf.
  - vm_compute. reflexivity.
  - vm_compute. reflexivity.
Defined.

Lemma InfoDict_new_calls_each_method_once_witness :
  ∃ ctx new,
    dict_args Page_args ∅ = Ok ctx
    ∧ calls Page_run.2 = new ++ calls empty_world
    ∧ NoDup new
    ∧ ∀ c, c ∈ new ↔ ∃ k it, (k, it) ∈ Page_registry
                             ∧ c = (f_id (item_func it), 1%positive)
                             ∧ item_called it ctx = true.
Proof.
  apply (InfoDict_new_calls_each_method_once mark_safe_tag Page Page_registry Page_args ∅
           empty_world Page_run.2 1%positive).
  - vm_compute. reflexivity.
  - exact Page_registry_wf.
  - vm_compute. reflexivity.
  - vm_compute. reflexivity.
Defined.

Lemma InfoDict_new_keeps_one_store_witness :
  ∃ store,
    heap empty_world !! 1%positive = None
    ∧ heap empty_world !! store = None
    ∧ store ≠ 1%positive
    ∧ heap Page_run.2 !! store = Some (instance_store 1%positive Page_registry)
    ∧ InfoDict_info_store 1%positive Page_run.2 = (Ok (FAttr (ARef store)), Page_run.2)
    ∧ (∀ name a, setattr_stmt store name a Page_run.2 = (Raise RuntimeError, Page_run.2))
    ∧ ∀ l, l ≠ 1%positive → l ≠ store → heap Page_run.2 !! l = heap empty_world !! l.
Proof.
  apply (InfoDict_new_keeps_one_store mark_safe_tag Page Page_registry Page_args ∅
           empty_world Page_run.2 1%positive).
  - vm_compute. reflexivity.
  - vm_compute. reflexivity.
Defined.

Lemma skipping_method_is_omitted_witness :
  (getvalue mark_safe_tag (item_of Page_later) 1%positive plain_run.2).1
  = Raise InfoStoreItemIgnoreError
  ∧ (evaluate_loop mark_safe_tag 2%positive
       ([(KInt 4, item_of Page_meta)] ++ (KStr "later", item_of Page_later) :: Page_back)
       ∅ plain_run.2).1
    = (evaluate_loop mark_safe_tag 2%positive ([(KInt 4, item_of Page_meta)] ++ Page_back)
         ∅ plain_run.2).1.
Proof.
  apply (skipping_method_is_omitted mark_safe_tag 2%positive 1%positive
           [(KInt 4, item_of Page_meta)] Page_back (KStr "later") (item_of Page_later)
           (options_of Page_later) ∅ plain_run.2 (object_at 1%positive plain_run.2)).
  - exact plain_run_eval_ready.
  - vm_compute. reflexivity.
  - exact plain_run_cache_usable.
  - exact Page_registry_wf.
  - apply plain_run_cache_clean.
  - reflexivity.
  - reflexivity.
  - reflexivity.
Defined.

Lemma concat_collision_depends_on_order_witness :
  (evaluate_loop mark_safe_tag 2%positive
     [(KInt 4, item_of Page_meta); (KStr "lang", item_of Page_lang)] ∅ plain_run.2).1
  = Ok (<[KStr "lang" := VStr "fr"]> (Page_meta_kept ∪ ∅))
  ∧ (evaluate_loop mark_safe_tag 2%positive
       [(KStr "lang", item_of Page_lang); (KInt 4, item_of Page_meta)] ∅ plain_run.2).1
    = Raise ValueError.
Proof.
  apply (concat_collision_depends_on_order mark_safe_tag 2%positive 1%positive
           (KInt 4) (KStr "lang") (item_of Page_meta) (item_of Page_lang)
           Page_meta_kept ∅ (VStr "fr") (VStr "en") plain_run.2
           (object_at 1%positive plain_run.2)).
  - exact plain_run_eval_ready.
  - vm_compute. reflexivity.
  - exact plain_run_cache_usable.
  - exact collision_registry_wf.
  - apply plain_run_cache_clean.
  - reflexivity.
  - reflexivity.
  - vm_compute. reflexivity.
  - reflexivity.
  - vm_compute. reflexivity.
  - reflexivity.
  - reflexivity.
Defined.

Lemma getvalue_does_not_cache_failures_witness :
  ∃ w1 w2 o1,
    getvalue mark_safe_tag (item_of Page_draft) 1%positive plain_run.2
    = (Raise InfoStoreItemIgnoreError, w1)
    ∧ calls w1 = (f_id (item_func (item_of Page_draft)), 1%positive) :: calls plain_run.2
    ∧ heap w1 !! 1%positive = Some o1
    ∧ (_cache (options_of Page_draft) = true →
       cache_entry o1 (f_id (item_func (item_of Page_draft))) = None)
    ∧ getvalue mark_safe_tag (item_of Page_draft) 1%positive w1
      = (Raise InfoStoreItemIgnoreError, w2)
    ∧ calls w2 = (f_id (item_func (item_of Page_draft)), 1%positive) :: calls w1.
Proof.
  apply (getvalue_does_not_cache_failures mark_safe_tag (item_of Page_draft)
           (options_of Page_draft) 1%positive plain_run.2
           (object_at 1%positive plain_run.2) InfoStoreItemIgnoreError).
  - reflexivity.
  - vm_compute. reflexivity.
  - reflexivity.
  - right. by vm_compute.
  - reflexivity.
Defined.

Lemma evaluate_touches_only_the_cache_witness :
  (∀ l, l ≠ 1%positive →
     heap (InstanceInfoStore_evaluate mark_safe_tag 2%positive Page_run.2).2 !! l
     = heap Page_run.2 !! l)
  ∧ ∃ o', heap (InstanceInfoStore_evaluate mark_safe_tag 2%positive Page_run.2).2
            !! 1%positive = Some o'
          ∧ o_class o' = o_class (object_at 1%positive Page_run.2)
          ∧ o_items o' = o_items (object_at 1%positive Page_run.2)
          ∧ ∀ name, name ≠ INFO_ITEM_CACHE_ATTRIBUTE_NAME →
              o_dict o' !! name = o_dict (object_at 1%positive Page_run.2) !! name.
Proof.
  apply (evaluate_touches_only_the_cache mark_safe_tag 2%positive 1%positive Page_run.2
           (InstanceInfoStore_evaluate mark_safe_tag 2%positive Page_run.2).2
           (object_at 1%positive Page_run.2)
           (InstanceInfoStore_evaluate mark_safe_tag 2%positive Page_run.2).1).
  - exact Page_run_eval_ready.
  - vm_compute. reflexivity.
  - apply surjective_pairing.
Defined.

Lemma ConcatableDict_copy_is_independent_witness :
  ∃ new w1,
    ConcatableDict_copy 1%positive two_dicts = (Ok new, w1)
    ∧ heap two_dicts !! new = None
    ∧ heap w1 !! new
      = Some {| o_class := ConcatableDict; o_dict := ∅; o_items := o_items two_dicts_left |}
    ∧ (∀ l, l ≠ new → heap w1 !! l = heap two_dicts !! l)
    ∧ (∀ v w2, dict_update new v w1 = (Ok tt, w2) →
         heap w2 !! 1%positive = Some two_dicts_left)
    ∧ (∀ v w2, dict_update 1%positive v w1 = (Ok tt, w2) →
         heap w2 !! new
         = Some {| o_class := ConcatableDict; o_dict := ∅;
                   o_items := o_items two_dicts_left |}).
Proof.
  apply (ConcatableDict_copy_is_independent two_dicts 1%positive two_dicts_left).
  reflexivity.
Defined.

Lemma ConcatableDict_add_is_associative_witness :
  ∃ ab w1 abc w2 bc w3 abc' w4 o,
    py_add 1%positive 2%positive two_dicts = (Ok ab, w1)
    ∧ py_add ab 1%positive w1 = (Ok abc, w2)
    ∧ py_add 2%positive 1%positive two_dicts = (Ok bc, w3)
    ∧ py_add 1%positive bc w3 = (Ok abc', w4)
    ∧ heap w2 !! abc = Some o
    ∧ heap w4 !! abc' = Some o
    ∧ o_class o = ConcatableDict
    ∧ o_items o
      = o_items two_dicts_left ∪ (o_items two_dicts_right ∪ o_items two_dicts_left).
Proof.
  apply (ConcatableDict_add_is_associative two_dicts 1%positive 2%positive 1%positive
           two_dicts_left two_dicts_right two_dicts_left).
  - reflexivity.
  - reflexivity.
  - reflexivity.
  - reflexivity.
  - right. split; reflexivity.
Defined.

Lemma evaluate_result_independent_of_order_witness :
  succeeded ∅ (evaluate_loop mark_safe_tag 2%positive (Page_front ++ Page_back) ∅
                 plain_run.2).1
  = succeeded ∅ (evaluate_loop mark_safe_tag 2%positive (Page_back ++ Page_front) ∅
                   plain_run.2).1.
Proof.
  apply (evaluate_result_independent_of_order mark_safe_tag 2%positive 1%positive
           (Page_front ++ Page_back) (Page_back ++ Page_front) ∅ plain_run.2
           (evaluate_loop mark_safe_tag 2%positive (Page_front ++ Page_back) ∅ plain_run.2).2
           (evaluate_loop mark_safe_tag 2%positive (Page_back ++ Page_front) ∅ plain_run.2).2
           (object_at 1%positive plain_run.2)).
  - exact plain_run_eval_ready.
  - vm_compute. reflexivity.
  - exact plain_run_cache_usable.
  - exact Page_registry_wf.
  - apply plain_run_cache_clean.
  - apply Permutation_app_comm.
  - vm_compute. reflexivity.
  - vm_compute. reflexivity.
Defined.

Lemma class_statement_registers_tagged_functions_witness :
  ∃ reg,
    class_lookup Page "info_store" = Some (CInfoStore reg)
    ∧ NoDup reg.*1
    ∧ (∀ k it, (k, it) ∈ reg →
         ∃ o, info_attribute_options (item_func it) = Some o
              ∧ InfoDictAttributeInfo_get_instance (item_func it) o = Ok it
              ∧ item_key it = Ok k
              ∧ ((∃ n, n ≠ "info_store" ∧ Page_dct !! n = Some (CFunction (item_func it)))
                 ∨ (∃ b n, Some InfoDict = Some b
                           ∧ class_lookup b n = Some (CFunction (item_func it)))))
    ∧ (∀ n f o, n ≠ "info_store" → Page_dct !! n = Some (CFunction f) →
         info_attribute_options f = Some o →
         ∃ k it, (k, it) ∈ reg ∧ InfoDictAttributeInfo_get_instance f o = Ok it
                 ∧ item_key it = Ok k)
    ∧ (∀ b n f o, Some InfoDict = Some b → class_lookup b n = Some (CFunction f) →
         info_attribute_options f = Some o →
         ∃ k it, (k, it) ∈ reg ∧ InfoDictAttributeInfo_get_instance f o = Ok it
                 ∧ item_key it = Ok k).
Proof.
  apply (class_statement_registers_tagged_functions "Page" (Some InfoDict) Page_dct Page).
  vm_compute. reflexivity.
Defined.


Lemma reserved_entry_breaks_construction_witness :
  ∃ self w1,
    InfoDict_new mark_safe_tag Page reserved_args ∅ empty_world = (Raise AttributeError, w1)
    ∧ heap empty_world !! self = None
    ∧ heap w1 !! self
      = Some {| o_class := Page; o_dict := ∅;
                o_items := <[KStr "_instance_info_store" := VInt 1]> ∅ |}
    ∧ ∀ l, l ≠ self → heap w1 !! l = heap empty_world !! l.
Proof.
  apply (reserved_entry_breaks_construction mark_safe_tag Page Page_registry reserved_args ∅
           empty_world (<[KStr "_instance_info_store" := VInt 1]> ∅) (VInt 1)).
  - vm_compute. reflexivity.
  - vm_compute. reflexivity.
  - vm_compute. reflexivity.
  - vm_compute. reflexivity.
  - reflexivity.
Defined.

Lemma Child_candidates_ids :
  NoDup (function_ids
           (InfoDictMeta__get_class_attributes (Some Page)
            ++ (map_to_list (<["info_store" := CInfoStore InfoStore___init__]>
                               (∅ : gmap string cattr))).*2)).
Proof.
  apply (bool_decide_eq_true_1 (NoDup (function_ids _))). by vm_compute.
Qed.

Lemma tagged_methods_populate_instances_witness :
  ∃ o ctx,
    heap Child_run.2 !! 1%positive = Some o
    ∧ dict_args Child_args ∅ = Ok ctx
    ∧ ∀ v, predicate_check (options_of Page_title) (InfoStoreItem Page_title) ctx = Ok tt →
           f_call Page_title ctx = Ok v →
           o_items o !! _key (options_of Page_title)
           = Some (marked mark_safe_tag (options_of Page_title) v).
Proof.
  apply (tagged_methods_populate_instances mark_safe_tag "Child" (Some Page) ∅ Child
           Page_title (options_of Page_title) Child_args ∅ empty_world Child_run.2
           1%positive).
  - vm_compute. reflexivity.
  - exact Child_candidates_ids.
  - right. exists Page, "title". split; [reflexivity|]. vm_compute. reflexivity.
  - reflexivity.
  - reflexivity.
  - vm_compute. reflexivity.
Defined.

Lemma InfoDict_new_fills_the_cache_witness :
  ∃ o ctx,
    heap Page_run.2 !! 1%positive = Some o
    ∧ dict_args Page_args ∅ = Ok ctx
    ∧ ∀ k it opts v,
        (k, it) ∈ Page_registry →
        info_attribute_options (item_func it) = Some opts →
        _cache opts = true →
        item_outcome mark_safe_tag it ctx = Ok v →
        cache_entry o (f_id (item_func it)) = Some v
        ∧ (predicate_check opts it (o_items o) = Ok tt →
           getvalue mark_safe_tag it 1%positive Page_run.2 = (Ok v, Page_run.2)).
Proof.
  apply (InfoDict_new_fills_the_cache mark_safe_tag Page Page_registry Page_args ∅
           empty_world Page_run.2 1%positive).
  - vm_compute. reflexivity.
  - exact Page_registry_wf.
  - vm_compute. reflexivity.
  - vm_compute. reflexivity.
Defined.

